(** * Generic short-Weierstrass (a = -3) curve engine of [elliptic.go]

    A shallow embedding of the generic [CurveParams] implementation, the point
    codec and [GenerateKey], together with the properties checked against
    the specification. *)

From Stdlib Require Import String.
From Stdlib Require Import Strings.Byte.
From Stdlib Require Import ZArith List Bool Lia.
From Stdlib Require Import Zdivisibility Zcong Zpow_facts.
From Stdlib Require Import Zmod.Zmod.
Import ListNotations.

Local Open Scope Z_scope.

(** ** Bytes and big-endian byte strings *)

Definition Z_of_byte (b : byte) : Z := Z.of_N (Byte.to_N b).

Definition byte_of_Z (z : Z) : byte :=
  match Byte.of_N (Z.to_N (z mod 256)) with
  | Some b => b
  | None => x00
  end.

(** [be_bytes n z] is the fixed-width big-endian encoding of [z mod 256^n]. *)
Fixpoint be_bytes (n : nat) (z : Z) : list byte :=
  match n with
  | O => []
  | S n' => be_bytes n' (z / 256) ++ [byte_of_Z z]
  end.

(** [buf[i] = v]. *)
Fixpoint setIndex {A} (i : nat) (v : A) (buf : list A) : list A :=
  match buf, i with
  | [], _ => []
  | _ :: rest, O => v :: rest
  | b :: rest, S i' => b :: setIndex i' v rest
  end.

(** ** The arithmetic backend

    [safenum.Nat] values are natural numbers; a [safenum.Modulus] is a fixed
    positive number.  The methods below are the mathematical contract of the
    backend: the receiver is overwritten with the result (the destination is
    made explicit in the [Mem] model further down). *)

Module safenum.
Definition SetBytes (buf : list byte) : Z :=
  fold_left (fun acc b => acc * 256 + Z_of_byte b) buf 0.
Definition SetUint64 (v : Z) : Z := v mod 2 ^ 64.
Definition SetNat (x : Z) : Z := x.
Definition ModAdd (x y m : Z) : Z := (x + y) mod m.
Definition ModSub (x y m : Z) : Z := (x - y) mod m.
Definition ModMul (x y m : Z) : Z := (x * y) mod m.
(** The result is meaningful only when [x] is invertible modulo [m]. *)
Definition ModInverse (x m : Z) : Z := Z.invmod x m.
Definition EqZero (x : Z) : bool := x =? 0.
(** [Cmp] and [CmpMod] return -1, 0 or 1. *)
Definition Cmp (x y : Z) : Z :=
  match x ?= y with Lt => -1 | Eq => 0 | Gt => 1 end.
Definition CmpMod (x m : Z) : Z := Cmp x m.
(** The bit length of a number; 0 has none. *)
Definition BitLen (m : Z) : Z := if m =? 0 then 0 else Z.log2 m + 1.
(** The shortest big-endian encoding; leading zero bytes, which the backend
    may add, do not change what [SetBytes] reads back. *)
Definition Bytes (x : Z) : list byte :=
  be_bytes (Z.to_nat ((BitLen x + 7) / 8)) x.
End safenum.

(** ** Machine integers: Go's [int] is 64 bits wide on the targets considered *)

Definition wrap64 (z : Z) : Z := (z + 2 ^ 63) mod 2 ^ 64 - 2 ^ 63.

(** ** Curve parameters *)

Record CurveParams := {
  P : Z;          (* the order of the underlying field *)
  N : Z;          (* the order of the base point *)
  B : Z;          (* the constant of the curve equation *)
  Gx : Z;
  Gy : Z;         (* (x,y) of the base point *)
  BitSize : Z;    (* the size of the underlying field *)
  Name : string   (* the canonical name of the curve *)
}.

(** ** Point arithmetic, as values

    Each [let] is one statement of the source; a rebinding of a name is an
    in-place update of the corresponding [Nat]. *)

Section Engine.
Import safenum.
Variable curve : CurveParams.

(** polynomial returns x³ - 3x + b. *)
Definition polynomial (x : Z) : Z :=
  let x3 := ModMul x x (P curve) in
  let x3 := ModMul x3 x (P curve) in
  let threeX := ModAdd x x (P curve) in
  let threeX := ModAdd threeX x (P curve) in
  let x3 := ModSub x3 threeX (P curve) in
  let x3 := ModAdd x3 (B curve) (P curve) in
  x3.

Definition IsOnCurve (x y : Z) : bool :=
  let y2 := ModMul y y (P curve) in
  Cmp (polynomial x) y2 =? 0.

(** The condition of the source reads [!x.EqZero() || !x.EqZero()]. *)
Definition zForAffine (x y : Z) : Z :=
  let z := 0 in
  if negb (EqZero x) || negb (EqZero x) then SetUint64 1 else z.

Definition affineFromJacobian (x y z : Z) : Z * Z :=
  if EqZero z then (0, 0)
  else
    let zinv := ModInverse z (P curve) in
    let zinvsq := ModMul zinv zinv (P curve) in
    let xOut := ModMul x zinvsq (P curve) in
    let zinvsq := ModMul zinvsq zinv (P curve) in
    let yOut := ModMul y zinvsq (P curve) in
    (xOut, yOut).

Definition doubleJacobian (x y z : Z) : Z * Z * Z :=
  let delta := ModMul z z (P curve) in
  let gamma := ModMul y y (P curve) in
  let alpha := ModSub x delta (P curve) in
  let alpha2 := ModAdd x delta (P curve) in
  let alpha := ModMul alpha alpha2 (P curve) in
  let alpha2 := SetNat alpha in
  let alpha := ModAdd alpha alpha (P curve) in
  let alpha := ModAdd alpha alpha2 (P curve) in
  let beta := ModMul x gamma (P curve) in
  let x3 := ModMul alpha alpha (P curve) in
  let eight := SetUint64 8 in
  let beta8 := ModMul beta eight (P curve) in
  let x3 := ModSub x3 beta8 (P curve) in
  let z3 := ModAdd y z (P curve) in
  let z3 := ModMul z3 z3 (P curve) in
  let z3 := ModSub z3 gamma (P curve) in
  let z3 := ModSub z3 delta (P curve) in
  let beta := ModMul beta (SetUint64 4) (P curve) in
  let beta := ModSub beta x3 (P curve) in
  let y3 := ModMul alpha beta (P curve) in
  let gamma := ModMul gamma gamma (P curve) in
  let gamma := ModMul gamma eight (P curve) in
  let y3 := ModSub y3 gamma (P curve) in
  (x3, y3, z3).

Definition addJacobian (x1 y1 z1 x2 y2 z2 : Z) : Z * Z * Z :=
  if EqZero z1 then (SetNat x2, SetNat y2, SetNat z2)
  else if EqZero z2 then (SetNat x1, SetNat y1, SetNat z1)
  else
    let z1z1 := ModMul z1 z1 (P curve) in
    let z2z2 := ModMul z2 z2 (P curve) in
    let u1 := ModMul x1 z2z2 (P curve) in
    let u2 := ModMul x2 z1z1 (P curve) in
    let h := ModSub u2 u1 (P curve) in
    let xEqual := EqZero h in
    let i := ModAdd h h (P curve) in
    let i := ModMul i i (P curve) in
    let j := ModMul h i (P curve) in
    let s1 := ModMul y1 z2 (P curve) in
    let s1 := ModMul s1 z2z2 (P curve) in
    let s2 := ModMul y2 z1 (P curve) in
    let s2 := ModMul s2 z1z1 (P curve) in
    let r := ModSub s2 s1 (P curve) in
    let yEqual := EqZero r in
    if xEqual && yEqual then doubleJacobian x1 y1 z1
    else
      let r := ModAdd r r (P curve) in
      let v := ModMul u1 i (P curve) in
      let x3 := SetNat r in
      let x3 := ModMul x3 x3 (P curve) in
      let x3 := ModSub x3 j (P curve) in
      let x3 := ModSub x3 v (P curve) in
      let x3 := ModSub x3 v (P curve) in
      let y3 := SetNat r in
      let v := ModSub v x3 (P curve) in
      let y3 := ModMul y3 v (P curve) in
      let s1 := ModMul s1 j (P curve) in
      let s1 := ModAdd s1 s1 (P curve) in
      let y3 := ModSub y3 s1 (P curve) in
      let z3 := ModAdd z1 z2 (P curve) in
      let z3 := ModMul z3 z3 (P curve) in
      let z3 := ModSub z3 z1z1 (P curve) in
      let z3 := ModSub z3 z2z2 (P curve) in
      let z3 := ModMul z3 h (P curve) in
      (x3, y3, z3).

Definition Add (x1 y1 x2 y2 : Z) : Z * Z :=
  let z1 := zForAffine x1 y1 in
  let z2 := zForAffine x2 y2 in
  let '(x3, y3, z3) := addJacobian x1 y1 z1 x2 y2 z2 in
  affineFromJacobian x3 y3 z3.

Definition Double (x1 y1 : Z) : Z * Z :=
  let z1 := zForAffine x1 y1 in
  let '(x3, y3, z3) := doubleJacobian x1 y1 z1 in
  affineFromJacobian x3 y3 z3.

(** One round of the inner loop of [ScalarMult]: the accumulator is doubled,
    the base point is added when the top bit of [b] is set, and [b] is
    shifted left inside its 8 bits. *)
Definition scalarBit (Bx By Bz : Z) (st : Z * Z * Z * byte) : Z * Z * Z * byte :=
  let '(x, y, z, b) := st in
  let '(x, y, z) := doubleJacobian x y z in
  let '(x, y, z) :=
    if Z.land (Z_of_byte b) 128 =? 128
    then addJacobian Bx By Bz x y z
    else (x, y, z) in
  (x, y, z, byte_of_Z (Z.shiftl (Z_of_byte b) 1)).

Fixpoint scalarBits (bitNum : nat) (Bx By Bz : Z) (st : Z * Z * Z * byte)
  : Z * Z * Z * byte :=
  match bitNum with
  | O => st
  | S n => scalarBits n Bx By Bz (scalarBit Bx By Bz st)
  end.

Definition scalarByte (Bx By Bz : Z) (acc : Z * Z * Z) (b : byte) : Z * Z * Z :=
  let '(x, y, z) := acc in
  let '(x, y, z, _) := scalarBits 8 Bx By Bz (x, y, z, b) in
  (x, y, z).

Definition ScalarMult (Bx By : Z) (k : list byte) : Z * Z :=
  let Bz := SetUint64 1 in
  let '(x, y, z) := fold_left (scalarByte Bx By Bz) k (0, 0, 0) in
  affineFromJacobian x y z.

Definition ScalarBaseMult (k : list byte) : Z * Z :=
  ScalarMult (Gx curve) (Gy curve) k.
End Engine.

(** ** The [Curve] interface and its generic implementation by [CurveParams] *)

Module Curve.
Class t (C : Type) := {
  Params : C -> CurveParams;
  IsOnCurve : C -> Z -> Z -> bool;
  Add : C -> Z -> Z -> Z -> Z -> Z * Z;
  Double : C -> Z -> Z -> Z * Z;
  ScalarMult : C -> Z -> Z -> list byte -> Z * Z;
  ScalarBaseMult : C -> list byte -> Z * Z
}.
End Curve.

#[export] Instance CurveParams_Curve : Curve.t CurveParams := {|
  Curve.Params := fun curve => curve;
  Curve.IsOnCurve := IsOnCurve;
  Curve.Add := Add;
  Curve.Double := Double;
  Curve.ScalarMult := ScalarMult;
  Curve.ScalarBaseMult := ScalarBaseMult
|}.

(** ** Outcomes of operations that may stop with a run-time panic *)

Inductive outcome (A : Type) : Type :=
| Return (a : A)
| Panic.
Arguments Return {A} a.
Arguments Panic {A}.

(** ** [math/big] integers, as far as the codec uses them *)

Module big.
Definition SetBytes (buf : list byte) : Z := safenum.SetBytes buf.
Definition Bytes (x : Z) : list byte := safenum.Bytes (Z.abs x).
Definition Bit (x : Z) (i : Z) : Z := Z.b2z (Z.testbit x i).
(** [FillBytes] writes the absolute value into a buffer of [n] bytes and
    panics when it does not fit. *)
Definition FillBytes (x : Z) (n : nat) : outcome (list byte) :=
  if Z.abs x <? 256 ^ Z.of_nat n then Return (be_bytes n (Z.abs x)) else Panic.
Definition Neg (x : Z) : Z := - x.
Definition Mod (x y : Z) : Z := x mod Z.abs y.
End big.

(** ** Point codec *)

(** [(bitSize + 7) / 8] on machine integers: the sum wraps around and the
    division truncates toward zero.  The result lies within ±2^60, so the
    lengths 1 + byteLen and 1 + 2*byteLen computed from it do not wrap. *)
Definition byteLen (bitSize : Z) : Z := Z.quot (wrap64 (bitSize + 7)) 8.

(** [buf[lo:]] and [buf[lo:hi]] for indices within range. *)
Definition sliceFrom {A} (lo : Z) (buf : list A) : list A := skipn (Z.to_nat lo) buf.
Definition slice {A} (lo hi : Z) (buf : list A) : list A :=
  firstn (Z.to_nat (hi - lo)) (skipn (Z.to_nat lo) buf).

Definition len {A} (buf : list A) : Z := Z.of_nat (length buf).

Section Codec.
Context {C : Type} `{Curve.t C}.

(** [big.Int.ModSqrt] of the Go library, called as [z.ModSqrt(z, p)] for
    an odd [p]: [Some r] when [z] is set to a square root [r], [None] when
    [z] is left unchanged and [nil] is returned. *)
Variable ModSqrt : Z -> Z -> option Z.

Definition Marshal (curve : C) (x y : Z) : outcome (list byte) :=
  let byteLen := byteLen (BitSize (Curve.Params curve)) in
  if 1 + 2 * byteLen <? 0 then Panic
  else
    match big.FillBytes x (Z.to_nat byteLen), big.FillBytes y (Z.to_nat byteLen) with
    | Return bx, Return by_ => Return (byte_of_Z 4 :: bx ++ by_)
    | _, _ => Panic
    end.

Definition MarshalCompressed (curve : C) (x y : Z) : outcome (list byte) :=
  let byteLen := byteLen (BitSize (Curve.Params curve)) in
  if 1 + byteLen <=? 0 then Panic
  else
    match big.FillBytes x (Z.to_nat byteLen) with
    | Return bx => Return (byte_of_Z (Z.lor (big.Bit y 0) 2) :: bx)
    | Panic => Panic
    end.

(** On error, x = nil: rendered as [None]. *)
Definition Unmarshal (curve : C) (data : list byte) : option (Z * Z) :=
  let byteLen := byteLen (BitSize (Curve.Params curve)) in
  if negb (len data =? 1 + 2 * byteLen) then None
  else if negb (Z_of_byte (nth 0 data x00) =? 4) then None   (* the length is odd: data[0] exists *)
  else
    let p := P (Curve.Params curve) in
    let x := safenum.SetBytes (slice 1 (1 + byteLen) data) in
    let y := safenum.SetBytes (sliceFrom (1 + byteLen) data) in
    if (safenum.CmpMod x p >=? 0) || (safenum.CmpMod y p >=? 0) then None
    else if negb (Curve.IsOnCurve curve x y) then None
    else Some (x, y).

Definition UnmarshalCompressed (curve : C) (data : list byte)
  : outcome (option (Z * Z)) :=
  let byteLen := byteLen (BitSize (Curve.Params curve)) in
  if negb (len data =? 1 + byteLen) then Return None
  else
    match data with
    | [] => Panic                       (* data[0] on an empty slice *)
    | data0 :: _ =>
      if negb (Z_of_byte data0 =? 2) && negb (Z_of_byte data0 =? 3) then Return None
      else
        let p := P (Curve.Params curve) in
        let x := safenum.SetBytes (sliceFrom 1 data) in
        if safenum.CmpMod x p >=? 0 then Return None
        else
          let y := polynomial (Curve.Params curve) x in
          let yBig := big.SetBytes (safenum.Bytes y) in
          let pBig := big.SetBytes (safenum.Bytes p) in
          if Z.even pBig then Panic     (* ModSqrt wants an odd modulus *)
          else
            (* the value returned by ModSqrt is dropped, so the test
               [yBig == nil] that follows in the source never holds *)
            let yBig := match ModSqrt yBig pBig with
                        | Some r => r
                        | None => yBig
                        end in
            let yBig := if negb (big.Bit yBig 0 =? Z.land (Z_of_byte data0) 1)
                        then big.Mod (big.Neg yBig) pBig
                        else yBig in
            let y := safenum.SetBytes (big.Bytes yBig) in
            if negb (Curve.IsOnCurve curve x y) then Return None
            else Return (Some (x, y))
    end.
End Codec.

(** ** Key generation *)

Definition mask : list Z := [0xff; 0x1; 0x3; 0x7; 0xf; 0x1f; 0x3f; 0x7f].

(** A random source, read as the stream of bytes it yields: [rand i] is the
    byte at offset [i], and [None] from the offset where the source fails. *)
Definition Reader := nat -> option byte.

(** [io.ReadFull(rand, buf)] starting at offset [pos]: the buffer is filled
    from the front; the flag tells whether all of it was. *)
Fixpoint ReadFull (rand : Reader) (pos : nat) (buf : list byte) : list byte * bool :=
  match buf with
  | [] => ([], true)
  | b :: rest =>
      match rand pos with
      | Some c => let '(rest', ok) := ReadFull rand (S pos) rest in (c :: rest', ok)
      | None => (b :: rest, false)
      end
  end.

Inductive keyResult : Type :=
| KeyOk (priv : list byte) (x y : Z)   (* err == nil *)
| KeyErr (priv : list byte)            (* the source failed; x and y are nil *)
| KeyPanic.                            (* index out of range *)

Section GenerateKey.
Context {C : Type} `{Curve.t C}.

(** The body of the loop [for x == nil]; [None] when [fuel] rounds did not
    suffice. *)
Fixpoint generateLoop (fuel : nat) (curve : C) (N bitSize : Z)
    (rand : Reader) (pos : nat) (priv : list byte) : option keyResult :=
  match fuel with
  | O => None
  | S fuel' =>
      let '(priv, ok) := ReadFull rand pos priv in
      if negb ok then Some (KeyErr priv)
      else
        match nth_error priv 0, nth_error mask (Z.to_nat (Z.rem bitSize 8)) with
        | Some p0, Some m =>
            let priv := setIndex 0 (byte_of_Z (Z.land (Z_of_byte p0) m)) priv in
            match nth_error priv 1 with
            | Some p1 =>
                let priv := setIndex 1 (byte_of_Z (Z.lxor (Z_of_byte p1) 0x42)) priv in
                if safenum.CmpMod (safenum.SetBytes priv) N >=? 0
                then generateLoop fuel' curve N bitSize rand (pos + length priv) priv
                else
                  let '(x, y) := Curve.ScalarBaseMult curve priv in
                  Some (KeyOk priv x y)
            | None => Some KeyPanic
            end
        | _, _ => Some KeyPanic
        end
  end.

Definition GenerateKey (curve : C) (rand : Reader) (fuel : nat) : option keyResult :=
  let N := N (Curve.Params curve) in
  let bitSize := safenum.BitLen N in
  let byteLen := byteLen bitSize in
  let priv := repeat x00 (Z.to_nat byteLen) in
  generateLoop fuel curve N bitSize rand 0 priv.
End GenerateKey.

(** ** The supported curves of this file *)

Definition p384 : CurveParams := {|
  Name := "P-384";
  P := 39402006196394479212279040100143613805079739270465446667948293404245721771496870329047266088258938001861606973112319;
  N := 39402006196394479212279040100143613805079739270465446667946905279627659399113263569398956308152294913554433653942643;
  B := 0xb3312fa7e23ee7e4988e056be3f82d19181d9c6efe8141120314088f5013875ac656398d8a2ed19d2a85c8edd3ec2aef;
  Gx := 0xaa87ca22be8b05378eb1c71ef320ad746e1d3b628ba79b9859f741e082542a385502f25dbf55296c3a545e3872760ab7;
  Gy := 0x3617de4a96262c6f5d9e98bf9292dc29f8f41dbd289a147ce9da3113b5f0b8c00a60b1ce1d7e819d7a431d7c90ea0e5f;
  BitSize := 384
|}.

Definition p521 : CurveParams := {|
  Name := "P-521";
  P := 6864797660130609714981900799081393217269435300143305409394463459185543183397656052122559640661454554977296311391480858037121987999716643812574028291115057151;
  N := 6864797660130609714981900799081393217269435300143305409394463459185543183397655394245057746333217197532963996371363321113864768612440380340372808892707005449;
  B := 0x051953eb9618e1c9a1f929a21a0b68540eea2da725b99b315f3b8b489918ef109e156193951ec7e937b1652c0bd3bb1bf073573df883d2c34f1ef451fd46b503f00;
  Gx := 0xc6858e06b70404e9cd9e3ecb662395b4429c648139053fb521f828af606b4d3dbaa14b5e77efe75928fe1dc127a2ffa8de3348b3c1856a429bf97e7e31c2e5bd66;
  Gy := 0x11839296a789a3bc0045c8a5fb42c7d1bd998f54449579b446817afbd17273e662c97ee72995ef42640c550b9013fad0761353c7086a272c24088be94769fd16650;
  BitSize := 521
|}.

(** ** The engine over mutable [Nat]s

    [*safenum.Nat] is a pointer to a mutable number.  Here the store is a list
    of cells, a pointer is an index into it, [new(safenum.Nat)] appends a zero
    cell, and every method writes its result into the receiver and returns the
    receiver, as in the source.  Moduli are never written to and stay values. *)

Module Mem.
Definition ptr := nat.
Definition heap := list Z.
Definition M (A : Type) : Type := heap -> A * heap.

Definition ret {A} (a : A) : M A := fun h => (a, h).
Definition bind {A B} (m : M A) (f : A -> M B) : M B :=
  fun h => let (a, h') := m h in f a h'.

Declare Scope mem_scope.
Delimit Scope mem_scope with mem.
Notation "x <- m ;; k" := (bind m (fun x => k))
  (at level 61, m at next level, right associativity) : mem_scope.
Notation "' pat <- m ;; k" := (bind m (fun pat => k))
  (at level 61, pat pattern, m at next level, right associativity) : mem_scope.
Local Open Scope mem_scope.

Definition val (h : heap) (p : ptr) : Z := nth p h 0.
Definition valid (h : heap) (p : ptr) : Prop := (p < length h)%nat.

Definition new : M ptr := fun h => (length h, h ++ [0]).
(** [z] receives a value computed from the current store. *)
Definition assign (z : ptr) (v : heap -> Z) : M ptr :=
  fun h => (z, setIndex z (v h) h).

Definition SetUint64 (z : ptr) (v : Z) : M ptr :=
  assign z (fun _ => safenum.SetUint64 v).
Definition SetNat (z x : ptr) : M ptr :=
  assign z (fun h => safenum.SetNat (val h x)).
Definition ModAdd (z x y : ptr) (m : Z) : M ptr :=
  assign z (fun h => safenum.ModAdd (val h x) (val h y) m).
Definition ModSub (z x y : ptr) (m : Z) : M ptr :=
  assign z (fun h => safenum.ModSub (val h x) (val h y) m).
Definition ModMul (z x y : ptr) (m : Z) : M ptr :=
  assign z (fun h => safenum.ModMul (val h x) (val h y) m).
Definition ModInverse (z x : ptr) (m : Z) : M ptr :=
  assign z (fun h => safenum.ModInverse (val h x) m).
Definition EqZero (x : ptr) : M bool := fun h => (safenum.EqZero (val h x), h).
Definition Cmp (x y : ptr) : M Z := fun h => (safenum.Cmp (val h x) (val h y), h).

Record CurveParams := {
  P : Z;
  N : Z;
  B : ptr;
  Gx : ptr;
  Gy : ptr;
  BitSize : Z;
  Name : string
}.

Section Engine.
Variable curve : CurveParams.

Definition polynomial (x : ptr) : M ptr :=
  x3 <- new ;; x3 <- ModMul x3 x x (P curve) ;;
  x3 <- ModMul x3 x3 x (P curve) ;;
  threeX <- new ;; threeX <- ModAdd threeX x x (P curve) ;;
  threeX <- ModAdd threeX threeX x (P curve) ;;
  x3 <- ModSub x3 x3 threeX (P curve) ;;
  x3 <- ModAdd x3 x3 (B curve) (P curve) ;;
  ret x3.

Definition IsOnCurve (x y : ptr) : M bool :=
  y2 <- new ;; y2 <- ModMul y2 y y (P curve) ;;
  px <- polynomial x ;;
  c <- Cmp px y2 ;;
  ret (c =? 0).

Definition zForAffine (x y : ptr) : M ptr :=
  z <- new ;;
  xz <- EqZero x ;;
  xz' <- EqZero x ;;
  if negb xz || negb xz' then (_ <- SetUint64 z 1 ;; ret z) else ret z.

Definition affineFromJacobian (x y z : ptr) : M (ptr * ptr) :=
  zz <- EqZero z ;;
  if zz then (xOut <- new ;; yOut <- new ;; ret (xOut, yOut))
  else
    zinv <- new ;; zinv <- ModInverse zinv z (P curve) ;;
    zinvsq <- new ;; zinvsq <- ModMul zinvsq zinv zinv (P curve) ;;
    xOut <- new ;; xOut <- ModMul xOut x zinvsq (P curve) ;;
    _ <- ModMul zinvsq zinvsq zinv (P curve) ;;
    yOut <- new ;; yOut <- ModMul yOut y zinvsq (P curve) ;;
    ret (xOut, yOut).

Definition doubleJacobian (x y z : ptr) : M (ptr * ptr * ptr) :=
  delta <- new ;; delta <- ModMul delta z z (P curve) ;;
  gamma <- new ;; gamma <- ModMul gamma y y (P curve) ;;
  alpha <- new ;; alpha <- ModSub alpha x delta (P curve) ;;
  alpha2 <- new ;; alpha2 <- ModAdd alpha2 x delta (P curve) ;;
  _ <- ModMul alpha alpha alpha2 (P curve) ;;
  _ <- SetNat alpha2 alpha ;;
  _ <- ModAdd alpha alpha alpha (P curve) ;;
  _ <- ModAdd alpha alpha alpha2 (P curve) ;;
  beta <- ModMul alpha2 x gamma (P curve) ;;
  x3 <- new ;; x3 <- ModMul x3 alpha alpha (P curve) ;;
  eight <- new ;; eight <- SetUint64 eight 8 ;;
  beta8 <- new ;; beta8 <- ModMul beta8 beta eight (P curve) ;;
  _ <- ModSub x3 x3 beta8 (P curve) ;;
  z3 <- new ;; z3 <- ModAdd z3 y z (P curve) ;;
  _ <- ModMul z3 z3 z3 (P curve) ;;
  _ <- ModSub z3 z3 gamma (P curve) ;;
  _ <- ModSub z3 z3 delta (P curve) ;;
  four <- new ;; four <- SetUint64 four 4 ;;
  _ <- ModMul beta beta four (P curve) ;;
  _ <- ModSub beta beta x3 (P curve) ;;
  y3 <- ModMul alpha alpha beta (P curve) ;;
  _ <- ModMul gamma gamma gamma (P curve) ;;
  _ <- ModMul gamma gamma eight (P curve) ;;
  _ <- ModSub y3 y3 gamma (P curve) ;;
  ret (x3, y3, z3).

Definition addJacobian (x1 y1 z1 x2 y2 z2 : ptr) : M (ptr * ptr * ptr) :=
  x3 <- new ;; y3 <- new ;; z3 <- new ;;
  z1z <- EqZero z1 ;;
  if z1z then
    _ <- SetNat x3 x2 ;; _ <- SetNat y3 y2 ;; _ <- SetNat z3 z2 ;;
    ret (x3, y3, z3)
  else
  z2z <- EqZero z2 ;;
  if z2z then
    _ <- SetNat x3 x1 ;; _ <- SetNat y3 y1 ;; _ <- SetNat z3 z1 ;;
    ret (x3, y3, z3)
  else
  z1z1 <- new ;; z1z1 <- ModMul z1z1 z1 z1 (P curve) ;;
  z2z2 <- new ;; z2z2 <- ModMul z2z2 z2 z2 (P curve) ;;
  u1 <- new ;; u1 <- ModMul u1 x1 z2z2 (P curve) ;;
  u2 <- new ;; u2 <- ModMul u2 x2 z1z1 (P curve) ;;
  h <- new ;; h <- ModSub h u2 u1 (P curve) ;;
  xEqual <- EqZero h ;;
  i <- new ;; i <- ModAdd i h h (P curve) ;;
  _ <- ModMul i i i (P curve) ;;
  j <- new ;; j <- ModMul j h i (P curve) ;;
  s1 <- new ;; s1 <- ModMul s1 y1 z2 (P curve) ;;
  _ <- ModMul s1 s1 z2z2 (P curve) ;;
  s2 <- new ;; s2 <- ModMul s2 y2 z1 (P curve) ;;
  _ <- ModMul s2 s2 z1z1 (P curve) ;;
  r <- new ;; r <- ModSub r s2 s1 (P curve) ;;
  yEqual <- EqZero r ;;
  if xEqual && yEqual then doubleJacobian x1 y1 z1
  else
  _ <- ModAdd r r r (P curve) ;;
  v <- new ;; v <- ModMul v u1 i (P curve) ;;
  _ <- SetNat x3 r ;;
  _ <- ModMul x3 x3 x3 (P curve) ;;
  _ <- ModSub x3 x3 j (P curve) ;;
  _ <- ModSub x3 x3 v (P curve) ;;
  _ <- ModSub x3 x3 v (P curve) ;;
  _ <- SetNat y3 r ;;
  _ <- ModSub v v x3 (P curve) ;;
  _ <- ModMul y3 y3 v (P curve) ;;
  _ <- ModMul s1 s1 j (P curve) ;;
  _ <- ModAdd s1 s1 s1 (P curve) ;;
  _ <- ModSub y3 y3 s1 (P curve) ;;
  _ <- ModAdd z3 z1 z2 (P curve) ;;
  _ <- ModMul z3 z3 z3 (P curve) ;;
  _ <- ModSub z3 z3 z1z1 (P curve) ;;
  _ <- ModSub z3 z3 z2z2 (P curve) ;;
  _ <- ModMul z3 z3 h (P curve) ;;
  ret (x3, y3, z3).

Definition Add (x1 y1 x2 y2 : ptr) : M (ptr * ptr) :=
  z1 <- zForAffine x1 y1 ;;
  z2 <- zForAffine x2 y2 ;;
  '(x3, y3, z3) <- addJacobian x1 y1 z1 x2 y2 z2 ;;
  affineFromJacobian x3 y3 z3.

Definition Double (x1 y1 : ptr) : M (ptr * ptr) :=
  z1 <- zForAffine x1 y1 ;;
  '(x3, y3, z3) <- doubleJacobian x1 y1 z1 ;;
  affineFromJacobian x3 y3 z3.

Definition scalarBit (Bx By Bz : ptr) (st : ptr * ptr * ptr * byte)
  : M (ptr * ptr * ptr * byte) :=
  let '(x, y, z, b) := st in
  '(x, y, z) <- doubleJacobian x y z ;;
  '(x, y, z) <- (if Z.land (Z_of_byte b) 128 =? 128
                 then addJacobian Bx By Bz x y z
                 else ret (x, y, z)) ;;
  ret (x, y, z, byte_of_Z (Z.shiftl (Z_of_byte b) 1)).

Fixpoint scalarBits (bitNum : nat) (Bx By Bz : ptr) (st : ptr * ptr * ptr * byte)
  : M (ptr * ptr * ptr * byte) :=
  match bitNum with
  | O => ret st
  | S n => st' <- scalarBit Bx By Bz st ;; scalarBits n Bx By Bz st'
  end.

Fixpoint scalarBytes (Bx By Bz : ptr) (k : list byte) (acc : ptr * ptr * ptr)
  : M (ptr * ptr * ptr) :=
  match k with
  | [] => ret acc
  | b :: k' =>
      let '(x, y, z) := acc in
      '(x, y, z, _) <- scalarBits 8 Bx By Bz (x, y, z, b) ;;
      scalarBytes Bx By Bz k' (x, y, z)
  end.

Definition ScalarMult (Bx By : ptr) (k : list byte) : M (ptr * ptr) :=
  Bz <- new ;; Bz <- SetUint64 Bz 1 ;;
  x <- new ;; y <- new ;; z <- new ;;
  '(x, y, z) <- scalarBytes Bx By Bz k (x, y, z) ;;
  affineFromJacobian x y z.

Definition ScalarBaseMult (k : list byte) : M (ptr * ptr) :=
  ScalarMult (Gx curve) (Gy curve) k.
End Engine.
End Mem.

(** The values a curve record points to in a given store. *)
Definition snapshot (h : Mem.heap) (curve : Mem.CurveParams) : CurveParams := {|
  P := Mem.P curve;
  N := Mem.N curve;
  B := Mem.val h (Mem.B curve);
  Gx := Mem.val h (Mem.Gx curve);
  Gy := Mem.val h (Mem.Gy curve);
  BitSize := Mem.BitSize curve;
  Name := Mem.Name curve
|}.

(** ** A small curve of the same family

    y² = x³ - 3x + 3 over the field of 523 elements.  The curve has 514
    points; (521, 522) generates the subgroup of prime order 257, and
    (504, 0) is its point of order two. *)

Definition tiny : CurveParams := {|
  Name := "T-10";
  P := 523;
  N := 257;
  B := 3;
  Gx := 521;
  Gy := 522;
  BitSize := 10
|}.

(** [ModSqrt] for a prime [p] with [p mod 4 = 3], the case of P-384, P-521
    and [tiny]: the Jacobi symbol of [x], here by Euler's criterion, tells
    whether a root exists, and the root is then [x^((p+1)/4) mod p]. *)
Definition ModSqrt3Mod4 (x p : Z) : option Z :=
  let x := x mod p in
  if x =? 0 then Some 0
  else if Zpow_mod x ((p - 1) / 2) p =? 1 then Some (Zpow_mod x ((p + 1) / 4) p)
  else None.

(** ** Vocabulary of the statements *)

(** The ceiling of [b / 8], written with the rounding-down division. *)
Definition ceil8 (b : Z) : Z := - ((- b) / 8).

(** x³ - 3x + b as a polynomial over the integers. *)
Definition cubic (curve : CurveParams) (x : Z) : Z := x * x * x - 3 * x + B curve.

(** The curve equation in Jacobian coordinates: Y² = X³ - 3XZ⁴ + bZ⁶. *)
Definition onCurveJ (curve : CurveParams) (X Y Z : Z) : Prop :=
  (Y * Y) mod P curve
  = (X * X * X - 3 * X * (Z * Z * Z * Z) + B curve * (Z * Z * Z * Z * Z * Z)) mod P curve.

(** What [UnmarshalCompressed] computes once the length, the tag byte and the
    range of x have been accepted. *)
Definition decompress (ModSqrt : Z -> Z -> option Z) (curve : CurveParams)
    (tag : byte) (x : Z) : option (Z * Z) :=
  let y0 := polynomial curve x in
  let r := match ModSqrt y0 (P curve) with Some r => r | None => y0 end in
  let r := if Bool.eqb (Z.odd r) (Z.odd (Z_of_byte tag)) then r else (- r) mod P curve in
  let y := Z.abs r in
  if IsOnCurve curve x y then Some (x, y) else None.

(** The [n] bytes a source yields from offset [pos], when it yields them all. *)
Fixpoint draw (rand : Reader) (pos n : nat) : option (list byte) :=
  match n with
  | O => Some []
  | S n' =>
      match rand pos with
      | Some c => option_map (cons c) (draw rand (S pos) n')
      | None => None
      end
  end.

(** The length of a private key for the order [n] of the base point. *)
Definition privLen (n : Z) : nat := Z.to_nat (byteLen (safenum.BitLen n)).

(** What [GenerateKey] makes of drawn bytes: the high byte is masked by the
    entry of [mask] for the bit length of [n] modulo 8, and byte 1 is xored
    with 0x42. *)
Definition tweak (n : Z) (d : list byte) : list byte :=
  match d with
  | d0 :: d1 :: rest =>
      byte_of_Z (Z.land (Z_of_byte d0) (nth (Z.to_nat (safenum.BitLen n mod 8)) mask 0))
      :: byte_of_Z (Z.lxor (Z_of_byte d1) 0x42)
      :: rest
  | _ => d
  end.

(** The masking alone, as the specification has it. *)
Definition maskHigh (n : Z) (d : list byte) : list byte :=
  match d with
  | d0 :: rest =>
      byte_of_Z (Z.land (Z_of_byte d0) (nth (Z.to_nat (safenum.BitLen n mod 8)) mask 0))
      :: rest
  | [] => []
  end.

(** Sources used in the examples: the bytes of a finite list, then failure. *)
Definition bytesReader (bs : list byte) : Reader := fun i => nth_error bs i.

(** A Jacobian triple the engine works on: it satisfies the curve equation
    and its Z is reduced modulo P. *)
Definition goodJ (curve : CurveParams) (pt : Z * Z * Z) : Prop :=
  let '(X, Y, Z) := pt in onCurveJ curve X Y Z /\ 0 <= Z < P curve.

(** The pointers of a curve record are allocated in the store. *)
Definition validCurve (h : Mem.heap) (curve : Mem.CurveParams) : Prop :=
  Mem.valid h (Mem.B curve) /\ Mem.valid h (Mem.Gx curve) /\ Mem.valid h (Mem.Gy curve).

(** [tiny] laid out in a store: B, Gx and Gy are the cells 0, 1 and 2. *)
Definition tinyHeap : Mem.heap := [B tiny; Gx tiny; Gy tiny].
Definition tinyMem : Mem.CurveParams := {|
  Mem.Name := Name tiny;
  Mem.P := P tiny;
  Mem.N := N tiny;
  Mem.B := 0%nat;
  Mem.Gx := 1%nat;
  Mem.Gy := 2%nat;
  Mem.BitSize := BitSize tiny
|}.

(** The subgroup of order two of [tiny], generated by (504, 0): an order
    that takes a single byte. *)
Definition tinyTwo : CurveParams := {|
  Name := "T-10/2";
  P := 523;
  N := 2;
  B := 3;
  Gx := 504;
  Gy := 0;
  BitSize := 10
|}.

(** Trial division: no [d], [d+1], ... ([fuel] of them) divides [p]. *)
Fixpoint no_divisor_from (fuel : nat) (d p : Z) : bool :=
  match fuel with
  | O => true
  | S fuel' => negb (p mod d =? 0) && no_divisor_from fuel' (d + 1) p
  end.

(** * Properties *)

(** ** Bytes *)

Lemma Z_of_byte_range b : 0 <= Z_of_byte b < 256.
Proof.
  unfold Z_of_byte. pose proof (Byte.to_N_bounded b) as Hb.
  split; [apply N2Z.is_nonneg|]. apply N.le_lteq in Hb. lia.
Qed.

Lemma Z_of_byte_of_Z z : Z_of_byte (byte_of_Z z) = z mod 256.
Proof.
  unfold Z_of_byte, byte_of_Z.
  assert (Hr : 0 <= z mod 256 < 256) by (apply Z.mod_pos_bound; lia).
  destruct (Byte.of_N (Z.to_N (z mod 256))) as [b|] eqn:E.
  - apply Byte.to_of_N in E. rewrite E. lia.
  - apply Byte.of_N_None_iff in E. lia.
Qed.

Lemma byte_of_Z_of_byte b : byte_of_Z (Z_of_byte b) = b.
Proof.
  unfold byte_of_Z. pose proof (Z_of_byte_range b) as Hb.
  rewrite Z.mod_small by lia. unfold Z_of_byte.
  rewrite N2Z.id, Byte.of_to_N. reflexivity.
Qed.

Lemma Z_of_byte_inj a b : Z_of_byte a = Z_of_byte b -> a = b.
Proof. intros H. rewrite <- (byte_of_Z_of_byte a), H. apply byte_of_Z_of_byte. Qed.

Lemma be_bytes_length n z : length (be_bytes n z) = n.
Proof.
  revert z. induction n as [|n IH]; intros z; cbn [be_bytes]; [reflexivity|].
  rewrite length_app, IH. cbn. lia.
Qed.

Lemma SetBytes_app a b :
  safenum.SetBytes (a ++ b)
  = safenum.SetBytes a * 256 ^ Z.of_nat (length b) + safenum.SetBytes b.
Proof.
  unfold safenum.SetBytes. rewrite fold_left_app.
  generalize (fold_left (fun acc c => acc * 256 + Z_of_byte c) a 0) as s.
  induction b as [|c b IH]; intros s.
  - cbn. lia.
  - cbn [fold_left length]. rewrite IH, (IH (0 * 256 + Z_of_byte c)).
    rewrite Nat2Z.inj_succ, Z.pow_succ_r by lia. ring.
Qed.

Lemma SetBytes_range bs : 0 <= safenum.SetBytes bs < 256 ^ Z.of_nat (length bs).
Proof.
  induction bs as [|b bs IH] using rev_ind.
  - cbn. lia.
  - rewrite SetBytes_app, length_app. cbn [length].
    replace (Z.of_nat (length bs + 1)) with (Z.succ (Z.of_nat (length bs))) by lia.
    rewrite Z.pow_succ_r by lia.
    change (safenum.SetBytes [b]) with (0 * 256 + Z_of_byte b).
    pose proof (Z_of_byte_range b). change (256 ^ Z.of_nat 1) with 256. nia.
Qed.

Lemma SetBytes_be_bytes n z : safenum.SetBytes (be_bytes n z) = z mod 256 ^ Z.of_nat n.
Proof.
  revert z. induction n as [|n IH]; intros z.
  - cbn. now rewrite Z.mod_1_r.
  - cbn [be_bytes]. rewrite SetBytes_app, IH. cbn [length].
    change (safenum.SetBytes [byte_of_Z z]) with (0 * 256 + Z_of_byte (byte_of_Z z)).
    change (256 ^ Z.of_nat 1) with 256.
    rewrite Z_of_byte_of_Z, Nat2Z.inj_succ, Z.pow_succ_r by lia.
    assert (Hpos : 0 < 256 ^ Z.of_nat n) by (apply Z.pow_pos_nonneg; lia).
    rewrite (Z.rem_mul_r z 256 (256 ^ Z.of_nat n)) by lia.
    lia.
Qed.

Lemma BitLen_bound x : 0 <= x -> x < 2 ^ safenum.BitLen x.
Proof.
  intros Hx. unfold safenum.BitLen. destruct (Z.eqb_spec x 0) as [->|Hn].
  - cbn. lia.
  - replace (Z.log2 x + 1) with (Z.succ (Z.log2 x)) by lia.
    apply Z.log2_spec. lia.
Qed.

Lemma BitLen_nonneg x : 0 <= safenum.BitLen x.
Proof.
  unfold safenum.BitLen. destruct (x =? 0); [lia|]. pose proof (Z.log2_nonneg x). lia.
Qed.

Lemma SetBytes_Bytes x : 0 <= x -> safenum.SetBytes (safenum.Bytes x) = x.
Proof.
  intros Hx. unfold safenum.Bytes. rewrite SetBytes_be_bytes.
  apply Z.mod_small. split; [lia|].
  pose proof (BitLen_bound x Hx) as Hb. pose proof (BitLen_nonneg x) as Hn.
  eapply Z.lt_le_trans; [exact Hb|].
  rewrite Z2Nat.id by (apply Z.div_pos; lia).
  change 256 with (2 ^ 8). rewrite <- Z.pow_mul_r by (try apply Z.div_pos; lia).
  apply Z.pow_le_mono_r; [lia|].
  pose proof (Z.div_mod (safenum.BitLen x + 7) 8 ltac:(lia)).
  pose proof (Z.mod_pos_bound (safenum.BitLen x + 7) 8 ltac:(lia)). lia.
Qed.

(** ** The backend's comparisons *)

Lemma Cmp_eq_0 x y : (safenum.Cmp x y =? 0) = (x =? y).
Proof.
  unfold safenum.Cmp. destruct (Z.compare_spec x y) as [->|H|H].
  - cbn. symmetry. apply Z.eqb_refl.
  - symmetry. cbn. apply Z.eqb_neq. lia.
  - symmetry. cbn. apply Z.eqb_neq. lia.
Qed.

Lemma CmpMod_geb x m : (safenum.CmpMod x m >=? 0) = (m <=? x).
Proof.
  unfold safenum.CmpMod, safenum.Cmp. destruct (Z.compare_spec x m) as [->|H|H]; cbn.
  - symmetry. apply Z.leb_le. lia.
  - symmetry. apply Z.leb_gt. lia.
  - symmetry. apply Z.leb_le. lia.
Qed.

(** ** Machine integers and the byte length of a field element *)

Lemma wrap64_small z : - 2 ^ 63 <= z < 2 ^ 63 -> wrap64 z = z.
Proof. intros H. unfold wrap64. rewrite Z.mod_small; lia. Qed.

Lemma byteLen_ceil bitSize :
  0 <= bitSize <= 2 ^ 63 - 8 -> byteLen bitSize = ceil8 bitSize.
Proof.
  intros H. unfold byteLen, ceil8. rewrite wrap64_small by lia.
  rewrite Z.quot_div_nonneg by lia.
  pose proof (Z.div_mod (bitSize + 7) 8 ltac:(lia)).
  pose proof (Z.mod_pos_bound (bitSize + 7) 8 ltac:(lia)).
  pose proof (Z.div_mod (- bitSize) 8 ltac:(lia)).
  pose proof (Z.mod_pos_bound (- bitSize) 8 ltac:(lia)).
  lia.
Qed.

Lemma byteLen_bits bitSize :
  0 <= bitSize <= 2 ^ 63 - 8 ->
  0 <= byteLen bitSize /\ 2 ^ bitSize <= 256 ^ byteLen bitSize.
Proof.
  intros H. unfold byteLen. rewrite wrap64_small by lia.
  rewrite Z.quot_div_nonneg by lia.
  pose proof (Z.div_mod (bitSize + 7) 8 ltac:(lia)).
  pose proof (Z.mod_pos_bound (bitSize + 7) 8 ltac:(lia)).
  split; [lia|].
  change 256 with (2 ^ 8). rewrite <- Z.pow_mul_r by lia.
  apply Z.pow_le_mono_r; lia.
Qed.

(** ** The curve equation *)

Section Congruences.
Variable p : Z.

Lemma cong_add a a' b b' :
  a mod p = a' mod p -> b mod p = b' mod p -> (a + b) mod p = (a' + b') mod p.
Proof. intros Ha Hb. now rewrite (Zplus_mod a), (Zplus_mod a'), Ha, Hb. Qed.

Lemma cong_sub a a' b b' :
  a mod p = a' mod p -> b mod p = b' mod p -> (a - b) mod p = (a' - b') mod p.
Proof. intros Ha Hb. now rewrite (Zminus_mod a), (Zminus_mod a'), Ha, Hb. Qed.

Lemma cong_mul a a' b b' :
  a mod p = a' mod p -> b mod p = b' mod p -> (a * b) mod p = (a' * b') mod p.
Proof. intros Ha Hb. now rewrite (Zmult_mod a), (Zmult_mod a'), Ha, Hb. Qed.

Lemma cong_mod a a' : a mod p = a' mod p -> (a mod p) mod p = a' mod p.
Proof. intros Ha. now rewrite Zmod_mod. Qed.
End Congruences.

(** [strip p e] is [e] without its inner reductions modulo [p];
    [pull_mod p] replaces every [e mod p] of the goal by [strip p e mod p]. *)
Ltac strip p e :=
  lazymatch e with
  | ?a mod p => strip p a
  | ?a + ?b => let a' := strip p a in let b' := strip p b in constr:(a' + b')
  | ?a - ?b => let a' := strip p a in let b' := strip p b in constr:(a' - b')
  | ?a * ?b => let a' := strip p a in let b' := strip p b in constr:(a' * b')
  | _ => e
  end.

Ltac cong_tac p :=
  lazymatch goal with
  | |- (?a mod p) mod p = _ => apply cong_mod; cong_tac p
  | |- (?a + ?b) mod p = _ => apply cong_add; cong_tac p
  | |- (?a - ?b) mod p = _ => apply cong_sub; cong_tac p
  | |- (?a * ?b) mod p = _ => apply cong_mul; cong_tac p
  | |- _ => reflexivity
  end.

Ltac pull_mod p :=
  repeat match goal with
  | |- context [ ?e mod p ] =>
      let e' := strip p e in
      lazymatch e' with e => fail | _ => idtac end;
      replace (e mod p) with (e' mod p) by (symmetry; cong_tac p)
  end.

Ltac unfold_backend :=
  cbv beta delta [safenum.ModMul safenum.ModAdd safenum.ModSub safenum.SetNat].

Lemma polynomial_cubic curve x : polynomial curve x = cubic curve x mod P curve.
Proof.
  unfold polynomial, cubic. unfold_backend. cbv zeta.
  pull_mod (P curve). f_equal. ring.
Qed.

Lemma IsOnCurve_iff curve x y :
  IsOnCurve curve x y = true <-> (y * y) mod P curve = cubic curve x mod P curve.
Proof.
  unfold IsOnCurve. cbv zeta. rewrite Cmp_eq_0, polynomial_cubic.
  unfold safenum.ModMul. rewrite Z.eqb_eq. split; intros H; congruence.
Qed.

Lemma IsOnCurve_mod curve x y :
  IsOnCurve curve (x mod P curve) (y mod P curve) = IsOnCurve curve x y.
Proof.
  apply eq_true_iff_eq. rewrite !IsOnCurve_iff. unfold cubic.
  pull_mod (P curve). reflexivity.
Qed.

(** ** Uncompressed decoding *)

Lemma Unmarshal_on_curve (curve : CurveParams) data x y :
  Unmarshal curve data = Some (x, y) -> IsOnCurve curve x y = true.
Proof.
  unfold Unmarshal. cbn [Curve.Params Curve.IsOnCurve CurveParams_Curve].
  repeat match goal with
         | |- context [if ?c then _ else _] => destruct c eqn:?; try discriminate
         end.
  intros [= <- <-].
  match goal with H : negb (IsOnCurve _ _ _) = false |- _ =>
    now apply negb_false_iff in H end.
Qed.

(** C5: [Unmarshal] returns the absent point unless the length is
    1 + 2·byteLen with byteLen = ceil(BitSize/8), byte 0 is 0x04, both decoded
    coordinates are below P and [IsOnCurve] holds; when all of this holds it
    returns the decoded pair. *)
Theorem Unmarshal_accepts_exactly (curve : CurveParams) (data : list byte) :
  0 <= BitSize curve <= 2 ^ 63 - 8 ->
  let byteLen := ceil8 (BitSize curve) in
  let x := safenum.SetBytes (slice 1 (1 + byteLen) data) in
  let y := safenum.SetBytes (sliceFrom (1 + byteLen) data) in
  Unmarshal curve data
  = if (len data =? 1 + 2 * byteLen) && (Z_of_byte (nth 0 data x00) =? 4)
       && (x <? P curve) && (y <? P curve) && IsOnCurve curve x y
    then Some (x, y)
    else None.
Proof.
  intros Hbits. cbv zeta. unfold Unmarshal.
  cbn [Curve.Params Curve.IsOnCurve CurveParams_Curve].
  rewrite (byteLen_ceil _ Hbits), !CmpMod_geb.
  destruct (len data =? 1 + 2 * ceil8 (BitSize curve)); cbn [negb andb]; [|reflexivity].
  destruct (Z_of_byte (nth 0 data x00) =? 4); cbn [negb andb]; [|reflexivity].
  rewrite !(Z.ltb_antisym (P curve)).
  destruct (P curve <=? _); cbn [negb andb orb]; [reflexivity|].
  destruct (P curve <=? _); cbn [negb andb orb]; [reflexivity|].
  destruct (IsOnCurve curve _ _); reflexivity.
Qed.

(** The check at a concrete input: the encoding of the base point of P-384. *)
Lemma Unmarshal_accepts_exactly_witness :
  0 <= BitSize p384 <= 2 ^ 63 - 8 /\
  Unmarshal p384 (x04 :: be_bytes 48 (Gx p384) ++ be_bytes 48 (Gy p384))
  = Some (Gx p384, Gy p384).
Proof.
  split; [cbn; lia|].
  rewrite (Unmarshal_accepts_exactly p384 _ ltac:(cbn; lia)).
  vm_compute. reflexivity.
Defined.

(** ** Compressed decoding *)

Lemma land_1_odd a : Z.land a 1 = Z.b2z (Z.odd a).
Proof.
  change 1 with (Z.ones 1). rewrite Z.land_ones by lia.
  change (2 ^ 1) with 2. rewrite Zmod_odd. now destruct (Z.odd a).
Qed.

Lemma Bit_0_odd a : big.Bit a 0 = Z.b2z (Z.odd a).
Proof. unfold big.Bit. now rewrite Z.bit0_odd. Qed.

Lemma b2z_eqb a b : (Z.b2z a =? Z.b2z b) = Bool.eqb a b.
Proof. now destruct a, b. Qed.

Lemma polynomial_range curve x : 0 < P curve -> 0 <= polynomial curve x < P curve.
Proof. intros Hp. rewrite polynomial_cubic. now apply Z.mod_pos_bound. Qed.

Lemma UnmarshalCompressed_accepted ModSqrt (curve : CurveParams) data :
  0 < P curve -> Z.odd (P curve) = true ->
  len data = 1 + byteLen (BitSize curve) ->
  Z_of_byte (nth 0 data x00) = 2 \/ Z_of_byte (nth 0 data x00) = 3 ->
  safenum.SetBytes (sliceFrom 1 data) < P curve ->
  UnmarshalCompressed ModSqrt curve data
  = Return (decompress ModSqrt curve (nth 0 data x00) (safenum.SetBytes (sliceFrom 1 data))).
Proof.
  intros Hp Hodd Hlen Htag Hx. unfold UnmarshalCompressed, decompress.
  cbn [Curve.Params Curve.IsOnCurve CurveParams_Curve].
  rewrite (proj2 (Z.eqb_eq _ _) Hlen). cbn [negb].
  destruct data as [|data0 rest].
  - cbn in Htag. lia.
  - cbn [nth] in *.
    replace (negb (Z_of_byte data0 =? 2) && negb (Z_of_byte data0 =? 3)) with false
      by (destruct Htag as [-> | ->]; reflexivity).
    rewrite CmpMod_geb, (proj2 (Z.leb_gt _ _) Hx).
    pose proof (polynomial_range curve (safenum.SetBytes (sliceFrom 1 (data0 :: rest))) Hp) as Hy.
    unfold big.SetBytes. rewrite !SetBytes_Bytes by lia.
    rewrite <- Z.negb_odd, Hodd. cbn [negb].
    rewrite Bit_0_odd, land_1_odd, b2z_eqb.
    unfold big.Bytes, big.Mod, big.Neg. rewrite (Z.abs_eq (P curve)) by lia.
    set (r := match ModSqrt _ _ with Some r => r | None => _ end).
    destruct (Bool.eqb (Z.odd r) (Z.odd (Z_of_byte data0))); cbn [negb];
      rewrite SetBytes_Bytes by apply Z.abs_nonneg;
      now destruct (IsOnCurve curve _ _).
Qed.

Lemma UnmarshalCompressed_on_curve ModSqrt (curve : CurveParams) data x y :
  UnmarshalCompressed ModSqrt curve data = Return (Some (x, y)) ->
  IsOnCurve curve x y = true.
Proof.
  unfold UnmarshalCompressed. cbn [Curve.Params Curve.IsOnCurve CurveParams_Curve].
  destruct (negb (len data =? _)); [discriminate|].
  destruct data as [|data0 rest]; [discriminate|].
  destruct (_ && _); [discriminate|].
  destruct (_ >=? 0); [discriminate|].
  destruct (Z.even _); [discriminate|].
  match goal with |- context [negb (IsOnCurve ?c ?a ?b)] =>
    destruct (IsOnCurve c a b) eqn:E end; cbn [negb]; [|discriminate].
  intros [= <- <-]. exact E.
Qed.

Lemma decompress_parity ModSqrt curve tag x x' y' :
  0 < P curve -> Z.odd (P curve) = true ->
  (forall a r, ModSqrt a (P curve) = Some r -> 0 <= r < P curve) ->
  decompress ModSqrt curve tag x = Some (x', y') ->
  x' = x /\ IsOnCurve curve x' y' = true /\
  (y' = 0 \/ Z.odd y' = Z.odd (Z_of_byte tag)).
Proof.
  intros Hp Hodd Hrange. unfold decompress. cbv zeta.
  pose proof (polynomial_range curve x Hp) as Hy0.
  set (r := match ModSqrt _ _ with Some r => r | None => _ end).
  assert (Hr : 0 <= r < P curve).
  { subst r. destruct (ModSqrt _ _) eqn:E; [eapply Hrange; eassumption | exact Hy0]. }
  destruct (Bool.eqb (Z.odd r) (Z.odd (Z_of_byte tag))) eqn:Epar.
  - destruct (IsOnCurve curve x (Z.abs r)) eqn:E; [|discriminate].
    intros [= <- <-]. rewrite Z.abs_eq in * by lia.
    repeat split; trivial. right. now apply Bool.eqb_prop.
  - assert (Hneg : 0 <= (- r) mod P curve < P curve) by (apply Z.mod_pos_bound; lia).
    destruct (IsOnCurve curve x (Z.abs ((- r) mod P curve))) eqn:E; [|discriminate].
    intros [= <- <-]. rewrite Z.abs_eq in * by lia.
    repeat split; trivial.
    destruct (Z.eq_dec r 0) as [-> | Hnz].
    + left. now rewrite Z.mod_0_l by lia.
    + right. replace ((- r) mod P curve) with (P curve - r).
      * rewrite Z.odd_sub, Hodd. apply Bool.eqb_false_iff in Epar.
        destruct (Z.odd r), (Z.odd (Z_of_byte tag)); cbn; congruence.
      * apply Z.mod_unique with (q := -1); lia.
Qed.

(** On a curve without a point of order two the low bit always agrees. *)
Lemma UnmarshalCompressed_parity_without_order_two ModSqrt (curve : CurveParams) data x y :
  0 < P curve -> Z.odd (P curve) = true ->
  (forall a r, ModSqrt a (P curve) = Some r -> 0 <= r < P curve) ->
  (forall v, cubic curve v mod P curve <> 0) ->
  len data = 1 + byteLen (BitSize curve) ->
  Z_of_byte (nth 0 data x00) = 2 \/ Z_of_byte (nth 0 data x00) = 3 ->
  safenum.SetBytes (sliceFrom 1 data) < P curve ->
  UnmarshalCompressed ModSqrt curve data = Return (Some (x, y)) ->
  Z.odd y = Z.odd (Z_of_byte (nth 0 data x00)).
Proof.
  intros Hp Hodd Hrange Hno Hlen Htag Hx Hrun.
  rewrite (UnmarshalCompressed_accepted ModSqrt curve data Hp Hodd Hlen Htag Hx) in Hrun.
  injection Hrun as Hrun.
  destruct (decompress_parity _ _ _ _ _ _ Hp Hodd Hrange Hrun) as (-> & Hon & [-> | Hpar]);
    [|exact Hpar].
  exfalso. apply IsOnCurve_iff in Hon. apply (Hno (safenum.SetBytes (sliceFrom 1 data))).
  rewrite <- Hon. apply Zmod_0_l.
Qed.

(** C3, as amended: among the inputs that pass the length, tag and range
    checks, decoding fails when x³ - 3x + B has no square root modulo P; a
    decoded y satisfies [IsOnCurve] and its low bit is the low bit of the tag
    byte, unless y is zero. *)
Theorem UnmarshalCompressed_root_and_parity ModSqrt (curve : CurveParams) data :
  0 < P curve -> Z.odd (P curve) = true ->
  (forall a r, ModSqrt a (P curve) = Some r -> 0 <= r < P curve) ->
  len data = 1 + byteLen (BitSize curve) ->
  Z_of_byte (nth 0 data x00) = 2 \/ Z_of_byte (nth 0 data x00) = 3 ->
  safenum.SetBytes (sliceFrom 1 data) < P curve ->
  ((~ exists r, (r * r) mod P curve = polynomial curve (safenum.SetBytes (sliceFrom 1 data))) ->
   UnmarshalCompressed ModSqrt curve data = Return None) /\
  (forall x y, UnmarshalCompressed ModSqrt curve data = Return (Some (x, y)) ->
     x = safenum.SetBytes (sliceFrom 1 data) /\
     IsOnCurve curve x y = true /\
     (y = 0 \/ Z.odd y = Z.odd (Z_of_byte (nth 0 data x00)))).
Proof.
  intros Hp Hodd Hrange Hlen Htag Hx.
  rewrite (UnmarshalCompressed_accepted ModSqrt curve data Hp Hodd Hlen Htag Hx).
  split.
  - intros Hno.
    destruct (decompress ModSqrt curve _ _) as [[x y]|] eqn:E; [|reflexivity].
    exfalso. apply Hno.
    destruct (decompress_parity _ _ _ _ _ _ Hp Hodd Hrange E) as (-> & Hon & _).
    apply IsOnCurve_iff in Hon. exists y. now rewrite Hon, polynomial_cubic.
  - intros x y [= E]. eapply decompress_parity; eassumption.
Qed.

(** ** The square root for primes that are 3 modulo 4 *)

Lemma ModSqrt3Mod4_range x p r :
  0 < p -> ModSqrt3Mod4 x p = Some r -> 0 <= r < p.
Proof.
  intros Hp. unfold ModSqrt3Mod4. cbv zeta.
  destruct (x mod p =? 0); [intros [= <-]; lia|].
  destruct (_ =? 1); [|discriminate].
  intros [= <-]. rewrite Zpow_mod_correct by lia. apply Z.mod_pos_bound. lia.
Qed.

Lemma ModSqrt3Mod4_complete p a :
  Z.prime p -> p mod 4 = 3 -> 0 <= a < p ->
  (exists r, (r * r) mod p = a) ->
  exists s, ModSqrt3Mod4 a p = Some s /\ 0 <= s < p /\ (s * s) mod p = a.
Proof.
  intros Hprime H34 Ha [r Hr].
  pose proof (Z.prime_ge_2 p Hprime) as Hp2.
  unfold ModSqrt3Mod4. cbv zeta. rewrite (Z.mod_small a p) by lia.
  destruct (Z.eqb_spec a 0) as [-> | Hnz].
  - exists 0. repeat split; lia.
  - pose proof (Z.div_mod p 4 ltac:(lia)) as Hdm. rewrite H34 in Hdm.
    set (k := p / 4) in *.
    assert (Hk : 0 <= k) by (apply Z.div_pos; lia).
    replace ((p - 1) / 2) with (2 * k + 1)
      by (apply Z.div_unique with (r := 0); lia).
    replace ((p + 1) / 4) with (k + 1)
      by (apply Z.div_unique with (r := 0); lia).
    rewrite !Zpow_mod_correct by lia.
    assert (Hrnz : r mod p <> 0).
    { intros H0. apply Hnz. rewrite <- Hr, Z.mul_mod, H0 by lia. reflexivity. }
    assert (Heuler : a ^ (2 * k + 1) mod p = 1).
    { rewrite <- Hr, Z.mod_pow_l, <- Z.pow_2_r, <- Z.pow_mul_r by lia.
      replace (2 * (2 * k + 1)) with (p - 1) by lia.
      now apply Z.fermat_nz. }
    rewrite Heuler. rewrite Z.eqb_refl.
    eexists. split; [reflexivity|]. split; [apply Z.mod_pos_bound; lia|].
    rewrite <- Z.mul_mod, <- Z.pow_add_r by lia.
    replace (k + 1 + (k + 1)) with (2 * k + 1 + 1) by lia.
    rewrite Z.pow_add_r, Z.pow_1_r, Z.mul_mod, Heuler by lia.
    rewrite Z.mul_1_l, Z.mod_mod by lia. apply Z.mod_small. lia.
Qed.

(** ** Primality of small moduli, by trial division *)

Lemma no_divisor_from_sound fuel d p n :
  0 < d -> no_divisor_from fuel d p = true ->
  d <= n < d + Z.of_nat fuel -> ~ (n | p).
Proof.
  revert d. induction fuel as [|fuel IH]; intros d Hd Hnd Hn; [lia|].
  cbn [no_divisor_from] in Hnd. apply andb_true_iff in Hnd as [H1 H2].
  destruct (Z.eq_dec n d) as [-> | Hne].
  - intros Hdiv. apply Z.mod_divide in Hdiv; [|lia].
    apply negb_true_iff, Z.eqb_neq in H1. contradiction.
  - apply (IH (d + 1)); [lia | exact H2 | lia].
Qed.

Lemma prime_by_trial p :
  1 < p -> no_divisor_from (Z.to_nat (p - 2)) 2 p = true -> Z.prime p.
Proof.
  intros Hp Hnd. split; [exact Hp|]. intros n Hn.
  eapply no_divisor_from_sound; [| exact Hnd |]; lia.
Qed.

Lemma tiny_prime : Z.prime (P tiny).
Proof. apply prime_by_trial; [cbn; lia | vm_compute; reflexivity]. Qed.

(** The check of [UnmarshalCompressed_root_and_parity] at a concrete input:
    the compressed form of the base point of [tiny]. *)
Lemma UnmarshalCompressed_root_and_parity_witness :
  UnmarshalCompressed ModSqrt3Mod4 tiny [x02; x02; x09] = Return (Some (521, 522)) /\
  ((~ exists r, (r * r) mod P tiny = polynomial tiny (safenum.SetBytes (sliceFrom 1 [x02; x02; x09]))) ->
   UnmarshalCompressed ModSqrt3Mod4 tiny [x02; x02; x09] = Return None) /\
  (forall x y, UnmarshalCompressed ModSqrt3Mod4 tiny [x02; x02; x09] = Return (Some (x, y)) ->
     x = safenum.SetBytes (sliceFrom 1 [x02; x02; x09]) /\
     IsOnCurve tiny x y = true /\
     (y = 0 \/ Z.odd y = Z.odd (Z_of_byte (nth 0 [x02; x02; x09] x00)))).
Proof.
  split; [vm_compute; reflexivity|].
  apply (UnmarshalCompressed_root_and_parity ModSqrt3Mod4 tiny [x02; x02; x09]).
  - cbn; lia.
  - reflexivity.
  - intros a r. apply ModSqrt3Mod4_range. cbn; lia.
  - reflexivity.
  - left. reflexivity.
  - vm_compute. reflexivity.
Defined.

(** C3 as stated fails on a curve with a point of order two: (504, 0) lies on
    [tiny], and its encoding with the tag 0x03 is decoded to y = 0, whose low
    bit is not the low bit of the tag. *)
Lemma UnmarshalCompressed_tag_mismatch :
  UnmarshalCompressed ModSqrt3Mod4 tiny [x03; x01; xf8] = Return (Some (504, 0)) /\
  Z.odd 0 = false /\ Z.odd (Z_of_byte x03) = true.
Proof. vm_compute. repeat split. Qed.

(** ** Round trip of the two wire forms *)

Lemma square_roots_prime p s y :
  Z.prime p -> 0 <= s < p -> 0 <= y < p ->
  (s * s) mod p = (y * y) mod p -> s = y \/ s = p - y.
Proof.
  intros Hp Hs Hy H. apply Z.cong_iff_0 in H.
  pose proof (Z.prime_ge_2 p Hp) as Hp2.
  apply Z.mod_divide in H; [|lia].
  replace (s * s - y * y) with ((s - y) * (s + y)) in H by ring.
  apply Z.divide_prime_mul in H; [|exact Hp].
  destruct H as [[k Hk] | [k Hk]].
  - left. assert (k = 0) by nia. lia.
  - assert (k = 0 \/ k = 1) as [-> | ->] by nia; [left | right]; lia.
Qed.

Lemma FillBytes_fits x n :
  0 <= x < 256 ^ Z.of_nat n -> big.FillBytes x n = Return (be_bytes n x).
Proof.
  intros Hx. unfold big.FillBytes. rewrite Z.abs_eq by lia.
  now rewrite (proj2 (Z.ltb_lt _ _)) by lia.
Qed.

Lemma firstn_be_bytes n x rest : firstn n (be_bytes n x ++ rest) = be_bytes n x.
Proof.
  rewrite firstn_app, be_bytes_length, Nat.sub_diag, firstn_O, app_nil_r.
  rewrite <- (be_bytes_length n x) at 1. apply firstn_all.
Qed.

Lemma skipn_be_bytes n x rest : skipn n (be_bytes n x ++ rest) = rest.
Proof.
  rewrite skipn_app, be_bytes_length, Nat.sub_diag, skipn_O.
  rewrite <- (be_bytes_length n x) at 1. now rewrite skipn_all.
Qed.

Section RoundTrip.
Variable curve : CurveParams.
Hypothesis Hbits : 0 <= BitSize curve <= 2 ^ 63 - 8.
Hypothesis Hfield : 0 < P curve <= 2 ^ BitSize curve.
Variables x y : Z.
Hypothesis Hx : 0 <= x < P curve.
Hypothesis Hy : 0 <= y < P curve.
Hypothesis Hon : IsOnCurve curve x y = true.

Let n := Z.to_nat (byteLen (BitSize curve)).

Lemma coordinate_fits v : 0 <= v < P curve -> 0 <= v < 256 ^ Z.of_nat n.
Proof.
  intros Hv. destruct (byteLen_bits _ Hbits) as [Hn Hpow].
  subst n. rewrite Z2Nat.id by lia. lia.
Qed.

Lemma Marshal_Unmarshal :
  exists data, Marshal curve x y = Return data /\ Unmarshal curve data = Some (x, y).
Proof.
  destruct (byteLen_bits _ Hbits) as [Hn Hpow].
  exists (byte_of_Z 4 :: be_bytes n x ++ be_bytes n y). split.
  - unfold Marshal. cbn [Curve.Params CurveParams_Curve].
    rewrite (proj2 (Z.ltb_ge _ _)) by lia. fold n.
    now rewrite !FillBytes_fits by (apply coordinate_fits; assumption).
  - unfold Unmarshal. cbn [Curve.Params Curve.IsOnCurve CurveParams_Curve].
    unfold len. cbn [length]. rewrite length_app, !be_bytes_length.
    replace (Z.of_nat (S (n + n)) =? 1 + 2 * byteLen (BitSize curve)) with true
      by (symmetry; apply Z.eqb_eq; subst n; lia).
    cbn [negb nth]. rewrite Z_of_byte_of_Z. change (4 mod 256 =? 4) with true.
    cbn [negb]. unfold slice, sliceFrom.
    replace (Z.to_nat (1 + byteLen (BitSize curve) - 1)) with n by (subst n; lia).
    replace (Z.to_nat (1 + byteLen (BitSize curve))) with (S n) by (subst n; lia).
    change (Z.to_nat 1) with 1%nat. cbn [skipn].
    rewrite firstn_be_bytes, skipn_be_bytes, !SetBytes_be_bytes.
    rewrite !Z.mod_small by (apply coordinate_fits; assumption).
    rewrite !CmpMod_geb, !(proj2 (Z.leb_gt _ _)) by lia.
    cbn [orb]. now rewrite Hon.
Qed.

Variable ModSqrt : Z -> Z -> option Z.
Hypothesis Hprime : Z.prime (P curve).
Hypothesis Hodd : Z.odd (P curve) = true.
Hypothesis Hsqrt : forall a, 0 <= a < P curve ->
  (exists r, (r * r) mod P curve = a) ->
  exists r, ModSqrt a (P curve) = Some r /\ 0 <= r < P curve /\ (r * r) mod P curve = a.

Lemma decompress_compressed tag :
  Z.odd (Z_of_byte tag) = Z.odd y -> decompress ModSqrt curve tag x = Some (x, y).
Proof.
  intros Htag. unfold decompress. cbv zeta.
  assert (Hpoly : polynomial curve x = (y * y) mod P curve).
  { apply IsOnCurve_iff in Hon. now rewrite polynomial_cubic. }
  destruct (Hsqrt (polynomial curve x)) as (s & Es & Hs & Hss).
  { apply polynomial_range. lia. }
  { exists y. now rewrite Hpoly. }
  rewrite Es, Htag. rewrite Hpoly in Hss.
  destruct (square_roots_prime _ _ _ Hprime Hs Hy Hss) as [-> | ->].
  - rewrite Bool.eqb_reflx, Z.abs_eq by lia. now rewrite Hon.
  - destruct (Z.eq_dec y 0) as [-> | Hnz]; [lia|].
    rewrite Z.odd_sub, Hodd.
    replace (Bool.eqb (xorb true (Z.odd y)) (Z.odd y)) with false
      by (now destruct (Z.odd y)).
    replace ((- (P curve - y)) mod P curve) with y
      by (apply Z.mod_unique with (q := -1); lia).
    rewrite Z.abs_eq by lia. now rewrite Hon.
Qed.

Lemma MarshalCompressed_UnmarshalCompressed :
  exists data, MarshalCompressed curve x y = Return data /\
               UnmarshalCompressed ModSqrt curve data = Return (Some (x, y)).
Proof.
  destruct (byteLen_bits _ Hbits) as [Hn Hpow].
  set (tag := byte_of_Z (Z.lor (big.Bit y 0) 2)).
  assert (Htag : Z_of_byte tag = 2 + Z.b2z (Z.odd y)).
  { subst tag. rewrite Z_of_byte_of_Z, Bit_0_odd. now destruct (Z.odd y). }
  exists (tag :: be_bytes n x). split.
  - unfold MarshalCompressed. cbn [Curve.Params CurveParams_Curve].
    rewrite (proj2 (Z.leb_gt _ _)) by lia. fold n.
    now rewrite FillBytes_fits by (apply coordinate_fits; assumption).
  - assert (Hdec : safenum.SetBytes (sliceFrom 1 (tag :: be_bytes n x)) = x).
    { unfold sliceFrom. change (Z.to_nat 1) with 1%nat. cbn [skipn].
      rewrite SetBytes_be_bytes. apply Z.mod_small, coordinate_fits, Hx. }
    rewrite UnmarshalCompressed_accepted.
    + cbn [nth]. rewrite Hdec. f_equal. apply decompress_compressed.
      rewrite Htag. now destruct (Z.odd y).
    + lia.
    + exact Hodd.
    + unfold len. cbn [length]. rewrite be_bytes_length. subst n. lia.
    + cbn [nth]. rewrite Htag. destruct (Z.odd y); cbn; lia.
    + rewrite Hdec. lia.
Qed.
End RoundTrip.

(** C4: a finite point on the curve with reduced coordinates is returned
    unchanged by decoding its encoding, in the uncompressed and in the
    compressed form. *)
Theorem codec_round_trip ModSqrt (curve : CurveParams) x y :
  Z.prime (P curve) -> Z.odd (P curve) = true ->
  0 <= BitSize curve <= 2 ^ 63 - 8 -> P curve <= 2 ^ BitSize curve ->
  (forall a, 0 <= a < P curve -> (exists r, (r * r) mod P curve = a) ->
     exists r, ModSqrt a (P curve) = Some r /\ 0 <= r < P curve /\ (r * r) mod P curve = a) ->
  0 <= x < P curve -> 0 <= y < P curve -> IsOnCurve curve x y = true ->
  (exists data, Marshal curve x y = Return data /\ Unmarshal curve data = Some (x, y)) /\
  (exists data, MarshalCompressed curve x y = Return data /\
                UnmarshalCompressed ModSqrt curve data = Return (Some (x, y))).
Proof.
  intros Hprime Hodd Hbits Hfield Hsqrt Hx Hy Hon.
  pose proof (Z.prime_ge_2 _ Hprime).
  split.
  - apply Marshal_Unmarshal; trivial; lia.
  - apply MarshalCompressed_UnmarshalCompressed; trivial; lia.
Qed.

(** The round trip at a concrete input: the base point of [tiny]. *)
Lemma codec_round_trip_witness :
  (exists data, Marshal tiny 521 522 = Return data /\ Unmarshal tiny data = Some (521, 522)) /\
  (exists data, MarshalCompressed tiny 521 522 = Return data /\
                UnmarshalCompressed ModSqrt3Mod4 tiny data = Return (Some (521, 522))).
Proof.
  apply (codec_round_trip ModSqrt3Mod4 tiny 521 522).
  - exact tiny_prime.
  - reflexivity.
  - cbn; lia.
  - cbn; lia.
  - intros a Ha Hr. apply ModSqrt3Mod4_complete; trivial.
    exact tiny_prime.
  - cbn; lia.
  - cbn; lia.
  - vm_compute. reflexivity.
Defined.

(** ** Decoding never yields the infinity sentinel *)

Lemma IsOnCurve_origin curve : IsOnCurve curve 0 0 = true <-> B curve mod P curve = 0.
Proof.
  rewrite IsOnCurve_iff. unfold cubic. cbn [Z.mul Z.sub Z.add Z.opp].
  rewrite Zmod_0_l. split; congruence.
Qed.

(** C9: on P-384 and P-521 neither [Unmarshal] nor [UnmarshalCompressed]
    returns (0, 0): a decoded point satisfies [IsOnCurve], and
    [IsOnCurve 0 0] amounts to B ≡ 0 (mod P), which these curves refute. *)
Theorem decoding_never_infinity :
  (forall curve, IsOnCurve curve 0 0 = true <-> B curve mod P curve = 0) /\
  (B p384 mod P p384 =? 0) = false /\ (B p521 mod P p521 =? 0) = false /\
  IsOnCurve p384 0 0 = false /\ IsOnCurve p521 0 0 = false /\
  (forall data, Unmarshal p384 data <> Some (0, 0)) /\
  (forall data, Unmarshal p521 data <> Some (0, 0)) /\
  (forall ModSqrt data, UnmarshalCompressed ModSqrt p384 data <> Return (Some (0, 0))) /\
  (forall ModSqrt data, UnmarshalCompressed ModSqrt p521 data <> Return (Some (0, 0))).
Proof.
  assert (H384 : IsOnCurve p384 0 0 = false) by (vm_compute; reflexivity).
  assert (H521 : IsOnCurve p521 0 0 = false) by (vm_compute; reflexivity).
  split; [exact IsOnCurve_origin|].
  split; [vm_compute; reflexivity|]. split; [vm_compute; reflexivity|].
  split; [exact H384|]. split; [exact H521|].
  repeat split.
  - intros data E. apply Unmarshal_on_curve in E. congruence.
  - intros data E. apply Unmarshal_on_curve in E. congruence.
  - intros ModSqrt data E. apply UnmarshalCompressed_on_curve in E. congruence.
  - intros ModSqrt data E. apply UnmarshalCompressed_on_curve in E. congruence.
Qed.

(** ** Lifting an affine point *)

Lemma zForAffine_tests_x_only x y :
  zForAffine x y = if x =? 0 then 0 else 1.
Proof. unfold zForAffine, safenum.EqZero. now destruct (x =? 0). Qed.

(** C2 fails in the code: the test reads x twice, so a point with x = 0 and
    y nonzero is lifted with Z = 0, where the claim (and the comment above the
    function) say Z = 1. *)
Theorem zForAffine_zero_x_nonzero_y :
  zForAffine 0 1 = 0 /\ zForAffine 1 0 = 1 /\ zForAffine 0 0 = 0.
Proof. repeat split. Qed.

(** ** The all-zero scalar *)

Lemma doubleJacobian_infinity curve X Y :
  snd (doubleJacobian curve X Y 0) = 0.
Proof.
  unfold doubleJacobian. unfold_backend. cbv zeta. cbn [snd].
  pull_mod (P curve).
  replace ((Y + 0) * (Y + 0) - Y * Y - 0 * 0) with 0 by ring.
  apply Zmod_0_l.
Qed.

Lemma doubleJacobian_origin curve : doubleJacobian curve 0 0 0 = (0, 0, 0).
Proof.
  unfold doubleJacobian. unfold_backend. cbv zeta.
  repeat (cbn [Z.mul Z.add Z.sub Z.opp]; rewrite ?Zmod_0_l).
  reflexivity.
Qed.

Lemma scalarBits_zero curve Bx By Bz n :
  scalarBits curve n Bx By Bz (0, 0, 0, x00) = (0, 0, 0, x00).
Proof.
  induction n as [|n IH]; [reflexivity|].
  cbn [scalarBits]. unfold scalarBit at 1. rewrite doubleJacobian_origin.
  exact IH.
Qed.

Lemma scalarBytes_zero curve Bx By Bz k :
  Forall (fun b => b = x00) k ->
  fold_left (scalarByte curve Bx By Bz) k (0, 0, 0) = (0, 0, 0).
Proof.
  induction 1 as [|b k -> _ IH]; [reflexivity|].
  cbn [fold_left]. unfold scalarByte at 2. rewrite scalarBits_zero. exact IH.
Qed.

(** C6: for every base point and every all-zero scalar, of any length,
    [ScalarMult] returns (0, 0); and [doubleJacobian] maps a point with
    Z = 0 to one with Z3 = 0. *)
Theorem ScalarMult_zero_scalar curve x1 y1 k :
  Forall (fun b => b = x00) k ->
  ScalarMult curve x1 y1 k = (0, 0) /\
  (forall X Y, snd (doubleJacobian curve X Y 0) = 0).
Proof.
  intros Hk. split; [|apply doubleJacobian_infinity].
  unfold ScalarMult. cbv zeta. now rewrite scalarBytes_zero.
Qed.

(** The all-zero scalar of 48 bytes on P-384, and the empty scalar. *)
Lemma ScalarMult_zero_scalar_witness :
  ScalarMult p384 (Gx p384) (Gy p384) (repeat x00 48) = (0, 0) /\
  ScalarMult p384 (Gx p384) (Gy p384) [] = (0, 0).
Proof.
  split.
  - apply (ScalarMult_zero_scalar p384 (Gx p384) (Gy p384) (repeat x00 48)).
    apply Forall_forall. intros b Hb. now apply repeat_spec in Hb.
  - apply (ScalarMult_zero_scalar p384 (Gx p384) (Gy p384) []). constructor.
Defined.

(** ** Test vectors *)

Example base_points_on_curve :
  IsOnCurve p384 (Gx p384) (Gy p384) = true /\
  IsOnCurve p521 (Gx p521) (Gy p521) = true /\
  IsOnCurve tiny (Gx tiny) (Gy tiny) = true.
Proof. vm_compute. repeat split. Qed.

(** Twice the base point of P-384, by the three routes of the engine. *)
Example p384_twice_base_point :
  let x2 := 0x08d999057ba3d2d969260045c55b97f089025959a6f434d651d207d19fb96e9e4fe0e86ebe0e64f85b96a9c75295df61 in
  let y2 := 0x8e80f1fa5b1b3cedb7bfe8dffd6dba74b275d875bc6cc43e904e505f256ab4255ffd43e94d39e22d61501e700a940e80 in
  Double p384 (Gx p384) (Gy p384) = (x2, y2) /\
  Add p384 (Gx p384) (Gy p384) (Gx p384) (Gy p384) = (x2, y2) /\
  ScalarBaseMult p384 [x02] = (x2, y2).
Proof. vm_compute. repeat split. Qed.

(** On [tiny] the base point has order 257: 256 times it is its negative,
    257 times it is the point at infinity, 258 times it is itself. *)
Example tiny_order_of_base_point :
  ScalarBaseMult tiny [x01; x00] = (521, 1) /\
  ScalarBaseMult tiny [x01; x01] = (0, 0) /\
  ScalarBaseMult tiny [x01; x02] = (521, 522).
Proof. vm_compute. repeat split. Qed.

(** The wire forms of the base point of P-384: 97 bytes that start with
    0x04, and 49 bytes that start with 0x03 since Gy is odd. *)
Example p384_wire_forms_of_base_point :
  let x := Gx p384 in
  let y := Gy p384 in
  Marshal p384 x y = Return (x04 :: be_bytes 48 x ++ be_bytes 48 y) /\
  length (x04 :: be_bytes 48 x ++ be_bytes 48 y) = 97%nat /\
  Unmarshal p384 (x04 :: be_bytes 48 x ++ be_bytes 48 y) = Some (x, y) /\
  MarshalCompressed p384 x y = Return (x03 :: be_bytes 48 x).
Proof. vm_compute. repeat split. Qed.

(** On [tiny] the base point has an even y: its compressed form starts with
    0x02, and with the tag changed to 0x03 the other root, P - Gy, is
    decoded, which is on the curve as well. *)
Example tiny_compressed_tag_swapped :
  MarshalCompressed tiny 521 522 = Return [x02; x02; x09] /\
  UnmarshalCompressed ModSqrt3Mod4 tiny [x02; x02; x09] = Return (Some (521, 522)) /\
  UnmarshalCompressed ModSqrt3Mod4 tiny [x03; x02; x09] = Return (Some (521, 523 - 522)) /\
  IsOnCurve tiny 521 (523 - 522) = true.
Proof. vm_compute. repeat split. Qed.

(** ** Adding the point at infinity *)

Lemma affineFromJacobian_one curve x y :
  affineFromJacobian curve x y 1 = (x mod P curve, y mod P curve).
Proof.
  unfold affineFromJacobian, safenum.EqZero, safenum.ModInverse. cbn [Z.eqb].
  rewrite Z.invmod_1_l. unfold_backend. cbv zeta.
  pull_mod (P curve). now rewrite !Z.mul_1_r.
Qed.

(** With a nonzero x the other operand comes back, reduced modulo P. *)
Lemma Add_infinity_nonzero_x curve x y :
  x <> 0 ->
  Add curve x y 0 0 = (x mod P curve, y mod P curve) /\
  Add curve 0 0 x y = (x mod P curve, y mod P curve).
Proof.
  intros Hx. unfold Add. rewrite !zForAffine_tests_x_only.
  rewrite (proj2 (Z.eqb_neq x 0) Hx). cbn [Z.eqb].
  unfold addJacobian, safenum.EqZero, safenum.SetNat. cbn [Z.eqb].
  now rewrite affineFromJacobian_one.
Qed.

(** C7 fails in the code, through the slip in [zForAffine]: B is a square
    modulo the prime of P-384, so the curve has a point with x = 0; that
    point is taken for the point at infinity, and adding infinity to it
    yields (0, 0) instead of the point. *)
Theorem Add_infinity_zero_x_point :
  let y0 := 0x3cf99ef04f51a5ea630ba3f9f960dd593a14c9be39fd2bd215d3b4b08aaaf86bbf927f2c46e52ab06fb742b8850e521e in
  (0 <? y0) && (y0 <? P p384) && IsOnCurve p384 0 y0 = true /\
  Add p384 0 y0 0 0 = (0, 0) /\
  Add p384 0 0 0 y0 = (0, 0).
Proof. vm_compute. repeat split. Qed.

(** ** Key generation: what is read and what is returned *)

Lemma ReadFull_length rand pos buf : length (fst (ReadFull rand pos buf)) = length buf.
Proof.
  revert pos. induction buf as [|b buf IH]; intros pos; cbn [ReadFull]; [reflexivity|].
  destruct (rand pos); [|reflexivity].
  specialize (IH (S pos)). destruct (ReadFull rand (S pos) buf). cbn in *. lia.
Qed.

Lemma ReadFull_draw rand pos buf :
  match draw rand pos (length buf) with
  | Some d => ReadFull rand pos buf = (d, true)
  | None => snd (ReadFull rand pos buf) = false
  end.
Proof.
  revert pos. induction buf as [|b buf IH]; intros pos; cbn [ReadFull draw length];
    [reflexivity|].
  destruct (rand pos); [|reflexivity].
  specialize (IH (S pos)).
  destruct (draw rand (S pos) (length buf)); cbn [option_map].
  - now rewrite IH.
  - destruct (ReadFull rand (S pos) buf). cbn in *. exact IH.
Qed.

Lemma draw_length rand pos n d : draw rand pos n = Some d -> length d = n.
Proof.
  revert pos d. induction n as [|n IH]; intros pos d; cbn [draw].
  - now intros [= <-].
  - destruct (rand pos); [|discriminate].
    destruct (draw rand (S pos) n) eqn:E; [|discriminate].
    intros [= <-]. cbn. f_equal. eapply IH, E.
Qed.

Lemma mask_entry n :
  nth_error mask (Z.to_nat (Z.rem (safenum.BitLen n) 8))
  = Some (nth (Z.to_nat (safenum.BitLen n mod 8)) mask 0).
Proof.
  pose proof (BitLen_nonneg n) as Hn.
  rewrite Z.rem_mod_nonneg by lia.
  pose proof (Z.mod_pos_bound (safenum.BitLen n) 8 ltac:(lia)) as Hm.
  assert (Hc : (Z.to_nat (safenum.BitLen n mod 8) < 8)%nat) by lia.
  revert Hc. generalize (Z.to_nat (safenum.BitLen n mod 8)). intros i Hi.
  do 8 (destruct i as [|i]; [reflexivity|]). lia.
Qed.

Lemma tweak_length n d : length (tweak n d) = length d.
Proof. now destruct d as [|? [|? ?]]. Qed.

Section Loop.
Context {C : Type} `{Curve.t C}.
Variable curve : C.
Variable rand : Reader.
Let n := N (Curve.Params curve).
Let L := privLen n.

(** One round of the loop on a buffer of the right length. *)
Lemma generateLoop_step fuel pos priv :
  length priv = L ->
  generateLoop (S fuel) curve n (safenum.BitLen n) rand pos priv
  = match draw rand pos L with
    | None => Some (KeyErr (fst (ReadFull rand pos priv)))
    | Some d =>
        if (L <? 2)%nat then Some KeyPanic
        else if n <=? safenum.SetBytes (tweak n d)
             then generateLoop fuel curve n (safenum.BitLen n) rand (pos + L) (tweak n d)
             else let '(x, y) := Curve.ScalarBaseMult curve (tweak n d) in
                  Some (KeyOk (tweak n d) x y)
    end.
Proof.
  intros Hlen. cbn [generateLoop].
  pose proof (ReadFull_draw rand pos priv) as Hrd. rewrite Hlen in Hrd.
  destruct (draw rand pos L) as [d|] eqn:Ed.
  - rewrite Hrd. cbn [negb]. apply draw_length in Ed.
    rewrite mask_entry.
    destruct d as [|d0 [|d1 rest]].
    + cbn in Ed. rewrite <- Ed. reflexivity.
    + cbn in Ed. rewrite <- Ed. reflexivity.
    + replace (L <? 2)%nat with false by (symmetry; apply Nat.ltb_ge; cbn in Ed; lia).
      cbn [nth_error setIndex]. rewrite CmpMod_geb.
      change (length (_ :: _ :: rest)) with (length (d0 :: d1 :: rest)). rewrite Ed.
      reflexivity.
  - destruct (ReadFull rand pos priv) as [buf ok]. cbn in Hrd. subst ok. reflexivity.
Qed.

(** A successful run returns the first draw whose tweaked bytes are below N;
    the draws before it were complete and out of range. *)
Lemma generateLoop_ok fuel i priv0 priv x y :
  length priv0 = L ->
  generateLoop fuel curve n (safenum.BitLen n) rand (i * L) priv0 = Some (KeyOk priv x y) ->
  exists k d,
    (i <= k < i + fuel)%nat /\
    draw rand (k * L) L = Some d /\
    priv = tweak n d /\
    safenum.SetBytes priv < n /\
    (x, y) = Curve.ScalarBaseMult curve priv /\
    forall j, (i <= j < k)%nat ->
      exists dj, draw rand (j * L) L = Some dj /\ n <= safenum.SetBytes (tweak n dj).
Proof.
  revert i priv0. induction fuel as [|fuel IH]; intros i priv0 Hlen; [discriminate|].
  rewrite generateLoop_step by exact Hlen.
  destruct (draw rand (i * L) L) as [d|] eqn:Ed; [|discriminate].
  destruct (L <? 2)%nat; [discriminate|].
  destruct (Z.leb_spec n (safenum.SetBytes (tweak n d))) as [Hge | Hlt].
  - intros Hrun. replace (i * L + L)%nat with (S i * L)%nat in Hrun by lia.
    apply IH in Hrun; [|rewrite tweak_length; eapply draw_length, Ed].
    destruct Hrun as (k & dk & Hk & Edk & Hpriv & Hrange & Hpub & Hbefore).
    exists k, dk. do 5 (split; [first [lia | assumption]|]).
    intros j Hj. destruct (Nat.eq_dec j i) as [-> | Hne].
    + exists d. split; trivial.
    + apply Hbefore. lia.
  - destruct (Curve.ScalarBaseMult curve (tweak n d)) as [x' y'] eqn:Epub.
    intros [= <- <- <-]. exists i, d.
    do 5 (split; [first [lia | assumption | reflexivity | symmetry; assumption]|]).
    intros j Hj. lia.
Qed.

(** Conversely, when the draws before the [k]-th are out of range and the
    [k]-th is in range, the loop returns after [k + 1] rounds. *)
Lemma generateLoop_returns fuel i k d priv0 :
  length priv0 = L -> (2 <= L)%nat ->
  (i <= k < i + fuel)%nat ->
  draw rand (k * L) L = Some d ->
  safenum.SetBytes (tweak n d) < n ->
  (forall j, (i <= j < k)%nat ->
     exists dj, draw rand (j * L) L = Some dj /\ n <= safenum.SetBytes (tweak n dj)) ->
  generateLoop fuel curve n (safenum.BitLen n) rand (i * L) priv0
  = Some (KeyOk (tweak n d) (fst (Curve.ScalarBaseMult curve (tweak n d)))
                            (snd (Curve.ScalarBaseMult curve (tweak n d)))).
Proof.
  intros Hlen HL. revert i priv0 Hlen.
  induction fuel as [|fuel IH]; intros i priv0 Hlen Hk Ed Hlt Hbefore; [lia|].
  rewrite generateLoop_step by exact Hlen.
  replace (L <? 2)%nat with false by (symmetry; apply Nat.ltb_ge; lia).
  destruct (Nat.eq_dec i k) as [-> | Hne].
  - rewrite Ed. rewrite (proj2 (Z.leb_gt _ _) Hlt).
    now destruct (Curve.ScalarBaseMult curve (tweak n d)).
  - destruct (Hbefore i ltac:(lia)) as (di & Edi & Hge).
    rewrite Edi, (proj2 (Z.leb_le _ _) Hge).
    replace (i * L + L)%nat with (S i * L)%nat by lia.
    apply IH; trivial.
    + rewrite tweak_length. eapply draw_length, Edi.
    + lia.
    + intros j Hj. apply Hbefore. lia.
Qed.
End Loop.

Lemma GenerateKey_loop (curve : CurveParams) rand fuel :
  GenerateKey curve rand fuel
  = generateLoop fuel curve (N curve) (safenum.BitLen (N curve)) rand
      (0 * privLen (N curve)) (repeat x00 (privLen (N curve))).
Proof. reflexivity. Qed.

(** C1, as amended: the private key returned by [GenerateKey] is the first
    draw of byteLen bytes which, after the mask on byte 0 and the xor of
    byte 1 with 0x42, reads as a number below N; every earlier draw was
    complete and was discarded for being out of range; the public point is
    [ScalarBaseMult] of the returned bytes; and such a draw within the
    rounds allowed makes [GenerateKey] return it. *)
Theorem GenerateKey_private_key (curve : CurveParams) (rand : Reader) :
  let n := N curve in
  let L := privLen n in
  (forall fuel priv x y,
     GenerateKey curve rand fuel = Some (KeyOk priv x y) ->
     exists k d,
       (k < fuel)%nat /\
       draw rand (k * L) L = Some d /\
       priv = tweak n d /\
       safenum.SetBytes priv < n /\
       (x, y) = ScalarBaseMult curve priv /\
       forall j, (j < k)%nat ->
         exists dj, draw rand (j * L) L = Some dj /\ n <= safenum.SetBytes (tweak n dj)) /\
  (forall fuel k d,
     (2 <= L)%nat -> (k < fuel)%nat ->
     draw rand (k * L) L = Some d ->
     safenum.SetBytes (tweak n d) < n ->
     (forall j, (j < k)%nat ->
        exists dj, draw rand (j * L) L = Some dj /\ n <= safenum.SetBytes (tweak n dj)) ->
     GenerateKey curve rand fuel
     = Some (KeyOk (tweak n d) (fst (ScalarBaseMult curve (tweak n d)))
                               (snd (ScalarBaseMult curve (tweak n d))))).
Proof.
  cbv zeta. split.
  - intros fuel priv x y Hrun. rewrite GenerateKey_loop in Hrun.
    pose proof (generateLoop_ok (C := CurveParams) curve rand fuel 0 _ priv x y
                  (repeat_length _ _) Hrun) as Hok.
    cbn [Curve.Params Curve.ScalarBaseMult CurveParams_Curve] in Hok.
    destruct Hok as (k & d & Hk & Ed & Hpriv & Hrange & Hpub & Hbefore).
    exists k, d. do 5 (split; [first [lia | assumption]|]).
    intros j Hj. apply Hbefore. lia.
  - intros fuel k d HL Hk Ed Hlt Hbefore. rewrite GenerateKey_loop.
    refine (generateLoop_returns (C := CurveParams) curve rand fuel 0 k d _
              (repeat_length _ _) HL _ Ed Hlt _).
    + lia.
    + intros j Hj. apply Hbefore. lia.
Qed.

(** A run on [tiny]: the first draw, 01 01, becomes 01 43 and is out of
    range; the second, 00 45, becomes 00 07 and is returned. *)
Lemma GenerateKey_private_key_witness :
  GenerateKey tiny (bytesReader [x01; x01; x00; x45]) 2
  = Some (KeyOk [x00; x07] (fst (ScalarBaseMult tiny [x00; x07]))
                           (snd (ScalarBaseMult tiny [x00; x07]))).
Proof.
  apply (proj2 (GenerateKey_private_key tiny (bytesReader [x01; x01; x00; x45]))
           2%nat 1%nat [x00; x45]).
  - cbn. lia.
  - lia.
  - reflexivity.
  - vm_compute. reflexivity.
  - intros j Hj. assert (j = 0%nat) as -> by lia.
    exists [x01; x01]. split; [reflexivity | vm_compute; discriminate].
Defined.

(** C1 as stated fails: on P-384 the mask is 0xff, and from the draw
    00 42 00 … 00 01 the code returns 00 00 00 … 00 01 with the public point
    of that scalar (the base point), not the masked draw. *)
Lemma GenerateKey_alters_byte_1 :
  let rand : Reader := fun i => if Nat.eqb i 1 then Some x42
                                else if Nat.eqb i 47 then Some x01 else Some x00 in
  option_map (maskHigh (N p384)) (draw rand 0 48)
  = Some (x00 :: x42 :: repeat x00 45 ++ [x01]) /\
  GenerateKey p384 rand 1
  = Some (KeyOk (x00 :: x00 :: repeat x00 45 ++ [x01]) (Gx p384) (Gy p384)).
Proof. vm_compute. split; reflexivity. Qed.

(** ** The group law stays on the curve *)

Section Closure.
Variable curve : CurveParams.
Let p := P curve.
Let b := B curve.

Lemma doubleJacobian_closed X Y Z :
  onCurveJ curve X Y Z ->
  let '(X3, Y3, Z3) := doubleJacobian curve X Y Z in onCurveJ curve X3 Y3 Z3.
Proof.
  unfold onCurveJ, doubleJacobian. fold p b. intros H.
  unfold_backend. cbv zeta.
  change (safenum.SetUint64 8) with 8. change (safenum.SetUint64 4) with 4.
  pull_mod p.
  apply Z.cong_iff_ex. apply Z.cong_iff_ex in H. destruct H as [n H].
  exists (64 * (Y * Y * Y * Y * Y * Y) * n).
  replace (64 * (Y * Y * Y * Y * Y * Y) * n * p)
    with (64 * (Y * Y * Y * Y * Y * Y) * (n * p)) by ring.
  rewrite <- H. ring.
Qed.

(** The general addition: with U1 = X1·Z2², S1 = Y1·Z2³, U2 = X2·Z1²,
    S2 = Y2·Z1³ and H = U2 - U1, the curve equation of the sum is a
    combination of the curve equations of the two summands. *)
Lemma addJacobian_general_closed X1 Y1 Z1 X2 Y2 Z2 :
  onCurveJ curve X1 Y1 Z1 -> onCurveJ curve X2 Y2 Z2 ->
  let U1 := X1 * (Z2 * Z2) in
  let U2 := X2 * (Z1 * Z1) in
  let S1 := Y1 * Z2 * (Z2 * Z2) in
  let S2 := Y2 * Z1 * (Z1 * Z1) in
  let H := U2 - U1 in
  let I := (H + H) * (H + H) in
  let J := H * I in
  let r := S2 - S1 + (S2 - S1) in
  let V := U1 * I in
  let X3 := r * r - J - V - V in
  let Y3 := r * (V - X3) - (S1 * J + S1 * J) in
  let Z3 := ((Z1 + Z2) * (Z1 + Z2) - Z1 * Z1 - Z2 * Z2) * H in
  onCurveJ curve X3 Y3 Z3.
Proof.
  unfold onCurveJ. fold p b. intros H1 H2. cbv zeta.
  apply Z.cong_iff_ex. apply Z.cong_iff_ex in H1, H2.
  destruct H1 as [n1 H1], H2 as [n2 H2].
  set (U1 := X1 * (Z2 * Z2)). set (U2 := X2 * (Z1 * Z1)).
  set (S1 := Y1 * Z2 * (Z2 * Z2)). set (S2 := Y2 * Z1 * (Z1 * Z1)).
  set (W := Z1 * Z2).
  pose (q1 := 64 * (U2 - U1) ^ 3
              * (U1 ^ 3 - 3 * U1 * U2 ^ 2 - S1 ^ 2 + 2 * S1 * S2 + U2 ^ 3
                 + 3 * U2 * W ^ 4 - b * W ^ 6)).
  pose (q2 := 64 * (U2 - U1) ^ 3
              * (- U1 ^ 3 + 3 * U1 ^ 2 * U2 - 3 * U1 * W ^ 4 - 2 * S1 * S2 - U2 ^ 3
                 + S2 ^ 2 + b * W ^ 6)).
  exists (q1 * Z2 ^ 6 * n1 + q2 * Z1 ^ 6 * n2).
  replace ((q1 * Z2 ^ 6 * n1 + q2 * Z1 ^ 6 * n2) * p)
    with (q1 * Z2 ^ 6 * (n1 * p) + q2 * Z1 ^ 6 * (n2 * p)) by ring.
  rewrite <- H1, <- H2. subst q1 q2 U1 U2 S1 S2 W. ring.
Qed.

Lemma addJacobian_closed X1 Y1 Z1 X2 Y2 Z2 :
  onCurveJ curve X1 Y1 Z1 -> onCurveJ curve X2 Y2 Z2 ->
  let '(X3, Y3, Z3) := addJacobian curve X1 Y1 Z1 X2 Y2 Z2 in onCurveJ curve X3 Y3 Z3.
Proof.
  intros H1 H2. unfold addJacobian.
  destruct (safenum.EqZero Z1); [exact H2|].
  destruct (safenum.EqZero Z2); [exact H1|].
  cbv zeta.
  match goal with |- context [if ?c then _ else _] => destruct c end.
  - now apply doubleJacobian_closed.
  - pose proof (addJacobian_general_closed _ _ _ _ _ _ H1 H2) as Hgen.
    cbv zeta in Hgen. unfold onCurveJ in *. fold p b in Hgen |- *.
    unfold_backend. pull_mod p. exact Hgen.
Qed.

Hypothesis Hp : 1 < p.

Lemma doubleJacobian_good pt :
  goodJ curve pt -> goodJ curve (let '(X, Y, Z) := pt in doubleJacobian curve X Y Z).
Proof.
  destruct pt as [[X Y] Z]. intros [Hon _].
  pose proof (doubleJacobian_closed X Y Z Hon) as Hc.
  destruct (doubleJacobian curve X Y Z) as [[X3 Y3] Z3] eqn:E.
  split; [exact Hc|].
  assert (Z3 = snd (doubleJacobian curve X Y Z)) as -> by now rewrite E.
  unfold doubleJacobian. unfold_backend. cbv zeta. cbn [snd].
  apply Z.mod_pos_bound. fold p. lia.
Qed.

Lemma addJacobian_good X1 Y1 Z1 X2 Y2 Z2 :
  goodJ curve (X1, Y1, Z1) -> goodJ curve (X2, Y2, Z2) ->
  goodJ curve (addJacobian curve X1 Y1 Z1 X2 Y2 Z2).
Proof.
  intros [H1 R1] [H2 R2].
  pose proof (addJacobian_closed _ _ _ _ _ _ H1 H2) as Hc.
  pose proof (doubleJacobian_good (X1, Y1, Z1) (conj H1 R1)) as Hd.
  destruct (addJacobian curve X1 Y1 Z1 X2 Y2 Z2) as [[X3 Y3] Z3] eqn:E.
  split; [exact Hc|].
  assert (Z3 = snd (addJacobian curve X1 Y1 Z1 X2 Y2 Z2)) as -> by now rewrite E.
  clear E Hc. unfold addJacobian.
  destruct (safenum.EqZero Z1); [exact R2|].
  destruct (safenum.EqZero Z2); [exact R1|].
  cbv zeta.
  match goal with |- context [if ?c then _ else _] => destruct c end.
  - cbv beta iota in Hd. destruct (doubleJacobian curve X1 Y1 Z1) as [[? ?] ?].
    apply Hd.
  - unfold_backend. cbn [snd]. apply Z.mod_pos_bound. fold p. lia.
Qed.

Variables Bx By : Z.
Hypothesis HB : (By * By) mod p = cubic curve Bx mod p.

Lemma base_good : goodJ curve (Bx, By, safenum.SetUint64 1).
Proof.
  change (safenum.SetUint64 1) with 1. split; [|fold p; lia].
  unfold onCurveJ. fold p. rewrite HB. unfold cubic. f_equal. ring.
Qed.

Lemma scalarBit_good x y z c :
  goodJ curve (x, y, z) ->
  goodJ curve (let '(x', y', z', _) := scalarBit curve Bx By (safenum.SetUint64 1) (x, y, z, c)
               in (x', y', z')).
Proof.
  intros Hg. unfold scalarBit.
  pose proof (doubleJacobian_good (x, y, z) Hg) as Hd. cbv beta iota in Hd.
  destruct (doubleJacobian curve x y z) as [[x1 y1] z1].
  destruct (Z.land (Z_of_byte c) 128 =? 128).
  - pose proof (addJacobian_good _ _ _ _ _ _ base_good Hd) as Ha.
    now destruct (addJacobian curve Bx By (safenum.SetUint64 1) x1 y1 z1) as [[? ?] ?].
  - exact Hd.
Qed.

Lemma scalarBits_good n x y z c :
  goodJ curve (x, y, z) ->
  goodJ curve (let '(x', y', z', _) := scalarBits curve n Bx By (safenum.SetUint64 1) (x, y, z, c)
               in (x', y', z')).
Proof.
  revert x y z c. induction n as [|n IH]; intros x y z c Hg; [exact Hg|].
  cbn [scalarBits].
  pose proof (scalarBit_good x y z c Hg) as Hs.
  destruct (scalarBit curve Bx By (safenum.SetUint64 1) (x, y, z, c)) as [[[x1 y1] z1] c1].
  now apply IH.
Qed.

Lemma scalarBytes_good k acc :
  goodJ curve acc ->
  goodJ curve (fold_left (scalarByte curve Bx By (safenum.SetUint64 1)) k acc).
Proof.
  revert acc. induction k as [|c k IH]; intros acc Hg; [exact Hg|].
  cbn [fold_left]. apply IH. destruct acc as [[x y] z]. unfold scalarByte.
  pose proof (scalarBits_good 8 x y z c Hg) as Hs.
  now destruct (scalarBits curve 8 Bx By (safenum.SetUint64 1) (x, y, z, c)) as [[[? ?] ?] ?].
Qed.

Hypothesis Hprime : Z.prime p.

Lemma affineFromJacobian_on_curve X Y Z :
  goodJ curve (X, Y, Z) ->
  let '(x, y) := affineFromJacobian curve X Y Z in
  IsOnCurve curve x y = true \/ (x, y) = (0, 0).
Proof.
  intros [Hon Hz]. unfold affineFromJacobian, safenum.EqZero.
  destruct (Z.eqb_spec Z 0) as [-> | Hnz]; [now right|]. left.
  cbv zeta. apply IsOnCurve_iff.
  unfold safenum.ModInverse. fold p.
  assert (Hinv : (Z.invmod Z p * Z) mod p = 1 mod p).
  { rewrite Z.invmod_prime; trivial.
    - rewrite Z.mod_small; lia.
    - rewrite Z.mod_small; lia. }
  set (zi := Z.invmod Z p) in *.
  unfold_backend. unfold cubic. fold b. pull_mod p.
  unfold onCurveJ in Hon. fold p b in Hon.
  apply Z.cong_iff_ex. apply Z.cong_iff_ex in Hon, Hinv.
  destruct Hon as [n1 H1], Hinv as [n2 H2].
  set (u := zi * Z) in *.
  exists (zi ^ 6 * n1
          + (- 3 * X * zi ^ 2 * (u ^ 3 + u ^ 2 + u + 1)
             + b * (u ^ 5 + u ^ 4 + u ^ 3 + u ^ 2 + u + 1)) * n2).
  match goal with |- _ = (?a * n1 + ?c * n2) * p =>
    replace ((a * n1 + c * n2) * p) with (a * (n1 * p) + c * (n2 * p)) by ring end.
  rewrite <- H1, <- H2. subst u. ring.
Qed.

Lemma ScalarMult_on_curve k :
  let '(x, y) := ScalarMult curve Bx By k in
  IsOnCurve curve x y = true \/ (x, y) = (0, 0).
Proof.
  unfold ScalarMult. cbv zeta.
  assert (H0 : goodJ curve (0, 0, 0)).
  { split; [|fold p; lia]. unfold onCurveJ. f_equal. ring. }
  pose proof (scalarBytes_good k (0, 0, 0) H0) as Hg.
  destruct (fold_left _ k (0, 0, 0)) as [[x y] z].
  now apply affineFromJacobian_on_curve.
Qed.
End Closure.

(** ** Key generation: the zero scalar is accepted *)


(** ** The engine over mutable numbers computes the same values and writes
       fresh cells only *)

Lemma setIndex_app_r {A} (h l : list A) k v :
  setIndex (length h + k)%nat v (h ++ l) = h ++ setIndex k v l.
Proof. induction h as [|a h IH]; cbn; [reflexivity|]. now rewrite IH. Qed.

Lemma val_app_l h l p : Mem.valid h p -> Mem.val (h ++ l) p = Mem.val h p.
Proof. unfold Mem.valid, Mem.val. intros Hp. now apply app_nth1. Qed.

Lemma val_app_r h l k : Mem.val (h ++ l) (length h + k)%nat = nth k l 0.
Proof. unfold Mem.val. rewrite app_nth2 by lia. f_equal. lia. Qed.

Lemma valid_app_l h l p : Mem.valid h p -> Mem.valid (h ++ l) p.
Proof. unfold Mem.valid. rewrite length_app. lia. Qed.

Lemma validCurve_app h l curve : validCurve h curve -> validCurve (h ++ l) curve.
Proof. intros (HB & HGx & HGy). repeat split; now apply valid_app_l. Qed.

Lemma snapshot_app h l curve :
  validCurve h curve -> snapshot (h ++ l) curve = snapshot h curve.
Proof.
  intros (HB & HGx & HGy). unfold snapshot. now rewrite !val_app_l by assumption.
Qed.

Lemma bind_new {A} (f : Mem.ptr -> Mem.M A) h l :
  Mem.bind Mem.new f (h ++ l) = f (length h + length l)%nat (h ++ (l ++ [0])).
Proof. unfold Mem.bind, Mem.new. now rewrite length_app, app_assoc. Qed.

Lemma bind_assign {A} k v (f : Mem.ptr -> Mem.M A) h l :
  Mem.bind (Mem.assign (length h + k)%nat v) f (h ++ l)
  = f (length h + k)%nat (h ++ setIndex k (v (h ++ l)) l).
Proof. unfold Mem.bind, Mem.assign. now rewrite setIndex_app_r. Qed.

Lemma bind_EqZero {A} x (f : bool -> Mem.M A) h :
  Mem.bind (Mem.EqZero x) f h = f (safenum.EqZero (Mem.val h x)) h.
Proof. reflexivity. Qed.

Lemma bind_Cmp {A} x y (f : Z -> Mem.M A) h :
  Mem.bind (Mem.Cmp x y) f h = f (safenum.Cmp (Mem.val h x) (Mem.val h y)) h.
Proof. reflexivity. Qed.

Lemma bind_assoc {A B D} (m : Mem.M A) (f : A -> Mem.M B) (g : B -> Mem.M D) h :
  Mem.bind (Mem.bind m f) g h = Mem.bind m (fun a => Mem.bind (f a) g) h.
Proof. unfold Mem.bind. now destruct (m h). Qed.

Lemma bind_ret {A B} (a : A) (f : A -> Mem.M B) h : Mem.bind (Mem.ret a) f h = f a h.
Proof. reflexivity. Qed.

(** Symbolic execution of straight-line code on a store [h ++ l], where [h]
    is the store on entry and [l] lists the cells allocated since. *)
Ltac mem_unfold :=
  cbv beta delta [Mem.ModMul Mem.ModAdd Mem.ModSub Mem.SetNat Mem.SetUint64 Mem.ModInverse].

Ltac mem_vals :=
  repeat first [ rewrite val_app_r | rewrite val_app_l by assumption ];
  cbn [nth].

Ltac mem_step :=
  first
    [ rewrite bind_assoc
    | rewrite bind_new; cbn [length app Nat.add]
    | rewrite bind_assign; cbv beta; mem_vals; cbn [setIndex]
    | rewrite bind_EqZero; mem_vals
    | rewrite bind_Cmp; mem_vals
    | rewrite bind_ret ].

Ltac mem_run := mem_unfold; repeat mem_step.

Ltac mem_done :=
  unfold Mem.valid; rewrite ?length_app; cbn [length];
  repeat split; try lia;
  rewrite ?val_app_r; cbn [nth]; try reflexivity.

Section MemSpecs.
Variable curve : Mem.CurveParams.

Lemma Mem_polynomial_spec h x :
  Mem.valid h x -> Mem.valid h (Mem.B curve) ->
  exists r ext,
    Mem.polynomial curve x h = (r, h ++ ext) /\
    Mem.valid (h ++ ext) r /\
    Mem.val (h ++ ext) r = polynomial (snapshot h curve) (Mem.val h x).
Proof.
  intros Hx HB. do 2 eexists. split.
  { rewrite <- (app_nil_r h) at 1. unfold Mem.polynomial. mem_run.
    unfold Mem.ret. reflexivity. }
  mem_done.
Qed.

Lemma Mem_IsOnCurve_spec h x y :
  Mem.valid h x -> Mem.valid h y -> Mem.valid h (Mem.B curve) ->
  exists ext,
    Mem.IsOnCurve curve x y h
    = (IsOnCurve (snapshot h curve) (Mem.val h x) (Mem.val h y), h ++ ext).
Proof.
  intros Hx Hy HB. eexists.
  rewrite <- (app_nil_r h) at 1. unfold Mem.IsOnCurve, Mem.polynomial. mem_run.
  unfold Mem.ret. reflexivity.
Qed.

Lemma Mem_zForAffine_spec h x y :
  Mem.valid h x -> Mem.valid h y ->
  exists r ext,
    Mem.zForAffine x y h = (r, h ++ ext) /\
    Mem.valid (h ++ ext) r /\
    Mem.val (h ++ ext) r = zForAffine (Mem.val h x) (Mem.val h y).
Proof.
  intros Hx Hy. unfold zForAffine.
  destruct (negb (safenum.EqZero (Mem.val h x)) || negb (safenum.EqZero (Mem.val h x))) eqn:E;
    do 2 eexists; (split;
      [ rewrite <- (app_nil_r h) at 1; unfold Mem.zForAffine; mem_run; rewrite E;
        mem_run; unfold Mem.ret; reflexivity
      | mem_done ]).
Qed.

Lemma Mem_affineFromJacobian_spec h x y z :
  Mem.valid h x -> Mem.valid h y -> Mem.valid h z ->
  exists xOut yOut ext,
    Mem.affineFromJacobian curve x y z h = ((xOut, yOut), h ++ ext) /\
    Mem.valid (h ++ ext) xOut /\ Mem.valid (h ++ ext) yOut /\
    (Mem.val (h ++ ext) xOut, Mem.val (h ++ ext) yOut)
    = affineFromJacobian (snapshot h curve) (Mem.val h x) (Mem.val h y) (Mem.val h z).
Proof.
  intros Hx Hy Hz. unfold affineFromJacobian.
  destruct (safenum.EqZero (Mem.val h z)) eqn:E;
    do 3 eexists; (split;
      [ rewrite <- (app_nil_r h) at 1; unfold Mem.affineFromJacobian; mem_run; rewrite E;
        mem_run; unfold Mem.ret; reflexivity
      | mem_done ]).
Qed.

Lemma Mem_doubleJacobian_spec h x y z :
  Mem.valid h x -> Mem.valid h y -> Mem.valid h z ->
  exists x3 y3 z3 ext,
    Mem.doubleJacobian curve x y z h = ((x3, y3, z3), h ++ ext) /\
    Mem.valid (h ++ ext) x3 /\ Mem.valid (h ++ ext) y3 /\ Mem.valid (h ++ ext) z3 /\
    (Mem.val (h ++ ext) x3, Mem.val (h ++ ext) y3, Mem.val (h ++ ext) z3)
    = doubleJacobian (snapshot h curve) (Mem.val h x) (Mem.val h y) (Mem.val h z).
Proof.
  intros Hx Hy Hz. do 4 eexists. split.
  { rewrite <- (app_nil_r h) at 1. unfold Mem.doubleJacobian. mem_run.
    unfold Mem.ret. reflexivity. }
  mem_done.
Qed.
End MemSpecs.

(** Validity of pointers survives allocation. *)
Create HintDb frame.
#[local] Hint Resolve valid_app_l validCurve_app : frame.
Ltac frame_valid := solve [auto 8 with frame].
Ltac frame_vals :=
  repeat match goal with
         | |- context [Mem.val (?a ++ ?b) ?p] => rewrite (val_app_l a b p) by frame_valid
         | |- context [snapshot (?a ++ ?b) ?c] => rewrite (snapshot_app a b c) by frame_valid
         end.
Ltac frame_vals_in H :=
  repeat match type of H with
         | context [Mem.val (?a ++ ?b) ?p] => rewrite (val_app_l a b p) in H by frame_valid
         | context [snapshot (?a ++ ?b) ?c] => rewrite (snapshot_app a b c) in H by frame_valid
         end.

Section MemCalls.
Variable curve : Mem.CurveParams.

Lemma Mem_addJacobian_spec h x1 y1 z1 x2 y2 z2 :
  Mem.valid h x1 -> Mem.valid h y1 -> Mem.valid h z1 ->
  Mem.valid h x2 -> Mem.valid h y2 -> Mem.valid h z2 ->
  exists x3 y3 z3 ext,
    Mem.addJacobian curve x1 y1 z1 x2 y2 z2 h = ((x3, y3, z3), h ++ ext) /\
    Mem.valid (h ++ ext) x3 /\ Mem.valid (h ++ ext) y3 /\ Mem.valid (h ++ ext) z3 /\
    (Mem.val (h ++ ext) x3, Mem.val (h ++ ext) y3, Mem.val (h ++ ext) z3)
    = addJacobian (snapshot h curve) (Mem.val h x1) (Mem.val h y1) (Mem.val h z1)
        (Mem.val h x2) (Mem.val h y2) (Mem.val h z2).
Proof.
  intros Hx1 Hy1 Hz1 Hx2 Hy2 Hz2. unfold addJacobian.
  change (P (snapshot h curve)) with (Mem.P curve). cbv zeta.
  destruct (safenum.EqZero (Mem.val h z1)) eqn:E1.
  { do 4 eexists. split.
    - rewrite <- (app_nil_r h) at 1. unfold Mem.addJacobian. mem_run. rewrite E1.
      mem_run. unfold Mem.ret. reflexivity.
    - mem_done. }
  destruct (safenum.EqZero (Mem.val h z2)) eqn:E2.
  { do 4 eexists. split.
    - rewrite <- (app_nil_r h) at 1. unfold Mem.addJacobian. mem_run. rewrite E1.
      mem_run. rewrite E2. mem_run. unfold Mem.ret. reflexivity.
    - mem_done. }
  match goal with |- context [if ?c then doubleJacobian _ _ _ _ else _] =>
    destruct c eqn:E3 end.
  - assert (Erun : exists l, Mem.addJacobian curve x1 y1 z1 x2 y2 z2 h
                             = Mem.doubleJacobian curve x1 y1 z1 (h ++ l)).
    { eexists. rewrite <- (app_nil_r h) at 1. unfold Mem.addJacobian. mem_run.
      rewrite E1. mem_run. rewrite E2. mem_run. rewrite E3. reflexivity. }
    destruct Erun as [l Erun]. rewrite Erun.
    destruct (Mem_doubleJacobian_spec curve (h ++ l) x1 y1 z1)
      as (x3 & y3 & z3 & ext & E & Vx & Vy & Vz & Hv); [frame_valid ..|].
    rewrite E. rewrite <- app_assoc in *.
    exists x3, y3, z3. eexists. split; [reflexivity|].
    repeat (split; [assumption|]).
    rewrite Hv. frame_vals. reflexivity.
  - do 4 eexists. split.
    + rewrite <- (app_nil_r h) at 1. unfold Mem.addJacobian. mem_run. rewrite E1.
      mem_run. rewrite E2. mem_run. rewrite E3. mem_run. unfold Mem.ret. reflexivity.
    + mem_done.
Qed.

Lemma Mem_Add_spec h x1 y1 x2 y2 :
  validCurve h curve ->
  Mem.valid h x1 -> Mem.valid h y1 -> Mem.valid h x2 -> Mem.valid h y2 ->
  exists x3 y3 ext,
    Mem.Add curve x1 y1 x2 y2 h = ((x3, y3), h ++ ext) /\
    Mem.valid (h ++ ext) x3 /\ Mem.valid (h ++ ext) y3 /\
    (Mem.val (h ++ ext) x3, Mem.val (h ++ ext) y3)
    = Add (snapshot h curve) (Mem.val h x1) (Mem.val h y1) (Mem.val h x2) (Mem.val h y2).
Proof.
  intros Hc Hx1 Hy1 Hx2 Hy2. unfold Mem.Add, Mem.bind, Add.
  destruct (Mem_zForAffine_spec h x1 y1) as (z1 & e1 & E1 & Vz1 & Hz1); trivial.
  rewrite E1.
  destruct (Mem_zForAffine_spec (h ++ e1) x2 y2) as (z2 & e2 & E2 & Vz2 & Hz2);
    [frame_valid ..|].
  rewrite E2.
  destruct (Mem_addJacobian_spec ((h ++ e1) ++ e2) x1 y1 z1 x2 y2 z2)
    as (x3 & y3 & z3 & e3 & E3 & Vx3 & Vy3 & Vz3 & H3); [frame_valid ..|].
  rewrite E3.
  destruct (Mem_affineFromJacobian_spec curve (((h ++ e1) ++ e2) ++ e3) x3 y3 z3)
    as (xo & yo & e4 & E4 & Vxo & Vyo & H4); trivial.
  rewrite E4.
  exists xo, yo, (e1 ++ e2 ++ e3 ++ e4). rewrite !app_assoc.
  split; [reflexivity|]. do 2 (split; [assumption|]).
  rewrite H4. frame_vals_in Hz2. frame_vals_in H3. rewrite Hz1, Hz2 in H3.
  frame_vals. rewrite <- H3. reflexivity.
Qed.

Lemma Mem_Double_spec h x1 y1 :
  validCurve h curve ->
  Mem.valid h x1 -> Mem.valid h y1 ->
  exists x3 y3 ext,
    Mem.Double curve x1 y1 h = ((x3, y3), h ++ ext) /\
    Mem.valid (h ++ ext) x3 /\ Mem.valid (h ++ ext) y3 /\
    (Mem.val (h ++ ext) x3, Mem.val (h ++ ext) y3)
    = Double (snapshot h curve) (Mem.val h x1) (Mem.val h y1).
Proof.
  intros Hc Hx1 Hy1. unfold Mem.Double, Mem.bind, Double.
  destruct (Mem_zForAffine_spec h x1 y1) as (z1 & e1 & E1 & Vz1 & Hz1); trivial.
  rewrite E1.
  destruct (Mem_doubleJacobian_spec curve (h ++ e1) x1 y1 z1)
    as (x3 & y3 & z3 & e3 & E3 & Vx3 & Vy3 & Vz3 & H3); [frame_valid ..|].
  rewrite E3.
  destruct (Mem_affineFromJacobian_spec curve ((h ++ e1) ++ e3) x3 y3 z3)
    as (xo & yo & e4 & E4 & Vxo & Vyo & H4); trivial.
  rewrite E4.
  exists xo, yo, (e1 ++ e3 ++ e4). rewrite !app_assoc.
  split; [reflexivity|]. do 2 (split; [assumption|]).
  rewrite H4. frame_vals_in H3. rewrite Hz1 in H3.
  frame_vals. rewrite <- H3. reflexivity.
Qed.
End MemCalls.

Section MemScalar.
Variable curve : Mem.CurveParams.

Lemma Mem_scalarBit_spec h Bx By Bz x y z b :
  validCurve h curve ->
  Mem.valid h Bx -> Mem.valid h By -> Mem.valid h Bz ->
  Mem.valid h x -> Mem.valid h y -> Mem.valid h z ->
  exists x' y' z' b' ext,
    Mem.scalarBit curve Bx By Bz (x, y, z, b) h = ((x', y', z', b'), h ++ ext) /\
    Mem.valid (h ++ ext) x' /\ Mem.valid (h ++ ext) y' /\ Mem.valid (h ++ ext) z' /\
    (Mem.val (h ++ ext) x', Mem.val (h ++ ext) y', Mem.val (h ++ ext) z', b')
    = scalarBit (snapshot h curve) (Mem.val h Bx) (Mem.val h By) (Mem.val h Bz)
        (Mem.val h x, Mem.val h y, Mem.val h z, b).
Proof.
  intros Hc HBx HBy HBz Hx Hy Hz. unfold Mem.scalarBit, Mem.bind, scalarBit.
  destruct (Mem_doubleJacobian_spec curve h x y z)
    as (x1 & y1 & z1 & e1 & E1 & Vx1 & Vy1 & Vz1 & H1); trivial.
  rewrite E1, <- H1.
  destruct (Z.land (Z_of_byte b) 128 =? 128).
  - destruct (Mem_addJacobian_spec curve (h ++ e1) Bx By Bz x1 y1 z1)
      as (x2 & y2 & z2 & e2 & E2 & Vx2 & Vy2 & Vz2 & H2); [frame_valid ..|].
    rewrite E2. unfold Mem.ret.
    exists x2, y2, z2. eexists. exists (e1 ++ e2). rewrite !app_assoc.
    split; [reflexivity|]. do 3 (split; [assumption|]).
    frame_vals_in H2. rewrite <- H2. reflexivity.
  - unfold Mem.ret. exists x1, y1, z1. eexists. exists e1.
    split; [reflexivity|]. do 3 (split; [assumption|]). reflexivity.
Qed.

Lemma Mem_scalarBits_spec n h Bx By Bz x y z b :
  validCurve h curve ->
  Mem.valid h Bx -> Mem.valid h By -> Mem.valid h Bz ->
  Mem.valid h x -> Mem.valid h y -> Mem.valid h z ->
  exists x' y' z' b' ext,
    Mem.scalarBits curve n Bx By Bz (x, y, z, b) h = ((x', y', z', b'), h ++ ext) /\
    Mem.valid (h ++ ext) x' /\ Mem.valid (h ++ ext) y' /\ Mem.valid (h ++ ext) z' /\
    (Mem.val (h ++ ext) x', Mem.val (h ++ ext) y', Mem.val (h ++ ext) z', b')
    = scalarBits (snapshot h curve) n (Mem.val h Bx) (Mem.val h By) (Mem.val h Bz)
        (Mem.val h x, Mem.val h y, Mem.val h z, b).
Proof.
  revert h x y z b. induction n as [|n IH]; intros h x y z b Hc HBx HBy HBz Hx Hy Hz.
  - exists x, y, z, b, []. cbn [Mem.scalarBits scalarBits]. unfold Mem.ret.
    rewrite app_nil_r. repeat split; trivial.
  - cbn [Mem.scalarBits scalarBits]. unfold Mem.bind.
    destruct (Mem_scalarBit_spec h Bx By Bz x y z b)
      as (x1 & y1 & z1 & b1 & e1 & E1 & Vx1 & Vy1 & Vz1 & H1); trivial.
    rewrite E1, <- H1.
    destruct (IH (h ++ e1) x1 y1 z1 b1)
      as (x2 & y2 & z2 & b2 & e2 & E2 & Vx2 & Vy2 & Vz2 & H2); [frame_valid ..|].
    rewrite E2.
    exists x2, y2, z2, b2, (e1 ++ e2). rewrite !app_assoc.
    split; [reflexivity|]. do 3 (split; [assumption|]).
    frame_vals_in H2. exact H2.
Qed.

Lemma Mem_scalarBytes_spec k h Bx By Bz x y z :
  validCurve h curve ->
  Mem.valid h Bx -> Mem.valid h By -> Mem.valid h Bz ->
  Mem.valid h x -> Mem.valid h y -> Mem.valid h z ->
  exists x' y' z' ext,
    Mem.scalarBytes curve Bx By Bz k (x, y, z) h = ((x', y', z'), h ++ ext) /\
    Mem.valid (h ++ ext) x' /\ Mem.valid (h ++ ext) y' /\ Mem.valid (h ++ ext) z' /\
    (Mem.val (h ++ ext) x', Mem.val (h ++ ext) y', Mem.val (h ++ ext) z')
    = fold_left (scalarByte (snapshot h curve) (Mem.val h Bx) (Mem.val h By) (Mem.val h Bz))
        k (Mem.val h x, Mem.val h y, Mem.val h z).
Proof.
  revert h x y z. induction k as [|b k IH]; intros h x y z Hc HBx HBy HBz Hx Hy Hz.
  - exists x, y, z, []. cbn [Mem.scalarBytes fold_left]. unfold Mem.ret.
    rewrite app_nil_r. repeat split; trivial.
  - cbn [Mem.scalarBytes fold_left]. unfold Mem.bind. unfold scalarByte at 2.
    destruct (Mem_scalarBits_spec 8 h Bx By Bz x y z b)
      as (x1 & y1 & z1 & b1 & e1 & E1 & Vx1 & Vy1 & Vz1 & H1); trivial.
    rewrite E1, <- H1.
    destruct (IH (h ++ e1) x1 y1 z1)
      as (x2 & y2 & z2 & e2 & E2 & Vx2 & Vy2 & Vz2 & H2); [frame_valid ..|].
    rewrite E2.
    exists x2, y2, z2, (e1 ++ e2). rewrite !app_assoc.
    split; [reflexivity|]. do 3 (split; [assumption|]).
    frame_vals_in H2. exact H2.
Qed.

Lemma Mem_ScalarMult_spec h Bx By k :
  validCurve h curve ->
  Mem.valid h Bx -> Mem.valid h By ->
  exists x y ext,
    Mem.ScalarMult curve Bx By k h = ((x, y), h ++ ext) /\
    Mem.valid (h ++ ext) x /\ Mem.valid (h ++ ext) y /\
    (Mem.val (h ++ ext) x, Mem.val (h ++ ext) y)
    = ScalarMult (snapshot h curve) (Mem.val h Bx) (Mem.val h By) k.
Proof.
  intros Hc HBx HBy.
  assert (Erun : Mem.ScalarMult curve Bx By k h
                 = Mem.bind (Mem.scalarBytes curve Bx By (length h + 0)%nat k
                               (length h + 1, length h + 2, length h + 3)%nat)
                     (fun '(x, y, z) => Mem.affineFromJacobian curve x y z)
                     (h ++ [safenum.SetUint64 1; 0; 0; 0])).
  { rewrite <- (app_nil_r h) at 1. unfold Mem.ScalarMult. mem_run. reflexivity. }
  rewrite Erun. unfold Mem.bind.
  set (h0 := h ++ [safenum.SetUint64 1; 0; 0; 0]).
  assert (Hlen : length h0 = (length h + 4)%nat) by (subst h0; rewrite length_app; reflexivity).
  destruct (Mem_scalarBytes_spec k h0 Bx By (length h + 0)%nat
              (length h + 1)%nat (length h + 2)%nat (length h + 3)%nat)
    as (x1 & y1 & z1 & e1 & E1 & Vx1 & Vy1 & Vz1 & H1);
    try (unfold Mem.valid; lia); try (subst h0; frame_valid).
  unfold Mem.ptr in *. rewrite E1.
  destruct (Mem_affineFromJacobian_spec curve (h0 ++ e1) x1 y1 z1)
    as (xo & yo & e2 & E2 & Vxo & Vyo & H2); trivial.
  rewrite E2.
  exists xo, yo, ([safenum.SetUint64 1; 0; 0; 0] ++ e1 ++ e2).
  subst h0. rewrite !app_assoc. split; [reflexivity|]. do 2 (split; [assumption|]).
  rewrite H2. unfold ScalarMult. cbv zeta.
  rewrite !val_app_r in H1. cbn [nth] in H1. frame_vals_in H1. rewrite <- H1.
  reflexivity.
Qed.

Lemma Mem_ScalarBaseMult_spec h k :
  validCurve h curve ->
  exists x y ext,
    Mem.ScalarBaseMult curve k h = ((x, y), h ++ ext) /\
    Mem.valid (h ++ ext) x /\ Mem.valid (h ++ ext) y /\
    (Mem.val (h ++ ext) x, Mem.val (h ++ ext) y)
    = ScalarBaseMult (snapshot h curve) k.
Proof.
  intros Hc. pose proof Hc as (_ & HGx & HGy).
  apply (Mem_ScalarMult_spec h (Mem.Gx curve) (Mem.Gy curve) k); assumption.
Qed.
End MemScalar.

(** Two calls in a row: the second returns the values of the first, and
    does not disturb the numbers the first returned. *)
Corollary Mem_ScalarMult_twice (curve : Mem.CurveParams) h Bx By k :
  validCurve h curve -> Mem.valid h Bx -> Mem.valid h By ->
  exists x y ext x' y' ext',
    Mem.ScalarMult curve Bx By k h = ((x, y), h ++ ext) /\
    Mem.ScalarMult curve Bx By k (h ++ ext) = ((x', y'), (h ++ ext) ++ ext') /\
    (Mem.val ((h ++ ext) ++ ext') x', Mem.val ((h ++ ext) ++ ext') y')
    = (Mem.val (h ++ ext) x, Mem.val (h ++ ext) y) /\
    (Mem.val ((h ++ ext) ++ ext') x, Mem.val ((h ++ ext) ++ ext') y)
    = (Mem.val (h ++ ext) x, Mem.val (h ++ ext) y).
Proof.
  intros Hc HBx HBy.
  destruct (Mem_ScalarMult_spec curve h Bx By k)
    as (x & y & ext & E & Vx & Vy & Hv); trivial.
  destruct (Mem_ScalarMult_spec curve (h ++ ext) Bx By k)
    as (x' & y' & ext' & E' & _ & _ & Hv'); [frame_valid ..|].
  exists x, y, ext, x', y', ext'. split; [exact E|]. split; [exact E'|]. split.
  - rewrite Hv', Hv. frame_vals. reflexivity.
  - now rewrite (val_app_l (h ++ ext) ext' x Vx), (val_app_l (h ++ ext) ext' y Vy).
Qed.

(** C10: [IsOnCurve], [Add], [Double], [ScalarMult] and [ScalarBaseMult]
    leave every number that exists when they are called as it is, the
    arguments and the curve parameters B, Gx and Gy among them: the store on
    return is the store on entry followed by cells allocated meanwhile, in
    which every cell of the store on entry has the value it had.  The values
    returned are those of the value-level functions applied to the values of
    the arguments, so they depend on these values only. *)
Theorem Mem_operations_write_fresh_cells_only (curve : Mem.CurveParams) (h : Mem.heap) :
  validCurve h curve ->
  (forall ext p, Mem.valid h p -> Mem.val (h ++ ext) p = Mem.val h p) /\
  (forall x y, Mem.valid h x -> Mem.valid h y ->
     exists ext,
       Mem.IsOnCurve curve x y h
       = (IsOnCurve (snapshot h curve) (Mem.val h x) (Mem.val h y), h ++ ext)) /\
  (forall x1 y1 x2 y2,
     Mem.valid h x1 -> Mem.valid h y1 -> Mem.valid h x2 -> Mem.valid h y2 ->
     exists x3 y3 ext,
       Mem.Add curve x1 y1 x2 y2 h = ((x3, y3), h ++ ext) /\
       (Mem.val (h ++ ext) x3, Mem.val (h ++ ext) y3)
       = Add (snapshot h curve) (Mem.val h x1) (Mem.val h y1) (Mem.val h x2) (Mem.val h y2)) /\
  (forall x1 y1,
     Mem.valid h x1 -> Mem.valid h y1 ->
     exists x3 y3 ext,
       Mem.Double curve x1 y1 h = ((x3, y3), h ++ ext) /\
       (Mem.val (h ++ ext) x3, Mem.val (h ++ ext) y3)
       = Double (snapshot h curve) (Mem.val h x1) (Mem.val h y1)) /\
  (forall Bx By k,
     Mem.valid h Bx -> Mem.valid h By ->
     exists x y ext,
       Mem.ScalarMult curve Bx By k h = ((x, y), h ++ ext) /\
       (Mem.val (h ++ ext) x, Mem.val (h ++ ext) y)
       = ScalarMult (snapshot h curve) (Mem.val h Bx) (Mem.val h By) k) /\
  (forall k,
     exists x y ext,
       Mem.ScalarBaseMult curve k h = ((x, y), h ++ ext) /\
       (Mem.val (h ++ ext) x, Mem.val (h ++ ext) y)
       = ScalarBaseMult (snapshot h curve) k).
Proof.
  intros Hc. pose proof Hc as (HB & HGx & HGy).
  split; [|split; [|split; [|split; [|split]]]].
  - intros ext p Hp. now apply val_app_l.
  - intros x y Hx Hy. now apply Mem_IsOnCurve_spec.
  - intros x1 y1 x2 y2 Hx1 Hy1 Hx2 Hy2.
    destruct (Mem_Add_spec curve h x1 y1 x2 y2) as (x3 & y3 & ext & E & _ & _ & Hv); trivial.
    now exists x3, y3, ext.
  - intros x1 y1 Hx1 Hy1.
    destruct (Mem_Double_spec curve h x1 y1) as (x3 & y3 & ext & E & _ & _ & Hv); trivial.
    now exists x3, y3, ext.
  - intros Bx By k HBx HBy.
    destruct (Mem_ScalarMult_spec curve h Bx By k) as (x & y & ext & E & _ & _ & Hv); trivial.
    now exists x, y, ext.
  - intros k.
    destruct (Mem_ScalarBaseMult_spec curve h k) as (x & y & ext & E & _ & _ & Hv); trivial.
    now exists x, y, ext.
Qed.

(** The same on [tiny], with the base point as the argument. *)
Lemma Mem_operations_write_fresh_cells_only_witness :
  validCurve tinyHeap tinyMem /\
  (exists ext,
     Mem.IsOnCurve tinyMem 1%nat 2%nat tinyHeap = (true, tinyHeap ++ ext)) /\
  (exists x3 y3 ext,
     Mem.Double tinyMem 1%nat 2%nat tinyHeap = ((x3, y3), tinyHeap ++ ext) /\
     (Mem.val (tinyHeap ++ ext) x3, Mem.val (tinyHeap ++ ext) y3) = Double tiny 521 522) /\
  (exists x y ext,
     Mem.ScalarBaseMult tinyMem [x00; x07] tinyHeap = ((x, y), tinyHeap ++ ext) /\
     (Mem.val (tinyHeap ++ ext) x, Mem.val (tinyHeap ++ ext) y) = (273, 208)).
Proof.
  assert (Hc : validCurve tinyHeap tinyMem)
    by (unfold validCurve, Mem.valid; cbn; lia).
  assert (H1 : Mem.valid tinyHeap 1%nat) by (unfold Mem.valid; cbn; lia).
  assert (H2 : Mem.valid tinyHeap 2%nat) by (unfold Mem.valid; cbn; lia).
  destruct (Mem_operations_write_fresh_cells_only tinyMem tinyHeap Hc)
    as (_ & Hon & _ & Hdbl & _ & Hbase).
  split; [exact Hc|]. split; [|split].
  - exact (Hon 1%nat 2%nat H1 H2).
  - exact (Hdbl 1%nat 2%nat H1 H2).
  - exact (Hbase [x00; x07]).
Defined.

(** * Further properties *)

(** ** Doubling and addition *)

Lemma ModSub_diag a m : safenum.ModSub a a m = 0.
Proof. unfold safenum.ModSub. now rewrite Z.sub_diag, Zmod_0_l. Qed.

(** X1: adding a point to itself takes the doubling branch of [addJacobian],
    so [Add] of two equal operands is [Double], whatever the operand. *)
Theorem Add_same_point_is_Double curve x y : Add curve x y x y = Double curve x y.
Proof.
  unfold Add, Double. rewrite zForAffine_tests_x_only.
  destruct (Z.eqb_spec x 0) as [-> | Hx].
  - pose proof (doubleJacobian_infinity curve 0 y) as Hd.
    destruct (doubleJacobian curve 0 y 0) as [[x3 y3] z3]. cbn [snd] in Hd. subst z3.
    reflexivity.
  - unfold addJacobian. change (safenum.EqZero 1) with false. cbv zeta.
    rewrite !ModSub_diag. reflexivity.
Qed.

(** X2: a point plus its opposite is the point at infinity: when the two
    operands share x and their y add up to a multiple of P, [Add] returns
    (0, 0).  This covers a point of order two added to itself. *)
Theorem Add_opposite_points curve x y y' :
  (y + y') mod P curve = 0 -> Add curve x y x y' = (0, 0).
Proof.
  intros Hopp. unfold Add. rewrite !zForAffine_tests_x_only.
  destruct (Z.eqb_spec x 0) as [-> | Hx]; [reflexivity|].
  unfold addJacobian. change (safenum.EqZero 1) with false. cbv zeta.
  rewrite ModSub_diag. change (safenum.EqZero 0) with true. cbn [andb].
  set (s1 := safenum.ModMul (safenum.ModMul y 1 (P curve)) _ (P curve)).
  set (s2 := safenum.ModMul (safenum.ModMul y' 1 (P curve)) _ (P curve)).
  destruct (safenum.EqZero (safenum.ModSub s2 s1 (P curve))) eqn:Er.
  - assert (Hz : snd (doubleJacobian curve x y 1) = 0).
    { unfold safenum.EqZero in Er. apply Z.eqb_eq in Er.
      subst s1 s2. revert Er. unfold doubleJacobian. cbn [snd]. unfold_backend.
      pull_mod (P curve). intros Er.
      replace ((y + 1) * (y + 1) - y * y - 1 * 1) with ((y + y') - (y' * 1 * (1 * 1) - y * 1 * (1 * 1)))
        by ring.
      now rewrite Zminus_mod, Hopp, Er. }
    destruct (doubleJacobian curve x y 1) as [[x3 y3] z3]. cbn [snd] in Hz. now subst z3.
  - unfold affineFromJacobian.
    replace (safenum.ModMul _ 0 (P curve)) with 0; [reflexivity|].
    unfold safenum.ModMul. now rewrite Z.mul_0_r, Zmod_0_l.
Qed.

Lemma Add_opposite_points_witness :
  (522 + 1) mod P tiny = 0 /\ Add tiny 521 522 521 1 = (0, 0) /\
  (0 + 0) mod P tiny = 0 /\ Add tiny 504 0 504 0 = (0, 0).
Proof.
  split; [reflexivity|]. split; [apply Add_opposite_points; reflexivity|].
  split; [reflexivity|]. apply Add_opposite_points; reflexivity.
Defined.

(** ** Operands whose x is zero

    [zForAffine] gives Z = 0 to every operand with x = 0, so [Add] and
    [Double] take such an operand for the point at infinity, whatever its y. *)

(** X3: an operand with x = 0 is the neutral element of [Add]: the other
    operand comes back reduced modulo P, two such operands give (0, 0), and
    [Double] of such an operand is (0, 0). *)
Theorem zero_x_operand_is_neutral curve x y y0 y1 :
  (x =? 0) = false ->
  Add curve x y 0 y0 = (x mod P curve, y mod P curve) /\
  Add curve 0 y0 x y = (x mod P curve, y mod P curve) /\
  Add curve 0 y0 0 y1 = (0, 0) /\
  Double curve 0 y0 = (0, 0).
Proof.
  intros Hx. unfold Add, Double. rewrite !zForAffine_tests_x_only, Hx.
  cbn [Z.eqb]. unfold addJacobian, safenum.SetNat.
  change (safenum.EqZero 1) with false. change (safenum.EqZero 0) with true. cbv iota.
  rewrite affineFromJacobian_one. repeat split.
  pose proof (doubleJacobian_infinity curve 0 y0) as Hd.
  destruct (doubleJacobian curve 0 y0 0) as [[x3 y3] z3]. cbn [snd] in Hd. now subst z3.
Qed.

Lemma zero_x_operand_is_neutral_witness :
  (521 =? 0) = false /\
  Add tiny 521 522 0 7 = (521, 522) /\
  Add tiny 0 7 521 522 = (521, 522) /\
  Add tiny 0 7 0 9 = (0, 0) /\
  Double tiny 0 7 = (0, 0).
Proof.
  split; [reflexivity|]. exact (zero_x_operand_is_neutral tiny 521 522 7 9 eq_refl).
Defined.

(** ** Closure of the group law *)

(** X4: the two Jacobian formulas keep the curve equation
    Y² = X³ - 3XZ⁴ + bZ⁶ modulo P, for every modulus and in every branch of
    [addJacobian] (an operand at infinity, equal operands, the general case). *)
Theorem jacobian_formulas_keep_curve_equation curve X1 Y1 Z1 X2 Y2 Z2 :
  onCurveJ curve X1 Y1 Z1 -> onCurveJ curve X2 Y2 Z2 ->
  (let '(X3, Y3, Z3) := doubleJacobian curve X1 Y1 Z1 in onCurveJ curve X3 Y3 Z3) /\
  (let '(X3, Y3, Z3) := addJacobian curve X1 Y1 Z1 X2 Y2 Z2 in onCurveJ curve X3 Y3 Z3).
Proof.
  intros H1 H2. split.
  - now apply doubleJacobian_closed.
  - now apply addJacobian_closed.
Qed.

Lemma jacobian_formulas_keep_curve_equation_witness :
  onCurveJ tiny 521 522 1 /\ onCurveJ tiny 273 208 1 /\
  (let '(X3, Y3, Z3) := doubleJacobian tiny 521 522 1 in onCurveJ tiny X3 Y3 Z3) /\
  (let '(X3, Y3, Z3) := addJacobian tiny 521 522 1 273 208 1 in onCurveJ tiny X3 Y3 Z3).
Proof.
  assert (H1 : onCurveJ tiny 521 522 1) by reflexivity.
  assert (H2 : onCurveJ tiny 273 208 1) by reflexivity.
  split; [exact H1|]. split; [exact H2|].
  exact (jacobian_formulas_keep_curve_equation tiny 521 522 1 273 208 1 H1 H2).
Defined.

Lemma affine_good curve x y :
  1 < P curve -> IsOnCurve curve x y = true -> goodJ curve (x, y, 1).
Proof.
  intros Hp Hon. apply IsOnCurve_iff in Hon.
  exact (base_good curve Hp x y Hon).
Qed.

Lemma prime_gt_1 p : Z.prime p -> 1 < p.
Proof. intros Hp. pose proof (Z.prime_ge_2 p Hp). lia. Qed.

(** X5: [Add] is closed: for a prime P, the sum of two operands that are on
    the curve or equal to (0, 0) is on the curve or equal to (0, 0). *)
Theorem Add_stays_on_curve curve x1 y1 x2 y2 :
  Z.prime (P curve) ->
  IsOnCurve curve x1 y1 = true \/ (x1, y1) = (0, 0) ->
  IsOnCurve curve x2 y2 = true \/ (x2, y2) = (0, 0) ->
  let '(x3, y3) := Add curve x1 y1 x2 y2 in
  IsOnCurve curve x3 y3 = true \/ (x3, y3) = (0, 0).
Proof.
  intros Hprime H1 H2. pose proof (prime_gt_1 _ Hprime) as Hp.
  unfold Add. rewrite !zForAffine_tests_x_only.
  destruct (Z.eqb_spec x1 0) as [E1 | E1]; destruct (Z.eqb_spec x2 0) as [E2 | E2].
  - now right.
  - unfold addJacobian, safenum.SetNat. change (safenum.EqZero 0) with true. cbv iota.
    rewrite affineFromJacobian_one. left. rewrite IsOnCurve_mod.
    destruct H2 as [H2 | H2]; [exact H2 | congruence].
  - unfold addJacobian, safenum.SetNat. change (safenum.EqZero 0) with true.
    change (safenum.EqZero 1) with false. cbv iota.
    rewrite affineFromJacobian_one. left. rewrite IsOnCurve_mod.
    destruct H1 as [H1 | H1]; [exact H1 | congruence].
  - assert (G1 : goodJ curve (x1, y1, 1)).
    { apply affine_good; trivial. destruct H1 as [H1 | H1]; [exact H1 | congruence]. }
    assert (G2 : goodJ curve (x2, y2, 1)).
    { apply affine_good; trivial. destruct H2 as [H2 | H2]; [exact H2 | congruence]. }
    pose proof (addJacobian_good curve Hp _ _ _ _ _ _ G1 G2) as G3.
    destruct (addJacobian curve x1 y1 1 x2 y2 1) as [[x3 y3] z3].
    exact (affineFromJacobian_on_curve curve Hp Hprime x3 y3 z3 G3).
Qed.

Lemma Add_stays_on_curve_witness :
  Z.prime (P tiny) /\
  (IsOnCurve tiny 521 522 = true \/ (521, 522) = (0, 0)) /\
  (IsOnCurve tiny 273 208 = true \/ (273, 208) = (0, 0)) /\
  (let '(x3, y3) := Add tiny 521 522 273 208 in
   IsOnCurve tiny x3 y3 = true \/ (x3, y3) = (0, 0)).
Proof.
  assert (H1 : IsOnCurve tiny 521 522 = true \/ (521, 522) = (0, 0)) by (left; reflexivity).
  assert (H2 : IsOnCurve tiny 273 208 = true \/ (273, 208) = (0, 0)) by (left; reflexivity).
  split; [exact tiny_prime|]. split; [exact H1|]. split; [exact H2|].
  exact (Add_stays_on_curve tiny 521 522 273 208 tiny_prime H1 H2).
Defined.

(** X6: [Double] is closed: for a prime P, the double of an operand that is
    on the curve or equal to (0, 0) is on the curve or equal to (0, 0). *)
Theorem Double_stays_on_curve curve x y :
  Z.prime (P curve) ->
  IsOnCurve curve x y = true \/ (x, y) = (0, 0) ->
  let '(x3, y3) := Double curve x y in
  IsOnCurve curve x3 y3 = true \/ (x3, y3) = (0, 0).
Proof.
  intros Hprime H1. pose proof (prime_gt_1 _ Hprime) as Hp.
  unfold Double. rewrite zForAffine_tests_x_only.
  destruct (Z.eqb_spec x 0) as [E | E].
  - pose proof (doubleJacobian_infinity curve x y) as Hd.
    destruct (doubleJacobian curve x y 0) as [[x3 y3] z3]. cbn [snd] in Hd. subst z3.
    now right.
  - assert (G : goodJ curve (x, y, 1)).
    { apply affine_good; trivial. destruct H1 as [H1 | H1]; [exact H1 | congruence]. }
    pose proof (doubleJacobian_good curve Hp _ G) as G3. cbv beta iota in G3.
    destruct (doubleJacobian curve x y 1) as [[x3 y3] z3].
    exact (affineFromJacobian_on_curve curve Hp Hprime x3 y3 z3 G3).
Qed.

Lemma Double_stays_on_curve_witness :
  Z.prime (P tiny) /\
  (IsOnCurve tiny 521 522 = true \/ (521, 522) = (0, 0)) /\
  (let '(x3, y3) := Double tiny 521 522 in
   IsOnCurve tiny x3 y3 = true \/ (x3, y3) = (0, 0)).
Proof.
  assert (H1 : IsOnCurve tiny 521 522 = true \/ (521, 522) = (0, 0)) by (left; reflexivity).
  split; [exact tiny_prime|]. split; [exact H1|].
  exact (Double_stays_on_curve tiny 521 522 tiny_prime H1).
Defined.

(** X7: [ScalarMult] is closed: for a prime P and a base point on the curve,
    the result is on the curve or equal to (0, 0), for every scalar; so is
    the result of [ScalarBaseMult] when the base point of the curve is on it. *)
Theorem ScalarMult_stays_on_curve curve Bx By k :
  Z.prime (P curve) ->
  IsOnCurve curve Bx By = true ->
  let '(x, y) := ScalarMult curve Bx By k in
  IsOnCurve curve x y = true \/ (x, y) = (0, 0).
Proof.
  intros Hprime HB. pose proof (prime_gt_1 _ Hprime) as Hp.
  apply IsOnCurve_iff in HB.
  exact (ScalarMult_on_curve curve Hp Bx By HB Hprime k).
Qed.

Lemma ScalarMult_stays_on_curve_witness :
  Z.prime (P tiny) /\ IsOnCurve tiny 273 208 = true /\
  (let '(x, y) := ScalarMult tiny 273 208 [x01; x2c] in
   IsOnCurve tiny x y = true \/ (x, y) = (0, 0)).
Proof.
  split; [exact tiny_prime|]. split; [reflexivity|].
  exact (ScalarMult_stays_on_curve tiny 273 208 [x01; x2c] tiny_prime eq_refl).
Defined.

(** ** Results are reduced *)

Lemma affineFromJacobian_range curve X Y Z :
  0 < P curve ->
  let '(x, y) := affineFromJacobian curve X Y Z in
  0 <= x < P curve /\ 0 <= y < P curve.
Proof.
  intros Hp. unfold affineFromJacobian.
  destruct (safenum.EqZero Z); [lia|].
  cbv zeta. unfold safenum.ModMul. split; now apply Z.mod_pos_bound.
Qed.

(** X8: for a positive modulus, every coordinate returned by [Add],
    [Double], [ScalarMult] and [ScalarBaseMult] lies in [0, P), whether or
    not the operands were reduced or on the curve. *)
Theorem results_are_reduced curve :
  0 < P curve ->
  (forall x1 y1 x2 y2,
     let '(x, y) := Add curve x1 y1 x2 y2 in 0 <= x < P curve /\ 0 <= y < P curve) /\
  (forall x1 y1,
     let '(x, y) := Double curve x1 y1 in 0 <= x < P curve /\ 0 <= y < P curve) /\
  (forall Bx By k,
     let '(x, y) := ScalarMult curve Bx By k in 0 <= x < P curve /\ 0 <= y < P curve) /\
  (forall k,
     let '(x, y) := ScalarBaseMult curve k in 0 <= x < P curve /\ 0 <= y < P curve).
Proof.
  intros Hp. repeat split; intros.
  - unfold Add. destruct (addJacobian _ _ _ _ _ _ _) as [[x3 y3] z3].
    now apply affineFromJacobian_range.
  - unfold Double. destruct (doubleJacobian _ _ _ _) as [[x3 y3] z3].
    now apply affineFromJacobian_range.
  - unfold ScalarMult. cbv zeta. destruct (fold_left _ _ _) as [[x3 y3] z3].
    now apply affineFromJacobian_range.
  - unfold ScalarBaseMult, ScalarMult. cbv zeta. destruct (fold_left _ _ _) as [[x3 y3] z3].
    now apply affineFromJacobian_range.
Qed.

Lemma results_are_reduced_witness :
  0 < P tiny /\
  (let '(x, y) := Add tiny 1044 1045 796 731 in 0 <= x < P tiny /\ 0 <= y < P tiny) /\
  (let '(x, y) := ScalarMult tiny 1044 1045 [x09] in 0 <= x < P tiny /\ 0 <= y < P tiny).
Proof.
  assert (Hp : 0 < P tiny) by reflexivity.
  destruct (results_are_reduced tiny Hp) as (Ha & _ & Hs & _).
  split; [exact Hp|]. split; [exact (Ha 1044 1045 796 731) | exact (Hs 1044 1045 [x09])].
Defined.

(** ** Jacobian representatives and commutativity *)

Lemma ModSub_swap_zero a b m :
  safenum.EqZero (safenum.ModSub a b m) = safenum.EqZero (safenum.ModSub b a m).
Proof.
  unfold safenum.EqZero, safenum.ModSub.
  apply eq_true_iff_eq. rewrite !Z.eqb_eq.
  replace (b - a) with (- (a - b)) by ring.
  split; intros H.
  - now apply Z_mod_zero_opp_full.
  - apply Z_mod_zero_opp_full in H. now rewrite Z.opp_involutive in H.
Qed.

Lemma doubleJacobian_mod curve x y z :
  doubleJacobian curve (x mod P curve) (y mod P curve) z = doubleJacobian curve x y z.
Proof.
  unfold doubleJacobian. unfold_backend. cbv zeta.
  f_equal; [f_equal|]; pull_mod (P curve); reflexivity.
Qed.

Lemma invmod_prime_spec p z :
  Z.prime p -> 0 < z < p -> (Z.invmod z p * z) mod p = 1.
Proof.
  intros Hp Hz. apply Z.invmod_prime; trivial. rewrite Z.mod_small; lia.
Qed.

(** Scaling a Jacobian triple by [l] (X by l², Y by l³, Z by l) does not
    change the affine point it stands for. *)
Lemma affineFromJacobian_scaled curve l X Y Z X' Y' Z' :
  Z.prime (P curve) ->
  l mod P curve <> 0 ->
  0 <= Z < P curve -> 0 <= Z' < P curve ->
  X' mod P curve = (l * l * X) mod P curve ->
  Y' mod P curve = (l * l * l * Y) mod P curve ->
  Z' mod P curve = (l * Z) mod P curve ->
  affineFromJacobian curve X' Y' Z' = affineFromJacobian curve X Y Z.
Proof.
  intros Hprime Hl HZ HZ' EX EY EZ.
  pose proof (prime_gt_1 _ Hprime) as Hp.
  unfold affineFromJacobian, safenum.EqZero.
  destruct (Z.eqb_spec Z 0) as [-> | Hnz].
  - rewrite Z.mul_0_r, Zmod_0_l, Z.mod_small in EZ by lia. subst Z'. reflexivity.
  - destruct (Z.eqb_spec Z' 0) as [-> | Hnz'].
    + exfalso. rewrite Zmod_0_l in EZ. symmetry in EZ.
      apply Z.mod_divide in EZ; [|lia].
      apply Z.divide_prime_mul in EZ; trivial. destruct EZ as [D | D].
      * apply Hl. now apply Z.mod0_divide.
      * apply Z.mod0_divide in D. rewrite Z.mod_small in D; lia.
    + cbv zeta. unfold safenum.ModInverse.
      pose proof (invmod_prime_spec _ Z Hprime ltac:(lia)) as Hi.
      pose proof (invmod_prime_spec _ Z' Hprime ltac:(lia)) as Hi'.
      set (zi := Z.invmod Z (P curve)) in *. set (zi' := Z.invmod Z' (P curve)) in *.
      set (p := P curve) in *.
      assert (Hi1 : (zi * Z) mod p = 1 mod p) by (rewrite Hi, Z.mod_small; lia).
      assert (Hi1' : (zi' * Z') mod p = 1 mod p) by (rewrite Hi', Z.mod_small; lia).
      assert (E : (zi' * l) mod p = zi mod p).
      { transitivity ((zi' * l * (zi * Z)) mod p).
        - replace (zi' * l) with (zi' * l * 1) at 1 by ring.
          apply cong_mul; [reflexivity | symmetry; exact Hi1].
        - replace (zi' * l * (zi * Z)) with (zi' * (l * Z) * zi) by ring.
          replace zi with (1 * zi) at 2 by ring.
          apply cong_mul; [|reflexivity].
          rewrite <- Hi1'. apply cong_mul; [reflexivity | symmetry; exact EZ]. }
      unfold_backend. pull_mod p. f_equal.
      * transitivity ((l * l * X * (zi' * zi')) mod p).
        { apply cong_mul; [exact EX | reflexivity]. }
        replace (l * l * X * (zi' * zi')) with (X * ((zi' * l) * (zi' * l))) by ring.
        apply cong_mul; [reflexivity|]. apply cong_mul; exact E.
      * transitivity ((l * l * l * Y * (zi' * zi' * zi')) mod p).
        { apply cong_mul; [exact EY | reflexivity]. }
        replace (l * l * l * Y * (zi' * zi' * zi'))
          with (Y * ((zi' * l) * (zi' * l) * (zi' * l))) by ring.
        apply cong_mul; [reflexivity|]. repeat apply cong_mul; exact E.
Qed.

Lemma neg_one_mod_nonzero p : 1 < p -> (-1) mod p <> 0.
Proof.
  intros Hp. change (-1) with (- (1)).
  rewrite Z_mod_nz_opp_full; rewrite Z.mod_small; lia.
Qed.

Lemma ModSub_zero_cong a b a' b' p :
  a mod p = a' mod p -> b mod p = b' mod p ->
  safenum.EqZero (safenum.ModSub a b p) = true -> a' mod p = b' mod p.
Proof.
  unfold safenum.EqZero, safenum.ModSub. rewrite Z.eqb_eq. intros Ha Hb H.
  rewrite <- Ha, <- Hb. now apply Z.cong_iff_0.
Qed.

(** X9: [Add] is commutative: for a prime P, swapping the two operands gives
    the same pair of numbers, in every branch (an operand taken for the point
    at infinity, equal operands, opposite operands, the general case). *)
Theorem Add_commutes curve x1 y1 x2 y2 :
  Z.prime (P curve) ->
  Add curve x1 y1 x2 y2 = Add curve x2 y2 x1 y1.
Proof.
  intros Hprime. pose proof (prime_gt_1 _ Hprime) as Hp.
  unfold Add. rewrite !zForAffine_tests_x_only.
  destruct (Z.eqb_spec x1 0) as [E1 | E1]; destruct (Z.eqb_spec x2 0) as [E2 | E2];
    try reflexivity.
  unfold addJacobian. change (safenum.EqZero 1) with false. cbv zeta.
  set (zz := safenum.ModMul 1 1 (P curve)).
  set (u1 := safenum.ModMul x1 zz (P curve)). set (u2 := safenum.ModMul x2 zz (P curve)).
  set (s1 := safenum.ModMul (safenum.ModMul y1 1 (P curve)) zz (P curve)).
  set (s2 := safenum.ModMul (safenum.ModMul y2 1 (P curve)) zz (P curve)).
  rewrite (ModSub_swap_zero u1 u2), (ModSub_swap_zero s1 s2).
  destruct (safenum.EqZero (safenum.ModSub u2 u1 (P curve))
            && safenum.EqZero (safenum.ModSub s2 s1 (P curve))) eqn:Eb.
  - apply andb_prop in Eb. destruct Eb as [Ex Ey].
    rewrite <- (doubleJacobian_mod curve x1 y1), <- (doubleJacobian_mod curve x2 y2).
    assert (Hx : x2 mod P curve = x1 mod P curve).
    { refine (ModSub_zero_cong u2 u1 x2 x1 _ _ _ Ex); subst u1 u2 zz;
        unfold_backend; pull_mod (P curve); f_equal; ring. }
    assert (Hy : y2 mod P curve = y1 mod P curve).
    { refine (ModSub_zero_cong s2 s1 y2 y1 _ _ _ Ey); subst s1 s2 zz;
        unfold_backend; pull_mod (P curve); f_equal; ring. }
    now rewrite Hx, Hy.
  - apply affineFromJacobian_scaled with (l := -1); trivial.
    + now apply neg_one_mod_nonzero.
    + unfold safenum.ModMul. apply Z.mod_pos_bound. lia.
    + unfold safenum.ModMul. apply Z.mod_pos_bound. lia.
    + subst u1 u2 s1 s2 zz. unfold_backend. pull_mod (P curve). f_equal. ring.
    + subst u1 u2 s1 s2 zz. unfold_backend. pull_mod (P curve). f_equal. ring.
    + subst u1 u2 s1 s2 zz. unfold_backend. pull_mod (P curve). f_equal. ring.
Qed.

Lemma Add_commutes_witness :
  Z.prime (P tiny) /\
  Add tiny 521 522 273 208 = Add tiny 273 208 521 522 /\
  Add tiny 521 522 1044 1045 = Add tiny 1044 1045 521 522.
Proof.
  split; [exact tiny_prime|].
  split; apply Add_commutes; exact tiny_prime.
Defined.

(** X10: [affineFromJacobian] depends only on the class of the Jacobian
    triple: for a prime P, a multiplier l that is not a multiple of P and a
    reduced Z, the triple (l²X, l³Y, lZ) gives the same affine pair as
    (X, Y, Z); with Z = 1 the pair is (X mod P, Y mod P). *)
Theorem affineFromJacobian_of_scaled_triple curve l X Y Z :
  Z.prime (P curve) ->
  l mod P curve <> 0 ->
  0 <= Z < P curve ->
  affineFromJacobian curve (safenum.ModMul (l * l) X (P curve))
    (safenum.ModMul (l * l * l) Y (P curve)) (safenum.ModMul l Z (P curve))
  = affineFromJacobian curve X Y Z /\
  affineFromJacobian curve X Y 1 = (X mod P curve, Y mod P curve).
Proof.
  intros Hprime Hl HZ. pose proof (prime_gt_1 _ Hprime) as Hp.
  split; [|apply affineFromJacobian_one].
  apply affineFromJacobian_scaled with (l := l); trivial.
  - unfold safenum.ModMul. apply Z.mod_pos_bound. lia.
  - unfold safenum.ModMul. now rewrite Zmod_mod.
  - unfold safenum.ModMul. now rewrite Zmod_mod.
  - unfold safenum.ModMul. now rewrite Zmod_mod.
Qed.

Lemma affineFromJacobian_of_scaled_triple_witness :
  Z.prime (P tiny) /\ 5 mod P tiny <> 0 /\ 0 <= 7 < P tiny /\
  affineFromJacobian tiny (safenum.ModMul (5 * 5) 100 (P tiny))
    (safenum.ModMul (5 * 5 * 5) 200 (P tiny)) (safenum.ModMul 5 7 (P tiny))
  = affineFromJacobian tiny 100 200 7 /\
  affineFromJacobian tiny 100 200 1 = (100 mod P tiny, 200 mod P tiny).
Proof.
  assert (Hl : 5 mod P tiny <> 0) by (intros H; vm_compute in H; discriminate H).
  assert (Hz : 0 <= 7 < P tiny) by (change (P tiny) with 523; lia).
  split; [exact tiny_prime|]. split; [exact Hl|]. split; [exact Hz|].
  exact (affineFromJacobian_of_scaled_triple tiny 5 100 200 7 tiny_prime Hl Hz).
Defined.

(** ** Scalars *)

(** X11: leading zero bytes of the scalar do not change the result of
    [ScalarMult] or [ScalarBaseMult]: the accumulator is still the point at
    infinity when the first non-zero byte is reached. *)
Theorem ScalarMult_ignores_leading_zero_bytes curve Bx By n k :
  ScalarMult curve Bx By (repeat x00 n ++ k) = ScalarMult curve Bx By k /\
  ScalarBaseMult curve (repeat x00 n ++ k) = ScalarBaseMult curve k.
Proof.
  assert (H : forall X Y, ScalarMult curve X Y (repeat x00 n ++ k) = ScalarMult curve X Y k).
  { intros X Y. unfold ScalarMult. cbv zeta.
    rewrite fold_left_app, scalarBytes_zero; [reflexivity|].
    apply Forall_forall. intros c Hc. now apply repeat_spec in Hc. }
  split; [apply H|]. unfold ScalarBaseMult. apply H.
Qed.

Lemma scalarByte_one curve Bx By :
  fold_left (scalarByte curve Bx By (safenum.SetUint64 1)) [x01] (0, 0, 0) = (Bx, By, 1).
Proof. reflexivity. Qed.

Lemma scalarByte_two curve Bx By :
  fold_left (scalarByte curve Bx By (safenum.SetUint64 1)) [x02] (0, 0, 0)
  = doubleJacobian curve Bx By 1.
Proof. reflexivity. Qed.

(** X12: the scalar 1 returns the base point reduced modulo P, and the
    scalar 2 returns what [Double] returns, for a base point whose x is not
    zero. *)
Theorem ScalarMult_by_one_and_two curve Bx By :
  (Bx =? 0) = false ->
  ScalarMult curve Bx By [x01] = (Bx mod P curve, By mod P curve) /\
  ScalarMult curve Bx By [x02] = Double curve Bx By.
Proof.
  intros HB. unfold ScalarMult, Double. cbv zeta.
  rewrite scalarByte_one, scalarByte_two, zForAffine_tests_x_only, HB.
  split; [apply affineFromJacobian_one | reflexivity].
Qed.

Lemma ScalarMult_by_one_and_two_witness :
  (521 =? 0) = false /\
  ScalarMult tiny 521 522 [x01] = (521 mod P tiny, 522 mod P tiny) /\
  ScalarMult tiny 521 522 [x02] = Double tiny 521 522.
Proof.
  split; [reflexivity|]. exact (ScalarMult_by_one_and_two tiny 521 522 eq_refl).
Defined.

(** ** Representatives accepted by [IsOnCurve] *)

(** X13: [IsOnCurve] does not look at the range of its arguments: adding
    multiples of P to x or y does not change the answer, and (x, P - y) is on
    the curve exactly when (x, y) is. *)
Theorem IsOnCurve_ignores_representative curve x y i j :
  IsOnCurve curve (x + i * P curve) (y + j * P curve) = IsOnCurve curve x y /\
  IsOnCurve curve x (P curve - y) = IsOnCurve curve x y.
Proof.
  split.
  - rewrite <- (IsOnCurve_mod curve (x + i * P curve)), !Z_mod_plus_full.
    apply IsOnCurve_mod.
  - apply eq_true_iff_eq. rewrite !IsOnCurve_iff.
    replace ((P curve - y) * (P curve - y)) with (y * y + (P curve - 2 * y) * P curve) by ring.
    now rewrite Z_mod_plus_full.
Qed.

(** ** The wire forms *)

Lemma be_bytes_SetBytes bs : be_bytes (length bs) (safenum.SetBytes bs) = bs.
Proof.
  induction bs as [|c bs IH] using rev_ind; [reflexivity|].
  rewrite length_app, Nat.add_1_r. cbn [be_bytes].
  rewrite SetBytes_app. cbn [length]. change (256 ^ Z.of_nat 1) with 256.
  assert (Hc : safenum.SetBytes [c] = Z_of_byte c) by (unfold safenum.SetBytes; cbn; lia).
  rewrite Hc. pose proof (Z_of_byte_range c) as Hr.
  f_equal.
  - rewrite Z.div_add_l, Z.div_small, Z.add_0_r by lia. exact IH.
  - f_equal. rewrite <- (byte_of_Z_of_byte c) at 2.
    unfold byte_of_Z. rewrite Z.add_comm, Z_mod_plus_full. reflexivity.
Qed.

Lemma Marshal_inv (curve : CurveParams) x y data :
  Marshal curve x y = Return data ->
  0 <= byteLen (BitSize curve) /\
  Z.abs x < 256 ^ byteLen (BitSize curve) /\
  Z.abs y < 256 ^ byteLen (BitSize curve) /\
  data = x04 :: be_bytes (Z.to_nat (byteLen (BitSize curve))) (Z.abs x)
             ++ be_bytes (Z.to_nat (byteLen (BitSize curve))) (Z.abs y).
Proof.
  unfold Marshal, big.FillBytes. cbn [Curve.Params CurveParams_Curve].
  destruct (Z.ltb_spec (1 + 2 * byteLen (BitSize curve)) 0) as [Hn | Hn]; [discriminate|].
  assert (Hb : 0 <= byteLen (BitSize curve)) by lia.
  rewrite Z2Nat.id by exact Hb.
  destruct (Z.ltb_spec (Z.abs x) (256 ^ byteLen (BitSize curve))); [|discriminate].
  destruct (Z.ltb_spec (Z.abs y) (256 ^ byteLen (BitSize curve))); [|discriminate].
  intros [= <-]. repeat split; trivial.
Qed.

Lemma MarshalCompressed_inv (curve : CurveParams) x y data :
  MarshalCompressed curve x y = Return data ->
  0 <= byteLen (BitSize curve) /\
  Z.abs x < 256 ^ byteLen (BitSize curve) /\
  data = (if Z.odd y then x03 else x02)
         :: be_bytes (Z.to_nat (byteLen (BitSize curve))) (Z.abs x).
Proof.
  unfold MarshalCompressed, big.FillBytes. cbn [Curve.Params CurveParams_Curve].
  destruct (Z.leb_spec (1 + byteLen (BitSize curve)) 0) as [Hn | Hn]; [discriminate|].
  assert (Hb : 0 <= byteLen (BitSize curve)) by lia.
  rewrite Z2Nat.id by exact Hb.
  destruct (Z.ltb_spec (Z.abs x) (256 ^ byteLen (BitSize curve))); [|discriminate].
  intros [= <-]. repeat split; trivial.
  rewrite Bit_0_odd. now destruct (Z.odd y).
Qed.

Lemma slices_of_encoding (c : byte) (a b : list byte) n :
  length a = Z.to_nat n -> 0 <= n ->
  slice 1 (1 + n) (c :: a ++ b) = a /\ sliceFrom (1 + n) (c :: a ++ b) = b /\
  sliceFrom 1 (c :: a ++ b) = a ++ b.
Proof.
  intros Ha Hn. unfold slice, sliceFrom.
  replace (1 + n - 1) with n by lia.
  replace (Z.to_nat (1 + n)) with (S (Z.to_nat n)) by lia.
  change (Z.to_nat 1) with 1%nat. cbn [skipn]. rewrite <- Ha.
  rewrite firstn_app, Nat.sub_diag, firstn_all, skipn_app, Nat.sub_diag, skipn_all.
  cbn [firstn skipn]. now rewrite app_nil_r.
Qed.

(** X14: the uncompressed form: whenever [Marshal] returns, the output has
    1 + 2·byteLen bytes, starts with 0x04, and its two halves read back as
    the absolute values of x and y; nothing else about the point is checked. *)
Theorem Marshal_output_layout (curve : CurveParams) x y data :
  Marshal curve x y = Return data ->
  len data = 1 + 2 * byteLen (BitSize curve) /\
  nth 0 data x00 = x04 /\
  safenum.SetBytes (slice 1 (1 + byteLen (BitSize curve)) data) = Z.abs x /\
  safenum.SetBytes (sliceFrom (1 + byteLen (BitSize curve)) data) = Z.abs y.
Proof.
  intros HM. apply Marshal_inv in HM. destruct HM as (Hb & Hx & Hy & ->).
  set (n := byteLen (BitSize curve)) in *.
  destruct (slices_of_encoding x04 (be_bytes (Z.to_nat n) (Z.abs x))
              (be_bytes (Z.to_nat n) (Z.abs y)) n (be_bytes_length _ _) Hb) as (-> & -> & _).
  rewrite !SetBytes_be_bytes, Z2Nat.id by exact Hb.
  rewrite !Z.mod_small by (split; [apply Z.abs_nonneg | assumption]).
  repeat split. unfold len. cbn [length]. rewrite length_app, !be_bytes_length. lia.
Qed.

Lemma Marshal_output_layout_witness :
  Marshal tiny 521 (-522) = Return [x04; x02; x09; x02; x0a] /\
  len [x04; x02; x09; x02; x0a] = 1 + 2 * byteLen (BitSize tiny) /\
  nth 0 [x04; x02; x09; x02; x0a] x00 = x04 /\
  safenum.SetBytes (slice 1 (1 + byteLen (BitSize tiny)) [x04; x02; x09; x02; x0a])
  = Z.abs 521 /\
  safenum.SetBytes (sliceFrom (1 + byteLen (BitSize tiny)) [x04; x02; x09; x02; x0a])
  = Z.abs (-522).
Proof.
  assert (HM : Marshal tiny 521 (-522) = Return [x04; x02; x09; x02; x0a]) by reflexivity.
  split; [exact HM|]. exact (Marshal_output_layout tiny 521 (-522) _ HM).
Defined.

(** X15: the compressed form: whenever [MarshalCompressed] returns, the
    output has 1 + byteLen bytes, its first byte is 0x02 for an even y and
    0x03 for an odd y, and the rest reads back as the absolute value of x. *)
Theorem MarshalCompressed_output_layout (curve : CurveParams) x y data :
  MarshalCompressed curve x y = Return data ->
  len data = 1 + byteLen (BitSize curve) /\
  nth 0 data x00 = (if Z.odd y then x03 else x02) /\
  safenum.SetBytes (sliceFrom 1 data) = Z.abs x.
Proof.
  intros HM. apply MarshalCompressed_inv in HM. destruct HM as (Hb & Hx & ->).
  set (n := byteLen (BitSize curve)) in *.
  unfold sliceFrom. change (Z.to_nat 1) with 1%nat. cbn [skipn nth].
  rewrite SetBytes_be_bytes, Z2Nat.id by exact Hb.
  rewrite Z.mod_small by (split; [apply Z.abs_nonneg | assumption]).
  repeat split. unfold len. cbn [length]. rewrite be_bytes_length. lia.
Qed.

Lemma MarshalCompressed_output_layout_witness :
  MarshalCompressed tiny 521 522 = Return [x02; x02; x09] /\
  len [x02; x02; x09] = 1 + byteLen (BitSize tiny) /\
  nth 0 [x02; x02; x09] x00 = (if Z.odd 522 then x03 else x02) /\
  safenum.SetBytes (sliceFrom 1 [x02; x02; x09]) = Z.abs 521.
Proof.
  assert (HM : MarshalCompressed tiny 521 522 = Return [x02; x02; x09]) by reflexivity.
  split; [exact HM|]. exact (MarshalCompressed_output_layout tiny 521 522 _ HM).
Defined.

(** X16: for a bit size between 0 and 2^63 - 8, [Marshal] panics exactly when
    the absolute value of x or of y does not fit in byteLen bytes, and
    [MarshalCompressed] exactly when that of x does not; y is never an
    obstacle there. *)
Theorem Marshal_panics_exactly (curve : CurveParams) x y :
  0 <= BitSize curve <= 2 ^ 63 - 8 ->
  (Marshal curve x y = Panic
   <-> 256 ^ ceil8 (BitSize curve) <= Z.abs x \/ 256 ^ ceil8 (BitSize curve) <= Z.abs y) /\
  (MarshalCompressed curve x y = Panic <-> 256 ^ ceil8 (BitSize curve) <= Z.abs x).
Proof.
  intros Hbits. pose proof (byteLen_bits _ Hbits) as [Hb _].
  rewrite <- (byteLen_ceil _ Hbits).
  unfold Marshal, MarshalCompressed, big.FillBytes. cbn [Curve.Params CurveParams_Curve].
  set (n := byteLen (BitSize curve)) in *. rewrite Z2Nat.id by exact Hb.
  destruct (Z.ltb_spec (1 + 2 * n) 0); [lia|].
  destruct (Z.leb_spec (1 + n) 0); [lia|].
  destruct (Z.ltb_spec (Z.abs x) (256 ^ n)); destruct (Z.ltb_spec (Z.abs y) (256 ^ n));
    (split; split; intros Hc; try discriminate Hc; try reflexivity; try lia).
Qed.

Lemma Marshal_panics_exactly_witness :
  0 <= BitSize tiny <= 2 ^ 63 - 8 /\
  Marshal tiny 65536 1 = Panic /\ Marshal tiny 1 (-65536) = Panic /\
  MarshalCompressed tiny 65536 1 = Panic /\
  MarshalCompressed tiny 1 65536 = Return [x02; x00; x01].
Proof.
  assert (Hb : 0 <= BitSize tiny <= 2 ^ 63 - 8) by (cbn; lia).
  destruct (Marshal_panics_exactly tiny 65536 1 Hb) as [[_ H1] [_ H2]].
  destruct (Marshal_panics_exactly tiny 1 (-65536) Hb) as [[_ H3] _].
  split; [exact Hb|]. split; [|split; [|split]].
  - apply H1. left. vm_compute. discriminate.
  - apply H3. right. vm_compute. discriminate.
  - apply H2. vm_compute. discriminate.
  - reflexivity.
Defined.

Lemma Unmarshal_inv (curve : CurveParams) data x y :
  Unmarshal curve data = Some (x, y) ->
  len data = 1 + 2 * byteLen (BitSize curve) /\
  Z_of_byte (nth 0 data x00) = 4 /\
  x = safenum.SetBytes (slice 1 (1 + byteLen (BitSize curve)) data) /\
  y = safenum.SetBytes (sliceFrom (1 + byteLen (BitSize curve)) data) /\
  x < P curve /\ y < P curve /\ IsOnCurve curve x y = true.
Proof.
  unfold Unmarshal. cbn [Curve.Params Curve.IsOnCurve CurveParams_Curve].
  rewrite !CmpMod_geb.
  destruct (Z.eqb_spec (len data) (1 + 2 * byteLen (BitSize curve))); [|discriminate].
  destruct (Z.eqb_spec (Z_of_byte (nth 0 data x00)) 4); [|discriminate].
  cbn [negb].
  destruct (Z.leb_spec (P curve) (safenum.SetBytes (slice 1 (1 + byteLen (BitSize curve)) data)));
    [discriminate|].
  destruct (Z.leb_spec (P curve) (safenum.SetBytes (sliceFrom (1 + byteLen (BitSize curve)) data)));
    [discriminate|].
  cbn [orb].
  destruct (IsOnCurve curve _ _) eqn:Eon; [|discriminate].
  cbn [negb]. intros [= <- <-]. repeat split; trivial.
Qed.

Lemma split_encoding (data : list byte) n :
  0 <= n -> len data = 1 + 2 * n ->
  exists c a b, data = c :: a ++ b /\ length a = Z.to_nat n /\ length b = Z.to_nat n.
Proof.
  intros Hn Hlen. destruct data as [|c rest]; [unfold len in Hlen; cbn [length] in Hlen; lia|].
  exists c, (firstn (Z.to_nat n) rest), (skipn (Z.to_nat n) rest).
  unfold len in Hlen. cbn [length] in Hlen.
  rewrite firstn_skipn, length_firstn, length_skipn. repeat split; lia.
Qed.

(** X17: decoding and encoding again gives the input back: the bytes that
    [Unmarshal] accepts are exactly the bytes that [Marshal] produces for the
    decoded point, so every accepted point has one encoding only. *)
Theorem Unmarshal_then_Marshal (curve : CurveParams) data x y :
  Unmarshal curve data = Some (x, y) -> Marshal curve x y = Return data.
Proof.
  intros HU. apply Unmarshal_inv in HU.
  destruct HU as (Hlen & Htag & Hx & Hy & _).
  set (n := byteLen (BitSize curve)) in *.
  assert (Hn : 0 <= n) by (unfold len in Hlen; lia).
  destruct (split_encoding data n Hn Hlen) as (c & a & b & -> & Ha & Hb).
  destruct (slices_of_encoding c a b n Ha Hn) as (Ea & Eb & _).
  rewrite Ea in Hx. rewrite Eb in Hy. cbn [nth] in Htag.
  assert (Hc : c = x04) by (apply Z_of_byte_inj; rewrite Htag; reflexivity).
  pose proof (SetBytes_range a) as Ra. pose proof (SetBytes_range b) as Rb.
  unfold Marshal. cbn [Curve.Params CurveParams_Curve]. fold n.
  destruct (Z.ltb_spec (1 + 2 * n) 0); [lia|].
  rewrite !FillBytes_fits.
  - subst x y c. rewrite <- Ha at 1. rewrite <- Hb.
    rewrite !be_bytes_SetBytes. reflexivity.
  - subst y. rewrite <- Hb. exact Rb.
  - subst x. rewrite <- Ha. exact Ra.
Qed.

Lemma Unmarshal_then_Marshal_witness :
  Unmarshal tiny [x04; x02; x09; x02; x0a] = Some (521, 522) /\
  Marshal tiny 521 522 = Return [x04; x02; x09; x02; x0a].
Proof.
  assert (HU : Unmarshal tiny [x04; x02; x09; x02; x0a] = Some (521, 522)) by reflexivity.
  split; [exact HU|]. exact (Unmarshal_then_Marshal tiny _ 521 522 HU).
Defined.

(** X18: [Marshal] encodes any pair of non-negative numbers that fit, and
    [Unmarshal] is where the point is checked: the output of [Marshal] decodes
    to the same pair when both coordinates are below P and the point is on
    the curve, and to nothing otherwise. *)
Theorem Marshal_then_Unmarshal (curve : CurveParams) x y data :
  0 <= x -> 0 <= y ->
  Marshal curve x y = Return data ->
  Unmarshal curve data
  = if (x <? P curve) && (y <? P curve) && IsOnCurve curve x y then Some (x, y) else None.
Proof.
  intros Hx Hy HM. apply Marshal_inv in HM. destruct HM as (Hn & Fx & Fy & ->).
  rewrite (Z.abs_eq x), (Z.abs_eq y) in * by assumption.
  set (n := byteLen (BitSize curve)) in *.
  unfold Unmarshal. cbn [Curve.Params Curve.IsOnCurve CurveParams_Curve]. fold n.
  destruct (slices_of_encoding x04 (be_bytes (Z.to_nat n) x) (be_bytes (Z.to_nat n) y) n
              (be_bytes_length _ _) Hn) as (-> & -> & _).
  replace (len (x04 :: be_bytes (Z.to_nat n) x ++ be_bytes (Z.to_nat n) y) =? 1 + 2 * n)
    with true.
  2:{ symmetry. apply Z.eqb_eq. unfold len. cbn [length].
      rewrite length_app, !be_bytes_length. lia. }
  cbn [nth negb]. change (Z_of_byte x04 =? 4) with true. cbn [negb].
  rewrite !SetBytes_be_bytes, Z2Nat.id by exact Hn.
  rewrite !Z.mod_small by lia. rewrite !CmpMod_geb, !(Z.ltb_antisym (P curve)).
  destruct (P curve <=? x); cbn [negb andb orb]; [reflexivity|].
  destruct (P curve <=? y); cbn [negb andb orb]; [reflexivity|].
  destruct (IsOnCurve curve x y); reflexivity.
Qed.

Lemma Marshal_then_Unmarshal_witness :
  0 <= 1 /\ 0 <= 2 /\
  Marshal tiny 1 2 = Return [x04; x00; x01; x00; x02] /\
  Unmarshal tiny [x04; x00; x01; x00; x02] = None /\
  Marshal tiny 521 522 = Return [x04; x02; x09; x02; x0a] /\
  Unmarshal tiny [x04; x02; x09; x02; x0a] = Some (521, 522).
Proof.
  assert (H0 : 0 <= 1) by lia. assert (H0' : 0 <= 2) by lia.
  assert (H1 : 0 <= 521) by lia. assert (H2 : 0 <= 522) by lia.
  assert (HM : Marshal tiny 1 2 = Return [x04; x00; x01; x00; x02]) by reflexivity.
  assert (HG : Marshal tiny 521 522 = Return [x04; x02; x09; x02; x0a]) by reflexivity.
  split; [exact H0|]. split; [exact H0'|]. split; [exact HM|].
  split; [exact (Marshal_then_Unmarshal tiny 1 2 _ H0 H0' HM)|].
  split; [exact HG|]. exact (Marshal_then_Unmarshal tiny 521 522 _ H1 H2 HG).
Defined.

(** ** Compressed decoding as a whole *)

Lemma UnmarshalCompressed_inv ModSqrt (curve : CurveParams) data x y :
  UnmarshalCompressed ModSqrt curve data = Return (Some (x, y)) ->
  len data = 1 + byteLen (BitSize curve) /\
  (Z_of_byte (nth 0 data x00) = 2 \/ Z_of_byte (nth 0 data x00) = 3) /\
  safenum.SetBytes (sliceFrom 1 data) < P curve.
Proof.
  unfold UnmarshalCompressed. cbn [Curve.Params Curve.IsOnCurve CurveParams_Curve].
  destruct (Z.eqb_spec (len data) (1 + byteLen (BitSize curve))); [|discriminate].
  cbn [negb]. destruct data as [|c rest]; [discriminate|]. cbn [nth].
  destruct (Z.eqb_spec (Z_of_byte c) 2); destruct (Z.eqb_spec (Z_of_byte c) 3);
    cbn [negb andb]; try discriminate;
    (rewrite CmpMod_geb;
     destruct (Z.leb_spec (P curve) (safenum.SetBytes (sliceFrom 1 (c :: rest))));
     [discriminate|]; intros _; repeat split; tauto).
Qed.

(** X19: for a bit size between 0 and 2^63 - 8 and an odd positive P,
    [UnmarshalCompressed] never panics: it returns the absent point unless
    the length is 1 + byteLen, byte 0 is 0x02 or 0x03 and the decoded x is
    below P, and in that case what the root extraction and the final
    [IsOnCurve] test give. *)
Theorem UnmarshalCompressed_accepts_exactly ModSqrt (curve : CurveParams) data :
  0 <= BitSize curve <= 2 ^ 63 - 8 ->
  0 < P curve -> Z.odd (P curve) = true ->
  let tag := Z_of_byte (nth 0 data x00) in
  let x := safenum.SetBytes (sliceFrom 1 data) in
  UnmarshalCompressed ModSqrt curve data
  = Return (if (len data =? 1 + ceil8 (BitSize curve))
               && ((tag =? 2) || (tag =? 3)) && (x <? P curve)
            then decompress ModSqrt curve (nth 0 data x00) x
            else None).
Proof.
  intros Hbits Hp Hodd. cbv zeta.
  pose proof (byteLen_bits _ Hbits) as [Hn _]. rewrite <- (byteLen_ceil _ Hbits).
  destruct (Z.eqb_spec (len data) (1 + byteLen (BitSize curve))) as [Hlen | Hlen].
  - destruct ((Z_of_byte (nth 0 data x00) =? 2) || (Z_of_byte (nth 0 data x00) =? 3)) eqn:Etag.
    + destruct (Z.ltb_spec (safenum.SetBytes (sliceFrom 1 data)) (P curve)) as [Hx | Hx].
      * cbn [andb]. apply UnmarshalCompressed_accepted; trivial.
        apply orb_prop in Etag. rewrite !Z.eqb_eq in Etag. exact Etag.
      * cbn [andb]. unfold UnmarshalCompressed.
        cbn [Curve.Params Curve.IsOnCurve CurveParams_Curve].
        rewrite (proj2 (Z.eqb_eq _ _) Hlen). cbn [negb].
        destruct data as [|c rest]; [unfold len in Hlen; cbn [length] in Hlen; lia|].
        cbn [nth] in Etag. apply orb_prop in Etag.
        replace (negb (Z_of_byte c =? 2) && negb (Z_of_byte c =? 3)) with false
          by (destruct Etag as [-> | ->]; cbn; now rewrite ?andb_false_r).
        rewrite CmpMod_geb, (proj2 (Z.leb_le _ _) Hx). reflexivity.
    + cbn [andb]. unfold UnmarshalCompressed.
      cbn [Curve.Params Curve.IsOnCurve CurveParams_Curve].
      rewrite (proj2 (Z.eqb_eq _ _) Hlen). cbn [negb].
      destruct data as [|c rest]; [unfold len in Hlen; cbn [length] in Hlen; lia|].
      cbn [nth] in Etag. apply orb_false_elim in Etag. destruct Etag as [-> ->].
      reflexivity.
  - cbn [andb]. unfold UnmarshalCompressed.
    cbn [Curve.Params Curve.IsOnCurve CurveParams_Curve].
    now rewrite (proj2 (Z.eqb_neq _ _) Hlen).
Qed.

Lemma UnmarshalCompressed_accepts_exactly_witness :
  0 <= BitSize tiny <= 2 ^ 63 - 8 /\ 0 < P tiny /\ Z.odd (P tiny) = true /\
  UnmarshalCompressed ModSqrt3Mod4 tiny [x02; x02; x09] = Return (Some (521, 522)) /\
  UnmarshalCompressed ModSqrt3Mod4 tiny [] = Return None /\
  UnmarshalCompressed ModSqrt3Mod4 tiny [x04; x02; x09] = Return None /\
  UnmarshalCompressed ModSqrt3Mod4 tiny [x02; x02; x0b] = Return None.
Proof.
  assert (Hb : 0 <= BitSize tiny <= 2 ^ 63 - 8) by (cbn; lia).
  assert (Hp : 0 < P tiny) by reflexivity.
  assert (Ho : Z.odd (P tiny) = true) by reflexivity.
  split; [exact Hb|]. split; [exact Hp|]. split; [exact Ho|].
  split; [|split; [|split]].
  - exact (UnmarshalCompressed_accepts_exactly ModSqrt3Mod4 tiny [x02; x02; x09] Hb Hp Ho).
  - exact (UnmarshalCompressed_accepts_exactly ModSqrt3Mod4 tiny [] Hb Hp Ho).
  - exact (UnmarshalCompressed_accepts_exactly ModSqrt3Mod4 tiny [x04; x02; x09] Hb Hp Ho).
  - exact (UnmarshalCompressed_accepts_exactly ModSqrt3Mod4 tiny [x02; x02; x0b] Hb Hp Ho).
Defined.

(** X20: decoding a compressed point and compressing it again gives the
    input back, provided the decoded y is not zero (for y = 0 both tags are
    accepted and only 0x02 is produced). *)
Theorem UnmarshalCompressed_then_MarshalCompressed ModSqrt (curve : CurveParams) data x y :
  0 < P curve -> Z.odd (P curve) = true ->
  (forall a r, ModSqrt a (P curve) = Some r -> 0 <= r < P curve) ->
  UnmarshalCompressed ModSqrt curve data = Return (Some (x, y)) ->
  y <> 0 ->
  MarshalCompressed curve x y = Return data.
Proof.
  intros Hp Hodd Hrange HU Hy.
  destruct (UnmarshalCompressed_inv _ _ _ _ _ HU) as (Hlen & Htag & Hx).
  rewrite (UnmarshalCompressed_accepted ModSqrt curve data Hp Hodd Hlen Htag Hx) in HU.
  injection HU as HU.
  destruct (decompress_parity _ _ _ _ _ _ Hp Hodd Hrange HU) as (-> & _ & Hpar).
  destruct Hpar as [Hpar | Hpar]; [contradiction|].
  destruct data as [|c a]; [cbn in Htag; lia|]. cbn [nth] in *.
  set (n := byteLen (BitSize curve)) in *.
  assert (Ha : length a = Z.to_nat n /\ 0 <= n).
  { unfold len in Hlen. cbn [length] in Hlen. lia. }
  destruct Ha as [Ha Hn].
  unfold sliceFrom. change (Z.to_nat 1) with 1%nat. cbn [skipn].
  unfold MarshalCompressed. cbn [Curve.Params CurveParams_Curve]. fold n.
  destruct (Z.leb_spec (1 + n) 0); [lia|].
  pose proof (SetBytes_range a) as Ra.
  rewrite FillBytes_fits by (rewrite <- Ha; exact Ra).
  rewrite <- Ha, be_bytes_SetBytes, Bit_0_odd, Hpar. do 2 f_equal.
  apply Z_of_byte_inj. rewrite Z_of_byte_of_Z.
  destruct Htag as [-> | ->]; reflexivity.
Qed.

Lemma UnmarshalCompressed_then_MarshalCompressed_witness :
  0 < P tiny /\ Z.odd (P tiny) = true /\
  UnmarshalCompressed ModSqrt3Mod4 tiny [x02; x02; x09] = Return (Some (521, 522)) /\
  522 <> 0 /\
  MarshalCompressed tiny 521 522 = Return [x02; x02; x09].
Proof.
  assert (Hp : 0 < P tiny) by reflexivity.
  assert (Ho : Z.odd (P tiny) = true) by reflexivity.
  assert (HU : UnmarshalCompressed ModSqrt3Mod4 tiny [x02; x02; x09] = Return (Some (521, 522)))
    by reflexivity.
  assert (Hy : 522 <> 0) by lia.
  split; [exact Hp|]. split; [exact Ho|]. split; [exact HU|]. split; [exact Hy|].
  exact (UnmarshalCompressed_then_MarshalCompressed ModSqrt3Mod4 tiny _ 521 522 Hp Ho
           (fun a r => ModSqrt3Mod4_range a (P tiny) r Hp) HU Hy).
Defined.

(** ** From the engine to the wire *)

(** X21: what [ScalarMult] returns can be sent: for a prime P that fits the
    bit size and a base point on the curve, a result other than (0, 0) is
    encoded by [Marshal] without a panic and decoded by [Unmarshal] to the
    same point. *)
Theorem ScalarMult_result_round_trips curve Bx By k x y :
  Z.prime (P curve) ->
  0 <= BitSize curve <= 2 ^ 63 - 8 -> P curve <= 2 ^ BitSize curve ->
  IsOnCurve curve Bx By = true ->
  ScalarMult curve Bx By k = (x, y) -> (x, y) <> (0, 0) ->
  exists data, Marshal curve x y = Return data /\ Unmarshal curve data = Some (x, y).
Proof.
  intros Hprime Hbits Hfit HB HS Hnz. pose proof (prime_gt_1 _ Hprime) as Hp.
  apply IsOnCurve_iff in HB.
  pose proof (ScalarMult_on_curve curve Hp Bx By HB Hprime k) as Hon.
  assert (Hr : 0 <= x < P curve /\ 0 <= y < P curve).
  { revert HS. unfold ScalarMult. cbv zeta. destruct (fold_left _ _ _) as [[X Y] Z].
    pose proof (affineFromJacobian_range curve X Y Z ltac:(lia)) as Hr.
    intros HS. rewrite HS in Hr. exact Hr. }
  rewrite HS in Hon. destruct Hon as [Hon | Hon]; [|contradiction].
  apply Marshal_Unmarshal; trivial; lia.
Qed.

Lemma ScalarMult_result_round_trips_witness :
  Z.prime (P tiny) /\ 0 <= BitSize tiny <= 2 ^ 63 - 8 /\ P tiny <= 2 ^ BitSize tiny /\
  IsOnCurve tiny 521 522 = true /\ ScalarMult tiny 521 522 [x07] = (273, 208) /\
  (exists data, Marshal tiny 273 208 = Return data /\ Unmarshal tiny data = Some (273, 208)).
Proof.
  assert (Hb : 0 <= BitSize tiny <= 2 ^ 63 - 8) by (cbn; lia).
  assert (Hf : P tiny <= 2 ^ BitSize tiny) by (cbn; lia).
  assert (HS : ScalarMult tiny 521 522 [x07] = (273, 208)) by reflexivity.
  split; [exact tiny_prime|]. split; [exact Hb|]. split; [exact Hf|].
  split; [reflexivity|]. split; [exact HS|].
  refine (ScalarMult_result_round_trips tiny 521 522 [x07] 273 208 tiny_prime Hb Hf eq_refl HS _).
  intros H. discriminate H.
Defined.

(** ** Key generation: failure of the source, short orders, buffer lengths *)

Section LoopOutcomes.
Context {C : Type} `{Curve.t C}.
Variable curve : C.
Variable rand : Reader.
Let n := N (Curve.Params curve).
Let L := privLen n.

Lemma generateLoop_fails fuel i k priv0 :
  length priv0 = L -> (i < k -> 2 <= L)%nat ->
  (i <= k < i + fuel)%nat ->
  draw rand (k * L) L = None ->
  (forall j, (i <= j < k)%nat ->
     exists dj, draw rand (j * L) L = Some dj /\ n <= safenum.SetBytes (tweak n dj)) ->
  match generateLoop fuel curve n (safenum.BitLen n) rand (i * L) priv0 with
  | Some (KeyErr buf) => length buf = L
  | _ => False
  end.
Proof.
  unfold L, n in *. revert i priv0.
  induction fuel as [|fuel IH]; intros i priv0 Hlen HL Hk Ed Hbefore; [lia|].
  rewrite generateLoop_step by exact Hlen.
  destruct (Nat.eq_dec i k) as [-> | Hne].
  - rewrite Ed. now rewrite ReadFull_length.
  - destruct (Hbefore i ltac:(lia)) as (di & Edi & Hge).
    rewrite Edi, (proj2 (Z.leb_le _ _) Hge).
    replace (_ <? 2)%nat with false by (symmetry; apply Nat.ltb_ge; lia).
    replace (i * _ + _)%nat with (S i * privLen (N (Curve.Params curve)))%nat by lia.
    apply IH; trivial.
    + rewrite tweak_length. eapply draw_length, Edi.
    + intros _. apply HL. lia.
    + lia.
    + intros j Hj. apply Hbefore. lia.
Qed.

Lemma generateLoop_shape fuel pos priv0 r :
  length priv0 = L ->
  generateLoop fuel curve n (safenum.BitLen n) rand pos priv0 = Some r ->
  match r with
  | KeyOk priv _ _ => length priv = L /\ (2 <= L)%nat
  | KeyErr priv => length priv = L
  | KeyPanic => (L < 2)%nat
  end.
Proof.
  unfold L, n in *. revert pos priv0.
  induction fuel as [|fuel IH]; intros pos priv0 Hlen; [discriminate|].
  rewrite generateLoop_step by exact Hlen.
  destruct (draw rand pos _) as [d|] eqn:Ed.
  - destruct (Nat.ltb_spec (privLen (N (Curve.Params curve))) 2) as [Hs | Hs]; [now intros [= <-]|].
    apply draw_length in Ed.
    destruct (_ <=? safenum.SetBytes _).
    + apply IH. now rewrite tweak_length.
    + destruct (Curve.ScalarBaseMult curve _) as [x y].
      intros [= <-]. now rewrite tweak_length.
  - intros [= <-]. now rewrite ReadFull_length.
Qed.

Lemma generateLoop_short fuel pos priv0 d :
  length priv0 = L -> (L < 2)%nat -> draw rand pos L = Some d ->
  generateLoop (S fuel) curve n (safenum.BitLen n) rand pos priv0 = Some KeyPanic.
Proof.
  unfold L, n in *. intros Hlen Hs Ed. rewrite generateLoop_step by exact Hlen. rewrite Ed.
  now rewrite (proj2 (Nat.ltb_lt _ _) Hs).
Qed.
End LoopOutcomes.

(** X22: a failing source ends [GenerateKey] with the error and no point:
    when the draws before the k-th were complete and out of range and the
    source cannot deliver the k-th draw in full, the result is the error
    together with the buffer, still of byteLen bytes; no further draw is
    attempted. *)
Theorem GenerateKey_source_failure (curve : CurveParams) (rand : Reader) fuel k :
  let n := N curve in
  let L := privLen n in
  (k < fuel)%nat -> (0 < k -> 2 <= L)%nat ->
  (forall j, (j < k)%nat ->
     exists dj, draw rand (j * L) L = Some dj /\ n <= safenum.SetBytes (tweak n dj)) ->
  draw rand (k * L) L = None ->
  exists buf, GenerateKey curve rand fuel = Some (KeyErr buf) /\ length buf = L.
Proof.
  cbv zeta. intros Hk HL Hbefore Ed. rewrite GenerateKey_loop.
  pose proof (generateLoop_fails (C := CurveParams) curve rand fuel 0 k
                (repeat x00 (privLen (N curve)))) as Hf.
  cbn [Curve.Params CurveParams_Curve] in Hf.
  destruct (generateLoop fuel curve (N curve) (safenum.BitLen (N curve)) rand
              (0 * privLen (N curve)) (repeat x00 (privLen (N curve)))) as [[| buf |]|].
  - exfalso. apply Hf; trivial; try lia. apply repeat_length.
    intros j Hj. apply Hbefore. lia.
  - exists buf. split; [reflexivity|]. apply Hf; trivial; try lia. apply repeat_length.
    intros j Hj. apply Hbefore. lia.
  - exfalso. apply Hf; trivial; try lia. apply repeat_length.
    intros j Hj. apply Hbefore. lia.
  - exfalso. apply Hf; trivial; try lia. apply repeat_length.
    intros j Hj. apply Hbefore. lia.
Qed.

Lemma GenerateKey_source_failure_witness :
  draw (bytesReader [x01; x01; x00]) (0 * privLen (N tiny)) (privLen (N tiny)) = Some [x01; x01] /\
  N tiny <= safenum.SetBytes (tweak (N tiny) [x01; x01]) /\
  draw (bytesReader [x01; x01; x00]) (1 * privLen (N tiny)) (privLen (N tiny)) = None /\
  GenerateKey tiny (bytesReader [x01; x01; x00]) 5 = Some (KeyErr [x00; x43]) /\
  (exists buf, GenerateKey tiny (bytesReader [x01; x01; x00]) 5 = Some (KeyErr buf)
               /\ length buf = privLen (N tiny)).
Proof.
  assert (E0 : draw (bytesReader [x01; x01; x00]) (0 * privLen (N tiny)) (privLen (N tiny))
               = Some [x01; x01]) by reflexivity.
  assert (Hge : N tiny <= safenum.SetBytes (tweak (N tiny) [x01; x01]))
    by (vm_compute; discriminate).
  assert (E1 : draw (bytesReader [x01; x01; x00]) (1 * privLen (N tiny)) (privLen (N tiny))
               = None) by reflexivity.
  split; [exact E0|]. split; [exact Hge|]. split; [exact E1|]. split; [reflexivity|].
  refine (GenerateKey_source_failure tiny (bytesReader [x01; x01; x00]) 5 1 _ _ _ E1).
  - lia.
  - intros _. vm_compute. lia.
  - intros j Hj. assert (j = 0%nat) as -> by lia. exists [x01; x01]. split; [exact E0 | exact Hge].
Defined.

(** X23: what [GenerateKey] hands back: a returned private key, and the
    buffer returned with an error, always has the byteLen bytes of the order;
    a key is only returned when that is at least 2, and the run stops with a
    panic only when it is less than 2. *)
Theorem GenerateKey_result_shape (curve : CurveParams) (rand : Reader) fuel r :
  GenerateKey curve rand fuel = Some r ->
  match r with
  | KeyOk priv _ _ => length priv = privLen (N curve) /\ (2 <= privLen (N curve))%nat
  | KeyErr priv => length priv = privLen (N curve)
  | KeyPanic => (privLen (N curve) < 2)%nat
  end.
Proof.
  rewrite GenerateKey_loop. intros Hrun.
  pose proof (generateLoop_shape (C := CurveParams) curve rand fuel
                (0 * privLen (N curve)) (repeat x00 (privLen (N curve))) r) as Hs.
  cbn [Curve.Params CurveParams_Curve] in Hs.
  apply Hs; [apply repeat_length | exact Hrun].
Qed.

Lemma GenerateKey_result_shape_witness :
  GenerateKey tiny (bytesReader [x01; x01; x00; x45]) 2 = Some (KeyOk [x00; x07] 273 208) /\
  length [x00; x07] = privLen (N tiny) /\ (2 <= privLen (N tiny))%nat.
Proof.
  assert (HG : GenerateKey tiny (bytesReader [x01; x01; x00; x45]) 2
               = Some (KeyOk [x00; x07] 273 208)) by reflexivity.
  split; [exact HG|].
  exact (GenerateKey_result_shape tiny _ 2 _ HG).
Defined.

Lemma BitLen_le_8 n : 0 <= n < 256 -> safenum.BitLen n <= 8.
Proof.
  intros Hn. unfold safenum.BitLen. destruct (Z.eqb_spec n 0); [lia|].
  assert (Z.log2 n < 8) by (apply Z.log2_lt_pow2; lia). lia.
Qed.

Lemma privLen_short n : 0 <= n < 256 -> (privLen n < 2)%nat.
Proof.
  intros Hn. pose proof (BitLen_le_8 n Hn) as Hb. pose proof (BitLen_nonneg n) as H0.
  unfold privLen. rewrite byteLen_ceil by lia. unfold ceil8.
  assert (- 1 <= - safenum.BitLen n / 8).
  { apply Z.div_le_lower_bound; lia. }
  lia.
Qed.

(** X24: an order below 256 is not supported: the private key has fewer
    than two bytes then, and as soon as the source delivers the first draw
    [GenerateKey] stops with an index out of range instead of returning. *)
Theorem GenerateKey_panics_on_short_order (curve : CurveParams) (rand : Reader) fuel d :
  0 <= N curve < 256 ->
  draw rand 0 (privLen (N curve)) = Some d ->
  GenerateKey curve rand (S fuel) = Some KeyPanic.
Proof.
  intros Hn Ed. rewrite GenerateKey_loop.
  pose proof (generateLoop_short (C := CurveParams) curve rand fuel
                (0 * privLen (N curve)) (repeat x00 (privLen (N curve))) d) as Hs.
  cbn [Curve.Params CurveParams_Curve] in Hs.
  apply Hs; [apply repeat_length | now apply privLen_short | exact Ed].
Qed.

Lemma GenerateKey_panics_on_short_order_witness :
  0 <= N tinyTwo < 256 /\
  draw (bytesReader [xff]) 0 (privLen (N tinyTwo)) = Some [xff] /\
  GenerateKey tinyTwo (bytesReader [xff]) 1 = Some KeyPanic.
Proof.
  assert (Hn : 0 <= N tinyTwo < 256) by (cbn; lia).
  assert (Ed : draw (bytesReader [xff]) 0 (privLen (N tinyTwo)) = Some [xff]) by reflexivity.
  split; [exact Hn|]. split; [exact Ed|].
  exact (GenerateKey_panics_on_short_order tinyTwo (bytesReader [xff]) 0 [xff] Hn Ed).
Defined.

(** ** Key generation: the mask, the xor and the all-zero source *)

Lemma SetBytes_cons c bs :
  safenum.SetBytes (c :: bs) = Z_of_byte c * 256 ^ Z.of_nat (length bs) + safenum.SetBytes bs.
Proof.
  change (c :: bs) with ([c] ++ bs). rewrite SetBytes_app.
  assert (safenum.SetBytes [c] = Z_of_byte c) as ->
    by (unfold safenum.SetBytes; cbn [fold_left]; lia).
  reflexivity.
Qed.

Lemma SetBytes_zeros k : safenum.SetBytes (repeat x00 k) = 0.
Proof.
  induction k as [|k IH]; [reflexivity|].
  cbn [repeat]. rewrite SetBytes_cons, IH. change (Z_of_byte x00) with 0. lia.
Qed.

Lemma draw_zero_source pos k : draw (fun _ => Some x00) pos k = Some (repeat x00 k).
Proof.
  revert pos. induction k as [|k IH]; intros pos; [reflexivity|].
  cbn [draw repeat]. now rewrite IH.
Qed.

(** The byte length L of an order of at least 9 bits: 8(L-1) < bits <= 8L. *)
Lemma privLen_bits n :
  256 <= n -> safenum.BitLen n <= 2 ^ 63 - 8 ->
  (2 <= privLen n)%nat /\
  8 * (Z.of_nat (privLen n) - 1) < safenum.BitLen n <= 8 * Z.of_nat (privLen n) /\
  2 ^ (safenum.BitLen n - 1) <= n.
Proof.
  intros Hn Hb.
  assert (Hlog : 8 <= Z.log2 n).
  { change 8 with (Z.log2 256). apply Z.log2_le_mono. lia. }
  assert (HB : safenum.BitLen n = Z.log2 n + 1).
  { unfold safenum.BitLen. destruct (Z.eqb_spec n 0); [lia | reflexivity]. }
  assert (Hc : byteLen (safenum.BitLen n) = ceil8 (safenum.BitLen n))
    by (apply byteLen_ceil; lia).
  unfold privLen. rewrite Hc. unfold ceil8.
  pose proof (Z.div_mod (- safenum.BitLen n) 8 ltac:(lia)) as Hdm.
  pose proof (Z.mod_pos_bound (- safenum.BitLen n) 8 ltac:(lia)) as Hm.
  split; [lia|]. split; [lia|].
  rewrite HB. replace (Z.log2 n + 1 - 1) with (Z.log2 n) by lia.
  apply Z.log2_spec. lia.
Qed.

Lemma mask_keeps_low_bits b t :
  0 <= t < 8 ->
  0 <= Z.land b (nth (Z.to_nat t) mask 0) < 2 ^ (if t =? 0 then 8 else t).
Proof.
  intros Ht.
  assert (Hc : t = 0 \/ t = 1 \/ t = 2 \/ t = 3 \/ t = 4 \/ t = 5 \/ t = 6 \/ t = 7) by lia.
  destruct Hc as [-> | [-> | [-> | [-> | [-> | [-> | [-> | ->]]]]]]];
    cbn [Z.eqb Z.to_nat Pos.to_nat Pos.iter_op Nat.add nth mask];
    match goal with |- _ <= Z.land b ?m < 2 ^ ?k =>
      change m with (Z.ones k); rewrite Z.land_ones by lia; apply Z.mod_pos_bound; lia
    end.
Qed.

Lemma tweak_bound n d :
  256 <= n -> safenum.BitLen n <= 2 ^ 63 - 8 ->
  length d = privLen n ->
  0 <= safenum.SetBytes (tweak n d) < 2 ^ safenum.BitLen n.
Proof.
  intros Hn Hb Hlen. destruct (privLen_bits n Hn Hb) as (HL & Hbits & _).
  split; [apply SetBytes_range|].
  destruct d as [|d0 [|d1 rest]]; [cbn in Hlen; lia | cbn in Hlen; lia |].
  cbn [tweak]. set (tl := _ :: rest).
  assert (Htl : Z.of_nat (length tl) = Z.of_nat (privLen n) - 1).
  { subst tl. cbn [length] in *. lia. }
  rewrite SetBytes_cons, Htl. pose proof (SetBytes_range tl) as Rt. rewrite Htl in Rt.
  set (t := safenum.BitLen n mod 8).
  pose proof (Z.mod_pos_bound (safenum.BitLen n) 8 ltac:(lia)) as Ht. fold t in Ht.
  pose proof (mask_keeps_low_bits (Z_of_byte d0) t Ht) as Hm.
  set (m := Z.land (Z_of_byte d0) (nth (Z.to_nat t) mask 0)) in *.
  set (t' := if t =? 0 then 8 else t) in *.
  assert (Ht' : 1 <= t' <= 8) by (subst t'; destruct (Z.eqb_spec t 0); lia).
  assert (Hsum : safenum.BitLen n = 8 * (Z.of_nat (privLen n) - 1) + t').
  { pose proof (Z.div_mod (safenum.BitLen n) 8 ltac:(lia)) as Hdm. fold t in Hdm.
    subst t'. destruct (Z.eqb_spec t 0); lia. }
  assert (Hm256 : m < 256).
  { apply Z.lt_le_trans with (2 ^ t'); [lia|].
    change 256 with (2 ^ 8). apply Z.pow_le_mono_r; lia. }
  rewrite Z_of_byte_of_Z, Z.mod_small by lia.
  rewrite Hsum, Z.pow_add_r, Z.pow_mul_r by lia. change (2 ^ 8) with 256.
  set (q := 256 ^ (Z.of_nat (privLen n) - 1)) in *.
  assert (0 < q) by (subst q; apply Z.pow_pos_nonneg; lia).
  nia.
Qed.

(** X25: the all-zero source of the tests does not make [GenerateKey] loop:
    for an order of at least 256, the xor of byte 1 with 0x42 turns the
    all-zero draw into 0x42 followed by zeros, which is below N, so the first
    round returns that scalar and its public point. *)
Theorem GenerateKey_on_zero_source (curve : CurveParams) fuel :
  256 <= N curve -> safenum.BitLen (N curve) <= 2 ^ 63 - 8 ->
  GenerateKey curve (fun _ => Some x00) (S fuel)
  = Some (KeyOk (x00 :: x42 :: repeat x00 (privLen (N curve) - 2))
            (fst (ScalarBaseMult curve (x00 :: x42 :: repeat x00 (privLen (N curve) - 2))))
            (snd (ScalarBaseMult curve (x00 :: x42 :: repeat x00 (privLen (N curve) - 2))))) /\
  safenum.SetBytes (x00 :: x42 :: repeat x00 (privLen (N curve) - 2))
  = 66 * 256 ^ Z.of_nat (privLen (N curve) - 2) /\
  66 * 256 ^ Z.of_nat (privLen (N curve) - 2) < N curve.
Proof.
  intros Hn Hb. destruct (privLen_bits _ Hn Hb) as (HL & Hbits & Hpow).
  set (L := privLen (N curve)) in *.
  assert (Htw : tweak (N curve) (repeat x00 L) = x00 :: x42 :: repeat x00 (L - 2)).
  { destruct L as [|[|m]]; [lia | lia |]. cbn [repeat tweak]. rewrite !Nat.sub_succ, Nat.sub_0_r.
    reflexivity. }
  assert (Hval : safenum.SetBytes (x00 :: x42 :: repeat x00 (L - 2))
                 = 66 * 256 ^ Z.of_nat (L - 2)).
  { rewrite !SetBytes_cons, SetBytes_zeros, repeat_length.
    change (Z_of_byte x00) with 0. change (Z_of_byte x42) with 66. lia. }
  assert (Hlt : 66 * 256 ^ Z.of_nat (L - 2) < N curve).
  { apply Z.lt_le_trans with (2 ^ (safenum.BitLen (N curve) - 1)); [|exact Hpow].
    apply Z.lt_le_trans with (2 ^ (8 * (Z.of_nat L - 1))).
    - replace (8 * (Z.of_nat L - 1)) with (8 * 1 + 8 * Z.of_nat (L - 2)) by lia.
      rewrite Z.pow_add_r, (Z.pow_mul_r 2 8 (Z.of_nat (L - 2))) by lia.
      change (2 ^ 8) with 256. change (2 ^ (8 * 1)) with 256.
      assert (0 < 256 ^ Z.of_nat (L - 2)) by (apply Z.pow_pos_nonneg; lia).
      lia.
    - apply Z.pow_le_mono_r; lia. }
  split; [|split; [exact Hval | exact Hlt]].
  rewrite GenerateKey_loop, <- Htw. fold L.
  pose proof (generateLoop_returns (C := CurveParams) curve (fun _ => Some x00) (S fuel) 0 0
                (repeat x00 L) (repeat x00 L)) as Hr.
  cbn [Curve.Params Curve.ScalarBaseMult CurveParams_Curve] in Hr. fold L in Hr.
  apply Hr.
  - apply repeat_length.
  - exact HL.
  - lia.
  - apply draw_zero_source.
  - rewrite Htw, Hval. exact Hlt.
  - intros j Hj. lia.
Qed.

Lemma GenerateKey_on_zero_source_witness :
  256 <= N tiny /\ safenum.BitLen (N tiny) <= 2 ^ 63 - 8 /\
  GenerateKey tiny (fun _ => Some x00) 1 = Some (KeyOk [x00; x42] 138 307) /\
  safenum.SetBytes [x00; x42] = 66 /\ 66 < N tiny.
Proof.
  assert (Hn : 256 <= N tiny) by (cbn; lia).
  assert (Hb : safenum.BitLen (N tiny) <= 2 ^ 63 - 8) by (vm_compute; discriminate).
  split; [exact Hn|]. split; [exact Hb|].
  exact (GenerateKey_on_zero_source tiny 0 Hn Hb).
Defined.

(** X26: the mask does its work: for an order of at least 256, the number
    that the first round compares with N, read from the drawn bytes after
    the mask and the xor, has no more bits than N, so it is below twice N;
    the round returns it when it is below N and starts another draw
    otherwise. *)
Theorem GenerateKey_candidate_fits_order_bits (curve : CurveParams) (rand : Reader) d :
  256 <= N curve -> safenum.BitLen (N curve) <= 2 ^ 63 - 8 ->
  draw rand 0 (privLen (N curve)) = Some d ->
  GenerateKey curve rand 1
  = (if N curve <=? safenum.SetBytes (tweak (N curve) d) then None
     else Some (KeyOk (tweak (N curve) d)
                  (fst (ScalarBaseMult curve (tweak (N curve) d)))
                  (snd (ScalarBaseMult curve (tweak (N curve) d))))) /\
  0 <= safenum.SetBytes (tweak (N curve) d) < 2 ^ safenum.BitLen (N curve) /\
  2 ^ safenum.BitLen (N curve) <= 2 * N curve.
Proof.
  intros Hn Hb Ed. destruct (privLen_bits _ Hn Hb) as (HL & Hbits & Hpow).
  split; [|split].
  - rewrite GenerateKey_loop.
    pose proof (generateLoop_step (C := CurveParams) curve rand 0 (0 * privLen (N curve))
                  (repeat x00 (privLen (N curve)))) as Hs.
    cbn [Curve.Params Curve.ScalarBaseMult CurveParams_Curve] in Hs.
    rewrite Hs by apply repeat_length. cbn [Nat.mul]. rewrite Ed.
    replace (privLen (N curve) <? 2)%nat with false by (symmetry; apply Nat.ltb_ge; lia).
    destruct (N curve <=? safenum.SetBytes (tweak (N curve) d)); [reflexivity|].
    now destruct (ScalarBaseMult curve (tweak (N curve) d)).
  - apply tweak_bound; trivial. eapply draw_length, Ed.
  - replace (safenum.BitLen (N curve)) with (1 + (safenum.BitLen (N curve) - 1)) by lia.
    rewrite Z.pow_add_r by lia. change (2 ^ 1) with 2. lia.
Qed.

Lemma GenerateKey_candidate_fits_order_bits_witness :
  256 <= N tiny /\ safenum.BitLen (N tiny) <= 2 ^ 63 - 8 /\
  draw (bytesReader [xff; xff]) 0 (privLen (N tiny)) = Some [xff; xff] /\
  tweak (N tiny) [xff; xff] = [x01; xbd] /\
  GenerateKey tiny (bytesReader [xff; xff]) 1 = None /\
  0 <= safenum.SetBytes [x01; xbd] < 2 ^ safenum.BitLen (N tiny) /\
  2 ^ safenum.BitLen (N tiny) <= 2 * N tiny.
Proof.
  assert (Hn : 256 <= N tiny) by (cbn; lia).
  assert (Hb : safenum.BitLen (N tiny) <= 2 ^ 63 - 8) by (vm_compute; discriminate).
  assert (Ed : draw (bytesReader [xff; xff]) 0 (privLen (N tiny)) = Some [xff; xff])
    by reflexivity.
  split; [exact Hn|]. split; [exact Hb|]. split; [exact Ed|]. split; [reflexivity|].
  exact (GenerateKey_candidate_fits_order_bits tiny (bytesReader [xff; xff]) [xff; xff] Hn Hb Ed).
Defined.

(** ** The results of the engine over mutable numbers are new objects *)

Lemma Mem_affineFromJacobian_fresh curve h x y z :
  Mem.valid h x -> Mem.valid h y -> Mem.valid h z ->
  exists xOut yOut ext,
    Mem.affineFromJacobian curve x y z h = ((xOut, yOut), h ++ ext) /\
    (length h <= xOut < length (h ++ ext))%nat /\
    (length h <= yOut < length (h ++ ext))%nat /\
    xOut <> yOut.
Proof.
  intros Hx Hy Hz.
  destruct (safenum.EqZero (Mem.val h z)) eqn:E;
    do 3 eexists; (split;
      [ rewrite <- (app_nil_r h) at 1; unfold Mem.affineFromJacobian; mem_run; rewrite E;
        mem_run; unfold Mem.ret; reflexivity
      | rewrite ?length_app; cbn [length]; repeat split; lia ]).
Qed.

Section MemFresh.
Variable curve : Mem.CurveParams.

Lemma Mem_Add_fresh h x1 y1 x2 y2 :
  validCurve h curve ->
  Mem.valid h x1 -> Mem.valid h y1 -> Mem.valid h x2 -> Mem.valid h y2 ->
  exists x3 y3 ext,
    Mem.Add curve x1 y1 x2 y2 h = ((x3, y3), h ++ ext) /\
    (length h <= x3 < length (h ++ ext))%nat /\
    (length h <= y3 < length (h ++ ext))%nat /\
    x3 <> y3.
Proof.
  intros Hc Hx1 Hy1 Hx2 Hy2. unfold Mem.Add, Mem.bind.
  destruct (Mem_zForAffine_spec h x1 y1) as (z1 & e1 & E1 & Vz1 & Hz1); trivial.
  rewrite E1.
  destruct (Mem_zForAffine_spec (h ++ e1) x2 y2) as (z2 & e2 & E2 & Vz2 & Hz2);
    [frame_valid ..|].
  rewrite E2.
  destruct (Mem_addJacobian_spec curve ((h ++ e1) ++ e2) x1 y1 z1 x2 y2 z2)
    as (x3 & y3 & z3 & e3 & E3 & Vx3 & Vy3 & Vz3 & H3); [frame_valid ..|].
  rewrite E3.
  destruct (Mem_affineFromJacobian_fresh curve (((h ++ e1) ++ e2) ++ e3) x3 y3 z3)
    as (xo & yo & e4 & E4 & Fx & Fy & Hd); trivial.
  rewrite E4.
  exists xo, yo, (e1 ++ e2 ++ e3 ++ e4). rewrite !app_assoc.
  split; [reflexivity|]. rewrite !length_app in *. repeat split; trivial; lia.
Qed.

Lemma Mem_Double_fresh h x1 y1 :
  validCurve h curve ->
  Mem.valid h x1 -> Mem.valid h y1 ->
  exists x3 y3 ext,
    Mem.Double curve x1 y1 h = ((x3, y3), h ++ ext) /\
    (length h <= x3 < length (h ++ ext))%nat /\
    (length h <= y3 < length (h ++ ext))%nat /\
    x3 <> y3.
Proof.
  intros Hc Hx1 Hy1. unfold Mem.Double, Mem.bind.
  destruct (Mem_zForAffine_spec h x1 y1) as (z1 & e1 & E1 & Vz1 & Hz1); trivial.
  rewrite E1.
  destruct (Mem_doubleJacobian_spec curve (h ++ e1) x1 y1 z1)
    as (x3 & y3 & z3 & e3 & E3 & Vx3 & Vy3 & Vz3 & H3); [frame_valid ..|].
  rewrite E3.
  destruct (Mem_affineFromJacobian_fresh curve ((h ++ e1) ++ e3) x3 y3 z3)
    as (xo & yo & e4 & E4 & Fx & Fy & Hd); trivial.
  rewrite E4.
  exists xo, yo, (e1 ++ e3 ++ e4). rewrite !app_assoc.
  split; [reflexivity|]. rewrite !length_app in *. repeat split; trivial; lia.
Qed.

Lemma Mem_ScalarMult_fresh h Bx By k :
  validCurve h curve ->
  Mem.valid h Bx -> Mem.valid h By ->
  exists x y ext,
    Mem.ScalarMult curve Bx By k h = ((x, y), h ++ ext) /\
    (length h <= x < length (h ++ ext))%nat /\
    (length h <= y < length (h ++ ext))%nat /\
    x <> y.
Proof.
  intros Hc HBx HBy.
  assert (Erun : Mem.ScalarMult curve Bx By k h
                 = Mem.bind (Mem.scalarBytes curve Bx By (length h + 0)%nat k
                               (length h + 1, length h + 2, length h + 3)%nat)
                     (fun '(x, y, z) => Mem.affineFromJacobian curve x y z)
                     (h ++ [safenum.SetUint64 1; 0; 0; 0])).
  { rewrite <- (app_nil_r h) at 1. unfold Mem.ScalarMult. mem_run. reflexivity. }
  rewrite Erun. unfold Mem.bind.
  set (h0 := h ++ [safenum.SetUint64 1; 0; 0; 0]).
  assert (Hlen : length h0 = (length h + 4)%nat) by (subst h0; rewrite length_app; reflexivity).
  destruct (Mem_scalarBytes_spec curve k h0 Bx By (length h + 0)%nat
              (length h + 1)%nat (length h + 2)%nat (length h + 3)%nat)
    as (x1 & y1 & z1 & e1 & E1 & Vx1 & Vy1 & Vz1 & H1);
    try (unfold Mem.valid; lia); try (subst h0; frame_valid).
  unfold Mem.ptr in *. rewrite E1.
  destruct (Mem_affineFromJacobian_fresh curve (h0 ++ e1) x1 y1 z1)
    as (xo & yo & e2 & E2 & Fx & Fy & Hd); trivial.
  rewrite E2.
  exists xo, yo, ([safenum.SetUint64 1; 0; 0; 0] ++ e1 ++ e2).
  subst h0. rewrite !app_assoc. split; [reflexivity|].
  rewrite !length_app in *. repeat split; trivial; lia.
Qed.
End MemFresh.

(** X27: the two numbers returned by [Add], [Double], [ScalarMult] and
    [ScalarBaseMult] are objects allocated during the call and distinct from
    each other: the store only grows, and the results are never an argument,
    a parameter of the curve or any number that existed before the call. *)
Theorem Mem_results_are_new_objects (curve : Mem.CurveParams) (h : Mem.heap) :
  validCurve h curve ->
  (forall x1 y1 x2 y2,
     Mem.valid h x1 -> Mem.valid h y1 -> Mem.valid h x2 -> Mem.valid h y2 ->
     exists x3 y3 ext,
       Mem.Add curve x1 y1 x2 y2 h = ((x3, y3), h ++ ext) /\
       (length h <= x3 < length (h ++ ext))%nat /\
       (length h <= y3 < length (h ++ ext))%nat /\ x3 <> y3) /\
  (forall x1 y1,
     Mem.valid h x1 -> Mem.valid h y1 ->
     exists x3 y3 ext,
       Mem.Double curve x1 y1 h = ((x3, y3), h ++ ext) /\
       (length h <= x3 < length (h ++ ext))%nat /\
       (length h <= y3 < length (h ++ ext))%nat /\ x3 <> y3) /\
  (forall Bx By k,
     Mem.valid h Bx -> Mem.valid h By ->
     exists x y ext,
       Mem.ScalarMult curve Bx By k h = ((x, y), h ++ ext) /\
       (length h <= x < length (h ++ ext))%nat /\
       (length h <= y < length (h ++ ext))%nat /\ x <> y) /\
  (forall k,
     exists x y ext,
       Mem.ScalarBaseMult curve k h = ((x, y), h ++ ext) /\
       (length h <= x < length (h ++ ext))%nat /\
       (length h <= y < length (h ++ ext))%nat /\ x <> y).
Proof.
  intros Hc. split; [|split; [|split]].
  - intros. now apply Mem_Add_fresh.
  - intros. now apply Mem_Double_fresh.
  - intros. now apply Mem_ScalarMult_fresh.
  - intros k. unfold Mem.ScalarBaseMult. destruct Hc as (HB & HGx & HGy).
    apply Mem_ScalarMult_fresh; [repeat split|..]; assumption.
Qed.

Lemma Mem_results_are_new_objects_witness :
  validCurve tinyHeap tinyMem /\
  (exists x3 y3 ext,
     Mem.Add tinyMem 1%nat 2%nat 1%nat 2%nat tinyHeap = ((x3, y3), tinyHeap ++ ext) /\
     (length tinyHeap <= x3 < length (tinyHeap ++ ext))%nat /\
     (length tinyHeap <= y3 < length (tinyHeap ++ ext))%nat /\ x3 <> y3) /\
  (exists x y ext,
     Mem.ScalarBaseMult tinyMem [x07] tinyHeap = ((x, y), tinyHeap ++ ext) /\
     (length tinyHeap <= x < length (tinyHeap ++ ext))%nat /\
     (length tinyHeap <= y < length (tinyHeap ++ ext))%nat /\ x <> y).
Proof.
  assert (Hc : validCurve tinyHeap tinyMem) by (unfold validCurve, Mem.valid; cbn; lia).
  assert (H1 : Mem.valid tinyHeap 1%nat) by (unfold Mem.valid; cbn; lia).
  assert (H2 : Mem.valid tinyHeap 2%nat) by (unfold Mem.valid; cbn; lia).
  destruct (Mem_results_are_new_objects tinyMem tinyHeap Hc) as (Ha & _ & _ & Hb).
  split; [exact Hc|]. split; [exact (Ha 1%nat 2%nat 1%nat 2%nat H1 H2 H1 H2) | exact (Hb [x07])].
Defined.

(** ** The parameters of P-384 and P-521 *)

(** X28: the numbers set by [initP384] and [initP521] fit together: the bit
    size is the bit length of P and of N, wire coordinates take 48 and 66
    bytes, P is odd and 3 modulo 4, B and the base point are reduced, the
    base point satisfies the curve equation, and N lies in the Hasse
    interval around P + 1. *)
Theorem supported_curves_are_consistent :
  (safenum.BitLen (P p384) = BitSize p384 /\ safenum.BitLen (N p384) = BitSize p384 /\
   byteLen (BitSize p384) = 48 /\ privLen (N p384) = 48%nat /\
   P p384 mod 4 = 3 /\
   B p384 < P p384 /\ Gx p384 < P p384 /\ Gy p384 < P p384 /\
   IsOnCurve p384 (Gx p384) (Gy p384) = true /\
   (P p384 + 1 - N p384) * (P p384 + 1 - N p384) <= 4 * P p384) /\
  (safenum.BitLen (P p521) = BitSize p521 /\ safenum.BitLen (N p521) = BitSize p521 /\
   byteLen (BitSize p521) = 66 /\ privLen (N p521) = 66%nat /\
   P p521 mod 4 = 3 /\
   B p521 < P p521 /\ Gx p521 < P p521 /\ Gy p521 < P p521 /\
   IsOnCurve p521 (Gx p521) (Gy p521) = true /\
   (P p521 + 1 - N p521) * (P p521 + 1 - N p521) <= 4 * P p521).
Proof.
  repeat match goal with |- _ /\ _ => split end;
    first [ vm_compute; reflexivity | vm_compute; discriminate ].
Qed.

(** ** The chord and the tangent *)

Lemma cong_divide p a b : p <> 0 -> a mod p = b mod p <-> (p | a - b).
Proof.
  intros Hp. rewrite <- Z.mod_divide by exact Hp. apply Z.cong_iff_0.
Qed.

Lemma cancel_two p e : Z.prime p -> 2 < p -> (p | 2 * e) -> (p | e).
Proof.
  intros Hprime Hp Hd. apply Z.divide_prime_mul in Hd; trivial.
  destruct Hd as [Hd | Hd]; [|exact Hd].
  apply Z.divide_pos_le in Hd; lia.
Qed.

Lemma cancel_unit p h e : Z.prime p -> h mod p <> 0 -> (p | h * e) -> (p | e).
Proof.
  intros Hprime Hh Hd. apply Z.divide_prime_mul in Hd; trivial.
  destruct Hd as [Hd | Hd]; [|exact Hd].
  exfalso. apply Hh. now apply Z.mod0_divide.
Qed.

(** The affine pair of a Jacobian triple with an invertible Z, with the
    denominators cleared: x·Z² = X and y·Z³ = Y modulo P. *)
Lemma affineFromJacobian_cleared curve X Y Z :
  Z.prime (P curve) -> Z mod P curve <> 0 ->
  let '(x, y) := affineFromJacobian curve X Y Z in
  (x * (Z * Z)) mod P curve = X mod P curve /\
  (y * (Z * Z * Z)) mod P curve = Y mod P curve.
Proof.
  intros Hprime Hz. pose proof (prime_gt_1 _ Hprime) as Hp.
  unfold affineFromJacobian, safenum.EqZero.
  destruct (Z.eqb_spec Z 0) as [-> | _]; [now rewrite Zmod_0_l in Hz|].
  cbv zeta. unfold safenum.ModInverse.
  pose proof (Z.invmod_prime Z (P curve) Hprime Hz) as Hi.
  set (zi := Z.invmod Z (P curve)) in *. set (p := P curve) in *.
  assert (Hi1 : (zi * Z) mod p = 1 mod p) by (rewrite Hi, Z.mod_small; lia).
  unfold_backend. pull_mod p. split.
  - replace (X * (zi * zi) * (Z * Z)) with (X * ((zi * Z) * (zi * Z))) by ring.
    replace X with (X * (1 * 1)) at 2 by ring.
    apply cong_mul; [reflexivity|]. apply cong_mul; exact Hi1.
  - replace (Y * (zi * zi * zi) * (Z * Z * Z))
      with (Y * ((zi * Z) * (zi * Z) * (zi * Z))) by ring.
    replace Y with (Y * (1 * 1 * 1)) at 2 by ring.
    apply cong_mul; [reflexivity|]. repeat apply cong_mul; exact Hi1.
Qed.

(** X29: [Add] computes the chord: for an odd prime P and two operands with
    non-zero x whose x differ modulo P, the result (x3, y3) satisfies, with
    the denominators cleared, x3 = s² - x1 - x2 and y3 = s(x1 - x3) - y1 for
    the slope s = (y2 - y1)/(x2 - x1). *)
Theorem Add_is_the_chord curve x1 y1 x2 y2 :
  Z.prime (P curve) -> 2 < P curve ->
  (x1 =? 0) = false -> (x2 =? 0) = false ->
  (x2 - x1) mod P curve <> 0 ->
  let '(x3, y3) := Add curve x1 y1 x2 y2 in
  ((x2 - x1) * (x2 - x1) * (x3 + x1 + x2)) mod P curve
  = ((y2 - y1) * (y2 - y1)) mod P curve /\
  ((x2 - x1) * (y3 + y1)) mod P curve = ((y2 - y1) * (x1 - x3)) mod P curve.
Proof.
  intros Hprime Hp2 Hx1 Hx2 Hne.
  assert (Hp0 : P curve <> 0) by lia.
  unfold Add. rewrite !zForAffine_tests_x_only, Hx1, Hx2.
  unfold addJacobian. change (safenum.EqZero 1) with false. cbv zeta.
  set (zz := safenum.ModMul 1 1 (P curve)).
  set (u1 := safenum.ModMul x1 zz (P curve)). set (u2 := safenum.ModMul x2 zz (P curve)).
  set (h := safenum.ModSub u2 u1 (P curve)).
  assert (Hh : h mod P curve = (x2 - x1) mod P curve).
  { subst h u1 u2 zz. unfold_backend. pull_mod (P curve). f_equal. ring. }
  assert (Hh0 : safenum.EqZero h = false).
  { unfold safenum.EqZero. apply Z.eqb_neq. intros E. rewrite E, Zmod_0_l in Hh.
    now apply Hne. }
  rewrite Hh0. cbn [andb]. cbv iota beta.
  match goal with |- context [affineFromJacobian curve ?X ?Y ?Z] =>
    set (Y3 := Y); set (Z3 := Z); set (X3 := X) end.
  assert (HZ : Z3 mod P curve = (2 * (x2 - x1)) mod P curve).
  { subst Z3 h u1 u2 zz. unfold_backend. pull_mod (P curve). f_equal. ring. }
  assert (HX : X3 mod P curve
               = (4 * (y2 - y1) * (y2 - y1) - 4 * (x2 - x1) * (x2 - x1) * (x2 - x1)
                  - 8 * x1 * (x2 - x1) * (x2 - x1)) mod P curve).
  { subst X3 h u1 u2 zz. unfold_backend. pull_mod (P curve). f_equal. ring. }
  assert (HY : (Y3 + 8 * y1 * (x2 - x1) * (x2 - x1) * (x2 - x1)) mod P curve
               = (2 * (y2 - y1) * (4 * x1 * (x2 - x1) * (x2 - x1) - X3)) mod P curve).
  { subst Y3 X3 h u1 u2 zz. unfold_backend. pull_mod (P curve). f_equal. ring. }
  assert (HZ0 : Z3 mod P curve <> 0).
  { rewrite HZ. intros E. apply Z.mod_divide in E; [|exact Hp0].
    apply cancel_two in E; trivial. apply Hne. now apply Z.mod0_divide. }
  pose proof (affineFromJacobian_cleared curve X3 Y3 Z3 Hprime HZ0) as Ha.
  clearbody X3 Y3 Z3. clear Hh Hh0. clear h u1 u2 zz.
  destruct (affineFromJacobian curve X3 Y3 Z3) as [x3 y3]. destruct Ha as [Ax Ay].
  apply cong_divide in HZ, HX, HY, Ax, Ay; trivial.
  destruct HZ as [kz HZ], HX as [kx HX], HY as [ky HY], Ax as [ax Ax], Ay as [ay Ay].
  set (dx := x2 - x1) in *. set (dy := y2 - y1) in *.
  assert (E1 : (P curve | dx * dx * (x3 + x1 + x2) - dy * dy)).
  { apply cancel_two; trivial. apply cancel_two; trivial.
    exists (ax + kx - x3 * kz * (Z3 + 2 * dx)).
    replace Z3 with (2 * dx + kz * P curve) in * by lia.
    replace X3 with (x3 * ((2 * dx + kz * P curve) * (2 * dx + kz * P curve)) - ax * P curve)
      in * by lia.
    lia. }
  split; apply cong_divide; trivial.
  apply (cancel_unit _ dx); trivial. apply (cancel_unit _ dx); trivial.
  do 3 (apply cancel_two; trivial).
  exists (ky + ay + 2 * dy * ax - y3 * kz * (Z3 * Z3 + 2 * dx * Z3 + 4 * dx * dx)
          - 2 * dy * x3 * kz * (Z3 + 2 * dx)).
  replace Z3 with (2 * dx + kz * P curve) in * by lia.
  set (Z3' := 2 * dx + kz * P curve) in *.
  replace X3 with (x3 * (Z3' * Z3') - ax * P curve) in * by lia.
  replace Y3 with (y3 * (Z3' * Z3' * Z3') - ay * P curve) in * by lia.
  subst Z3'. lia.
Qed.

Lemma Add_is_the_chord_witness :
  Z.prime (P tiny) /\ 2 < P tiny /\ (521 =? 0) = false /\ (273 =? 0) = false /\
  (273 - 521) mod P tiny <> 0 /\
  (let '(x3, y3) := Add tiny 521 522 273 208 in
   ((273 - 521) * (273 - 521) * (x3 + 521 + 273)) mod P tiny
   = ((208 - 522) * (208 - 522)) mod P tiny /\
   ((273 - 521) * (y3 + 522)) mod P tiny = ((208 - 522) * (521 - x3)) mod P tiny).
Proof.
  assert (Hp : 2 < P tiny) by reflexivity.
  assert (Hne : (273 - 521) mod P tiny <> 0) by (intros E; vm_compute in E; discriminate E).
  split; [exact tiny_prime|]. split; [exact Hp|]. split; [reflexivity|]. split; [reflexivity|].
  split; [exact Hne|].
  exact (Add_is_the_chord tiny 521 522 273 208 tiny_prime Hp eq_refl eq_refl Hne).
Defined.

(** X30: [Double] computes the tangent: for an odd prime P and an operand
    with non-zero x and with y not a multiple of P, the result (x3, y3)
    satisfies, with the denominators cleared, x3 = s² - 2x and
    y3 = s(x - x3) - y for the slope s = (3x² - 3)/(2y), the slope of the
    curves with a = -3. *)
Theorem Double_is_the_tangent curve x y :
  Z.prime (P curve) -> 2 < P curve ->
  (x =? 0) = false -> y mod P curve <> 0 ->
  let '(x3, y3) := Double curve x y in
  (2 * y * (2 * y) * (x3 + 2 * x)) mod P curve
  = ((3 * x * x - 3) * (3 * x * x - 3)) mod P curve /\
  (2 * y * (y3 + y)) mod P curve = ((3 * x * x - 3) * (x - x3)) mod P curve.
Proof.
  intros Hprime Hp2 Hx Hy.
  assert (Hp0 : P curve <> 0) by lia.
  unfold Double. rewrite zForAffine_tests_x_only, Hx.
  unfold doubleJacobian. cbv zeta.
  change (safenum.SetUint64 8) with 8. change (safenum.SetUint64 4) with 4.
  match goal with |- context [affineFromJacobian curve ?X ?Y ?Z] =>
    set (Y3 := Y); set (Z3 := Z); set (X3 := X) end.
  set (a := 3 * x * x - 3).
  assert (HZ : Z3 mod P curve = (2 * y) mod P curve).
  { subst Z3. unfold_backend. pull_mod (P curve). f_equal. ring. }
  assert (HX : X3 mod P curve = (a * a - 8 * x * y * y) mod P curve).
  { subst X3 a. unfold_backend. pull_mod (P curve). f_equal. ring. }
  assert (HY : (Y3 + 8 * y * y * y * y) mod P curve
               = (a * (4 * x * y * y - X3)) mod P curve).
  { subst Y3 X3 a. unfold_backend. pull_mod (P curve). f_equal. ring. }
  assert (HZ0 : Z3 mod P curve <> 0).
  { rewrite HZ. intros E. apply Z.mod_divide in E; [|exact Hp0].
    apply cancel_two in E; trivial. apply Hy. now apply Z.mod0_divide. }
  pose proof (affineFromJacobian_cleared curve X3 Y3 Z3 Hprime HZ0) as Ha.
  clearbody X3 Y3 Z3.
  destruct (affineFromJacobian curve X3 Y3 Z3) as [x3 y3]. destruct Ha as [Ax Ay].
  apply cong_divide in HZ, HX, HY, Ax, Ay; trivial.
  destruct HZ as [kz HZ], HX as [kx HX], HY as [ky HY], Ax as [ax Ax], Ay as [ay Ay].
  split; apply cong_divide; trivial.
  - exists (ax + kx - x3 * kz * (Z3 + 2 * y)).
    replace Z3 with (2 * y + kz * P curve) in * by lia.
    replace X3 with (x3 * ((2 * y + kz * P curve) * (2 * y + kz * P curve)) - ax * P curve)
      in * by lia.
    lia.
  - apply (cancel_unit _ y); trivial. apply (cancel_unit _ y); trivial.
    do 2 (apply cancel_two; trivial).
    exists (ky + ay + a * ax - y3 * kz * (Z3 * Z3 + 2 * y * Z3 + 4 * y * y)
            - a * x3 * kz * (Z3 + 2 * y)).
    replace Z3 with (2 * y + kz * P curve) in * by lia.
    set (Z3' := 2 * y + kz * P curve) in *.
    replace X3 with (x3 * (Z3' * Z3') - ax * P curve) in * by lia.
    replace Y3 with (y3 * (Z3' * Z3' * Z3') - ay * P curve) in * by lia.
    subst Z3'. lia.
Qed.

Lemma Double_is_the_tangent_witness :
  Z.prime (P tiny) /\ 2 < P tiny /\ (521 =? 0) = false /\ 522 mod P tiny <> 0 /\
  (let '(x3, y3) := Double tiny 521 522 in
   (2 * 522 * (2 * 522) * (x3 + 2 * 521)) mod P tiny
   = ((3 * 521 * 521 - 3) * (3 * 521 * 521 - 3)) mod P tiny /\
   (2 * 522 * (y3 + 522)) mod P tiny = ((3 * 521 * 521 - 3) * (521 - x3)) mod P tiny).
Proof.
  assert (Hp : 2 < P tiny) by reflexivity.
  assert (Hy : 522 mod P tiny <> 0) by (intros E; vm_compute in E; discriminate E).
  split; [exact tiny_prime|]. split; [exact Hp|]. split; [reflexivity|]. split; [exact Hy|].
  exact (Double_is_the_tangent tiny 521 522 tiny_prime Hp eq_refl Hy).
Defined.

(** ** Key generation: the public point of a non-zero scalar *)




